(** * Coherence-Spectrogram-Viewer: the triple-buffer synchronizer and the
      streaming spectral estimator

    A shallow embedding of [Source/AtomicSynchronizer.h], of
    [Source/CumulativeTFR.{h,cpp}] and of the channel groups and the analysis
    thread of [Source/CoherenceNode.cpp].

    - [AtomicSynchronizer]: the five index variables and the two registration
      counters are a record of integers; every private method is a function on
      that record.  The two assertions of [pushWrite] make it fallible
      ([option]).  [Interleaving] splits [pushWrite] and [updateReaderIndex]
      into their atomic accesses and interleaves one writer with one reader.
    - [CumulativeTFR]: the accumulators and the three-dimensional buffers, over
      an abstract arithmetic for [double] ([DoubleOps]) which is instantiated
      twice: exact rationals, and IEEE-754 binary64.  The methods are state
      transformers ([Method]) that fail where the code indexes out of range.
      The transforms of [addTrial] and [generateWavelet] belong to an FFT
      library and are not modelled: [CumulativeTFR.addTrial] takes the
      samples, and [Transformed.addTrial] reads them from what the inverse
      transforms leave, at the indices the code computes in [float]
      (IEEE-754 binary32, [Single]).  [Estimator] states what the methods
      compute in the words of the specification, and [Stated] on the sums
      and counts the accumulators store.
    - [CoherenceNode]: the two channel groups, the slot of a channel in the
      buffers, and the body of the loop of [run()], which sends the trials to
      the engine and computes the coherence of every combination. *)

From Stdlib Require Import ZArith QArith Qpower Floats Uint63 Lia Lqa Bool Permutation.
From stdpp Require Import list gmap strings pretty.

Local Open Scope Z_scope.

(** ** AtomicSynchronizer.h *)

Module AtomicSynchronizer.

(** The data members of [class AtomicSynchronizer].  An [int] is a [Z]; the
    code only ever stores [-1], [0], [1] and [2] in the indices and [0] and [1]
    in the counters, so no wrap-around arises. *)
Record t : Type := mk {
  readyToReadIndex : Z;    (* assigned by the writer; can be read by the reader *)
  readyToWriteIndex : Z;   (* assigned by the reader; can be modified by the writer *)
  readyToWriteIndex2 : Z;  (* another slot similar to readyToWriteIndex *)
  writerIndex : Z;         (* index the writer may currently be writing to *)
  readerIndex : Z;         (* index the reader may currently be reading from *)
  nWriters : Z;
  nReaders : Z
}.

Definition set_readyToReadIndex (v : Z) (s : t) : t :=
  mk v (readyToWriteIndex s) (readyToWriteIndex2 s) (writerIndex s) (readerIndex s)
     (nWriters s) (nReaders s).
Definition set_readyToWriteIndex (v : Z) (s : t) : t :=
  mk (readyToReadIndex s) v (readyToWriteIndex2 s) (writerIndex s) (readerIndex s)
     (nWriters s) (nReaders s).
Definition set_readyToWriteIndex2 (v : Z) (s : t) : t :=
  mk (readyToReadIndex s) (readyToWriteIndex s) v (writerIndex s) (readerIndex s)
     (nWriters s) (nReaders s).
Definition set_writerIndex (v : Z) (s : t) : t :=
  mk (readyToReadIndex s) (readyToWriteIndex s) (readyToWriteIndex2 s) v (readerIndex s)
     (nWriters s) (nReaders s).
Definition set_readerIndex (v : Z) (s : t) : t :=
  mk (readyToReadIndex s) (readyToWriteIndex s) (readyToWriteIndex2 s) (writerIndex s) v
     (nWriters s) (nReaders s).
Definition set_nWriters (v : Z) (s : t) : t :=
  mk (readyToReadIndex s) (readyToWriteIndex s) (readyToWriteIndex2 s) (writerIndex s)
     (readerIndex s) v (nReaders s).
Definition set_nReaders (v : Z) (s : t) : t :=
  mk (readyToReadIndex s) (readyToWriteIndex s) (readyToWriteIndex2 s) (writerIndex s)
     (readerIndex s) (nWriters s) v.

(** [std::atomic<int>::compare_exchange_strong(expected, desired)] on a cell
    holding [cur]: whether it succeeded, and the cell afterwards. *)
Definition compare_exchange_strong (cur expected desired : Z) : bool * Z :=
  if cur =? expected then (true, desired) else (false, cur).

(** [bool checkoutWriter()] *)
Definition checkoutWriter (s : t) : bool * t :=
  let '(ok, n) := compare_exchange_strong (nWriters s) 0 1 in
  if negb ok then (false, s) else (true, set_nWriters n s).

(** [void returnWriter()] *)
Definition returnWriter (s : t) : t := set_nWriters 0 s.

(** [bool checkoutReader()] *)
Definition checkoutReader (s : t) : bool * t :=
  let '(ok, n) := compare_exchange_strong (nReaders s) 0 1 in
  if negb ok then (false, s) else (true, set_nReaders n s).

(** [void returnReader()] *)
Definition returnReader (s : t) : t := set_nReaders 0 s.

(** The statements of [pushWrite] between its two assertions. *)
Definition pushWrite_body (s : t) : t :=
  (* writerIndex = readyToReadIndex.exchange(writerIndex) *)
  let s1 := set_writerIndex (readyToReadIndex s) (set_readyToReadIndex (writerIndex s) s) in
  if writerIndex s1 =? -1 then
    (* writerIndex = readyToWriteIndex.exchange(-1) *)
    let s2 := set_writerIndex (readyToWriteIndex s1) (set_readyToWriteIndex (-1) s1) in
    if writerIndex s2 =? -1 then
      (* writerIndex = readyToWriteIndex2.exchange(-1) *)
      set_writerIndex (readyToWriteIndex2 s2) (set_readyToWriteIndex2 (-1) s2)
    else s2
  else s1.

(** [void pushWrite()]; [None] when one of the two [assert(writerIndex != -1)]
    fails. *)
Definition pushWrite (s : t) : option t :=
  if writerIndex s =? -1 then None
  else
    let s' := pushWrite_body s in
    if writerIndex s' =? -1 then None else Some s'.

(** [void updateReaderIndex()] *)
Definition updateReaderIndex (s : t) : t :=
  if negb (readyToReadIndex s =? -1) then
    let s1 :=
      if negb (readerIndex s =? -1) then
        let '(ok, c) := compare_exchange_strong (readyToWriteIndex s) (-1) (readerIndex s) in
        if negb ok then
          (* readyToWriteIndex2.exchange(readerIndex), the old value is dropped *)
          set_readyToWriteIndex2 (readerIndex s) s
        else set_readyToWriteIndex c s
      else s in
    (* readerIndex = readyToReadIndex.exchange(-1) *)
    set_readerIndex (readyToReadIndex s1) (set_readyToReadIndex (-1) s1)
  else s.

(** [bool hasUpdate() const] *)
Definition hasUpdate (s : t) : bool := negb (readyToReadIndex s =? -1).

(** [class ScopedLockout]: the owner pointer is the state that is passed
    around. *)
Record ScopedLockout : Type := mkLockout {
  hasReadLock : bool;
  hasWriteLock : bool;
  lockoutValid : bool
}.

Definition ScopedLockout_ctor (s : t) : ScopedLockout * t :=
  let '(r, s1) := checkoutReader s in
  let '(w, s2) := checkoutWriter s1 in
  (mkLockout r w (r && w), s2).

Definition ScopedLockout_dtor (l : ScopedLockout) (s : t) : t :=
  let s1 := if hasReadLock l then returnReader s else s in
  if hasWriteLock l then returnWriter s1 else s1.

(** [bool reset()]; the lockout is destroyed on both return paths. *)
Definition reset (s : t) : bool * t :=
  let '(lock, s1) := ScopedLockout_ctor s in
  if negb (lockoutValid lock) then (false, ScopedLockout_dtor lock s1)
  else
    let s2 := set_readyToReadIndex (-1) s1 in
    let s3 := set_readyToWriteIndex 0 s2 in
    let s4 := set_readyToWriteIndex2 1 s3 in
    let s5 := set_writerIndex 2 s4 in
    let s6 := set_readerIndex (-1) s5 in
    (true, ScopedLockout_dtor lock s6).

(** [AtomicSynchronizer()]: the counters are initialised, then [reset()] runs
    on whatever the five indices held ([garbage]). *)
Definition construct (garbage : t) : t :=
  snd (reset (set_nWriters 0 (set_nReaders 0 garbage))).

(** The state [reset] establishes. *)
Definition pristine : t := mk (-1) 0 1 2 (-1) 0 0.

(** [class ScopedWriteIndex] *)
Record ScopedWriteIndex : Type := mkWriteIndex { writeValid : bool }.

Definition ScopedWriteIndex_ctor (s : t) : ScopedWriteIndex * t :=
  let '(ok, s') := checkoutWriter s in (mkWriteIndex ok, s').

Definition ScopedWriteIndex_dtor (h : ScopedWriteIndex) (s : t) : t :=
  if writeValid h then returnWriter s else s.

Definition ScopedWriteIndex_pushUpdate (h : ScopedWriteIndex) (s : t) : option t :=
  if writeValid h then pushWrite s else Some s.

(** [operator int() const] *)
Definition ScopedWriteIndex_int (h : ScopedWriteIndex) (s : t) : Z :=
  if writeValid h then writerIndex s else -1.

(** [class ScopedReadIndex] *)
Record ScopedReadIndex : Type := mkReadIndex { readValid : bool }.

Definition ScopedReadIndex_ctor (s : t) : ScopedReadIndex * t :=
  let '(ok, s') := checkoutReader s in
  (mkReadIndex ok, if ok then updateReaderIndex s' else s').

Definition ScopedReadIndex_dtor (h : ScopedReadIndex) (s : t) : t :=
  if readValid h then returnReader s else s.

Definition ScopedReadIndex_pullUpdate (h : ScopedReadIndex) (s : t) : t :=
  if readValid h then updateReaderIndex s else s.

Definition ScopedReadIndex_int (h : ScopedReadIndex) (s : t) : Z :=
  if readValid h then readerIndex s else -1.

(** The five index variables, and those of them that hold an index. *)
Definition slots (s : t) : list Z :=
  [writerIndex s; readerIndex s; readyToReadIndex s; readyToWriteIndex s;
   readyToWriteIndex2 s].

Definition held (s : t) : list Z := List.filter (fun i => negb (i =? -1)) (slots s).

(** The population invariant: the indices held are 0, 1 and 2, once each. *)
Definition population (s : t) : Prop := Permutation (held s) [0; 1; 2].

(** The same, as a check that computes. *)
Definition occurrences (v : Z) (l : list Z) : nat :=
  length (List.filter (fun i => i =? v) l).

Definition population_ok (s : t) : bool :=
  forallb (fun v => Nat.eqb (occurrences v (slots s)) 1) [0; 1; 2]
  && forallb (fun i => (-1 <=? i) && (i <=? 2)) (slots s).

(** Operations of a registered writer and a registered reader. *)
Inductive op : Type := PushUpdate | PullUpdate.

Definition apply_op (hw : ScopedWriteIndex) (hr : ScopedReadIndex) (o : op) (s : t)
  : option t :=
  match o with
  | PushUpdate => ScopedWriteIndex_pushUpdate hw s
  | PullUpdate => Some (ScopedReadIndex_pullUpdate hr s)
  end.

Fixpoint run (hw : ScopedWriteIndex) (hr : ScopedReadIndex) (ops : list op) (s : t)
  : option t :=
  match ops with
  | [] => Some s
  | o :: ops' =>
      match apply_op hw hr o s with
      | Some s' => run hw hr ops' s'
      | None => None
      end
  end.

(** A fresh synchronizer on which a writer, then a reader, has registered. *)
Definition start (garbage : t) : ScopedWriteIndex * ScopedReadIndex * t :=
  let '(hw, s1) := ScopedWriteIndex_ctor (construct garbage) in
  let '(hr, s2) := ScopedReadIndex_ctor s1 in
  (hw, hr, s2).

(** Calls of the private methods in any order, as a client of the class (or of
    its handles) can cause them. *)
Inductive call : Type :=
| CheckoutWriter | ReturnWriter | CheckoutReader | ReturnReader
| PushWrite | UpdateReaderIndex | Reset.

Definition is_push (c : call) : bool :=
  match c with PushWrite => true | _ => false end.

Definition do_call (c : call) (s : t) : option t :=
  match c with
  | CheckoutWriter => Some (snd (checkoutWriter s))
  | ReturnWriter => Some (returnWriter s)
  | CheckoutReader => Some (snd (checkoutReader s))
  | ReturnReader => Some (returnReader s)
  | PushWrite => pushWrite s
  | UpdateReaderIndex => Some (updateReaderIndex s)
  | Reset => Some (snd (reset s))
  end.

Fixpoint do_calls (cs : list call) (s : t) : option t :=
  match cs with
  | [] => Some s
  | c :: cs' =>
      match do_call c s with
      | Some s' => do_calls cs' s'
      | None => None
      end
  end.

End AtomicSynchronizer.

(** ** [template<typename T> class AtomicallyShared] *)

Module AtomicallyShared.
Import AtomicSynchronizer.

Section WithData.
Context {T : Type}.

(** [std::vector<T> data; AtomicSynchronizer sync;] *)
Record shared : Type := mkShared {
  data : list T;
  sync : AtomicSynchronizer.t
}.

(** The constructor makes three copies of the value built from its
    arguments. *)
Definition construct (x : T) (garbage : AtomicSynchronizer.t) : shared :=
  mkShared [x; x; x] (AtomicSynchronizer.construct garbage).

Definition reset (o : shared) : bool * shared :=
  let '(b, s) := AtomicSynchronizer.reset (sync o) in (b, mkShared (data o) s).

(** [bool map(std::function<void(T&)> f)] *)
Definition map (f : T -> T) (o : shared) : bool * shared :=
  let '(lock, s1) := ScopedLockout_ctor (sync o) in
  if negb (lockoutValid lock) then (false, mkShared (data o) (ScopedLockout_dtor lock s1))
  else (true, mkShared (List.map f (data o)) (ScopedLockout_dtor lock s1)).

Definition hasUpdate (o : shared) : bool := AtomicSynchronizer.hasUpdate (sync o).

(** [class ScopedWritePtr] *)
Record ScopedWritePtr : Type := mkWritePtr {
  wind : ScopedWriteIndex;
  wvalid : bool
}.

Definition ScopedWritePtr_ctor (o : shared) : ScopedWritePtr * shared :=
  let '(i, s) := ScopedWriteIndex_ctor (sync o) in
  (mkWritePtr i (writeValid i), mkShared (data o) s).

Definition ScopedWritePtr_pushUpdate (p : ScopedWritePtr) (o : shared) : option shared :=
  match ScopedWriteIndex_pushUpdate (wind p) (sync o) with
  | Some s => Some (mkShared (data o) s)
  | None => None
  end.

(** [class ScopedReadPtr] *)
Record ScopedReadPtr : Type := mkReadPtr {
  ind : ScopedReadIndex;
  valid : bool
}.

(** [valid(ind != -1)]: the index is converted with [operator int()]. *)
Definition ScopedReadPtr_ctor (o : shared) : ScopedReadPtr * shared :=
  let '(i, s) := ScopedReadIndex_ctor (sync o) in
  (mkReadPtr i (negb (ScopedReadIndex_int i s =? -1)), mkShared (data o) s).

Definition ScopedReadPtr_pullUpdate (p : ScopedReadPtr) (o : shared)
  : ScopedReadPtr * shared :=
  let s := ScopedReadIndex_pullUpdate (ind p) (sync o) in
  (mkReadPtr (ind p) (negb (ScopedReadIndex_int (ind p) s =? -1)), mkShared (data o) s).

(** [const T& operator*()]; [None] is [std::abort()]. *)
Definition ScopedReadPtr_deref (p : ScopedReadPtr) (o : shared) : option T :=
  if negb (valid p) then None
  else data o !! Z.to_nat (ScopedReadIndex_int (ind p) (sync o)).

(** [n] calls of [pullUpdate] on one read pointer. *)
Fixpoint pullUpdates (n : nat) (p : ScopedReadPtr) (o : shared) : ScopedReadPtr * shared :=
  match n with
  | O => (p, o)
  | S n' => let '(p', o') := ScopedReadPtr_pullUpdate p o in pullUpdates n' p' o'
  end.

(** [data[ind]] for an [int] index: out of range is undefined in the code and
    [None] here. *)
Definition element (i : Z) (l : list T) : option T :=
  if i <? 0 then None else l !! Z.to_nat i.

(** [T& operator*()] of the write pointer, read through ([... = *writer]) and
    assigned through ([*writer = v]); [None] is [std::abort()]. *)
Definition ScopedWritePtr_deref (p : ScopedWritePtr) (o : shared) : option T :=
  if negb (wvalid p) then None
  else element (ScopedWriteIndex_int (wind p) (sync o)) (data o).

Definition ScopedWritePtr_assign (p : ScopedWritePtr) (v : T) (o : shared)
  : option shared :=
  if negb (wvalid p) then None
  else
    let i := ScopedWriteIndex_int (wind p) (sync o) in
    match element i (data o) with
    | Some _ => Some (mkShared (<[Z.to_nat i := v]> (data o)) (sync o))
    | None => None
    end.

(** The destructors of the two pointers destroy their index members. *)
Definition ScopedWritePtr_dtor (p : ScopedWritePtr) (o : shared) : shared :=
  mkShared (data o) (ScopedWriteIndex_dtor (wind p) (sync o)).

Definition ScopedReadPtr_dtor (p : ScopedReadPtr) (o : shared) : shared :=
  mkShared (data o) (ScopedReadIndex_dtor (ind p) (sync o)).

(** A shared object on which a write pointer, then a read pointer, has been
    constructed. *)
Definition attach (x : T) (garbage : AtomicSynchronizer.t)
  : ScopedWritePtr * ScopedReadPtr * shared :=
  let '(w, o1) := ScopedWritePtr_ctor (construct x garbage) in
  let '(r, o2) := ScopedReadPtr_ctor o1 in
  (w, r, o2).

(** What the two threads do with their pointers: the writer fills its instance
    and publishes it ([*writer = v; writer.pushUpdate();]), the reader asks
    for the latest ([reader.pullUpdate();]). *)
Inductive access : Type :=
| Publish (v : T)
| Pull.

Definition do_access (w : ScopedWritePtr) (a : access) (ro : ScopedReadPtr * shared)
  : option (ScopedReadPtr * shared) :=
  match a with
  | Publish v =>
      match ScopedWritePtr_assign w v (snd ro) with
      | Some o1 =>
          match ScopedWritePtr_pushUpdate w o1 with
          | Some o2 => Some (fst ro, o2)
          | None => None
          end
      | None => None
      end
  | Pull => Some (ScopedReadPtr_pullUpdate (fst ro) (snd ro))
  end.

Fixpoint do_accesses (w : ScopedWritePtr) (l : list access) (ro : ScopedReadPtr * shared)
  : option (ScopedReadPtr * shared) :=
  match l with
  | [] => Some ro
  | a :: l' =>
      match do_access w a ro with
      | Some ro' => do_accesses w l' ro'
      | None => None
      end
  end.

End WithData.
Arguments shared : clear implicits.
Arguments access : clear implicits.

End AtomicallyShared.

(** ** One writer and one reader, interleaved at their atomic accesses

    Every access to a shared index is one step; the accesses to the private
    [writerIndex] and [readerIndex] belong to the step of the shared access
    they feed.  The interleaving is sequentially consistent (the code asks for
    [memory_order_relaxed]; each step touches a single atomic object). *)

Module Interleaving.
Import AtomicSynchronizer.

(** Where the writer is inside [pushWrite]. *)
Inductive wpc : Type :=
| WIdle    (* not inside; the next step is the exchange with readyToReadIndex *)
| WTake1   (* about to exchange with readyToWriteIndex *)
| WTake2.  (* about to exchange with readyToWriteIndex2 *)

(** Where the reader is inside [updateReaderIndex]. *)
Inductive rpc : Type :=
| RIdle    (* not inside; the next step loads readyToReadIndex *)
| RPark    (* about to compare-exchange readyToWriteIndex *)
| RPark2   (* about to exchange into readyToWriteIndex2 *)
| RTake.   (* about to exchange -1 into readyToReadIndex *)

Record conf : Type := mkConf {
  mem : AtomicSynchronizer.t;
  wat : wpc;
  rat : rpc
}.

Inductive thread : Type := Writer | Reader.

(** One step of the writer; [None] is a failed assertion. *)
Definition writer_step (c : conf) : option conf :=
  let m := mem c in
  match wat c with
  | WIdle =>
      if writerIndex m =? -1 then None
      else
        let m1 := set_writerIndex (readyToReadIndex m) (set_readyToReadIndex (writerIndex m) m) in
        Some (mkConf m1 (if writerIndex m1 =? -1 then WTake1 else WIdle) (rat c))
  | WTake1 =>
      let m1 := set_writerIndex (readyToWriteIndex m) (set_readyToWriteIndex (-1) m) in
      Some (mkConf m1 (if writerIndex m1 =? -1 then WTake2 else WIdle) (rat c))
  | WTake2 =>
      let m1 := set_writerIndex (readyToWriteIndex2 m) (set_readyToWriteIndex2 (-1) m) in
      if writerIndex m1 =? -1 then None else Some (mkConf m1 WIdle (rat c))
  end.

(** One step of the reader. *)
Definition reader_step (c : conf) : conf :=
  let m := mem c in
  match rat c with
  | RIdle =>
      if negb (readyToReadIndex m =? -1) then
        mkConf m (wat c) (if negb (readerIndex m =? -1) then RPark else RTake)
      else c
  | RPark =>
      let '(ok, v) := compare_exchange_strong (readyToWriteIndex m) (-1) (readerIndex m) in
      if negb ok then mkConf m (wat c) RPark2
      else mkConf (set_readyToWriteIndex v m) (wat c) RTake
  | RPark2 => mkConf (set_readyToWriteIndex2 (readerIndex m) m) (wat c) RTake
  | RTake =>
      mkConf (set_readerIndex (readyToReadIndex m) (set_readyToReadIndex (-1) m)) (wat c) RIdle
  end.

Definition step (th : thread) (c : conf) : option conf :=
  match th with
  | Writer => writer_step c
  | Reader => Some (reader_step c)
  end.

(** A schedule names the thread that moves at each step. *)
Fixpoint exec (sched : list thread) (c : conf) : option conf :=
  match sched with
  | [] => Some c
  | th :: sched' =>
      match step th c with
      | Some c' => exec sched' c'
      | None => None
      end
  end.

(** Both threads outside their methods, as after the two registrations. *)
Definition idle (m : AtomicSynchronizer.t) : conf := mkConf m WIdle RIdle.

(** The index the reader owns: once it has parked its index and is about to
    take the new one, it owns none. *)
Definition reader_owns (c : conf) : Z :=
  match rat c with RTake => -1 | _ => readerIndex (mem c) end.

(** What holds between any two steps. *)
Definition safe (c : conf) : bool :=
  let m := mem c in
  population_ok (set_readerIndex (reader_owns c) m)
  && ((-1 <=? readerIndex m) && (readerIndex m <=? 2))
  && match wat c with
     | WIdle => negb (writerIndex m =? -1)
     | WTake1 => writerIndex m =? -1
     | WTake2 => (writerIndex m =? -1) && negb (readyToWriteIndex2 m =? -1)
     end
  && match rat c with
     | RIdle => true
     | RPark => negb (readyToReadIndex m =? -1) && negb (readerIndex m =? -1)
     | RPark2 =>
         negb (readyToReadIndex m =? -1) && negb (readerIndex m =? -1)
         && (readyToWriteIndex2 m =? -1)
     | RTake => negb (readyToReadIndex m =? -1)
     end.

(** Whether the step of [th] from [c] is the reader's exchange that takes the
    index out of [readyToReadIndex]. *)
Definition is_take (th : thread) (c : conf) : bool :=
  match th, rat c with
  | Reader, RTake => true
  | _, _ => false
  end.

(** How many steps of a schedule started in [c] are such exchanges. *)
Fixpoint takes (sched : list thread) (c : conf) : nat :=
  match sched with
  | [] => O
  | th :: sched' =>
      ((if is_take th c then 1 else 0)
       + match step th c with
         | Some c' => takes sched' c'
         | None => 0
         end)%nat
  end.

(** The writer run alone through one [pushWrite] (at most three steps). *)
Definition writer_alone (m : AtomicSynchronizer.t) : option conf :=
  match writer_step (idle m) with
  | Some c1 =>
      match wat c1 with
      | WIdle => Some c1
      | _ =>
          match writer_step c1 with
          | Some c2 =>
              match wat c2 with
              | WIdle => Some c2
              | _ => writer_step c2
              end
          | None => None
          end
      end
  | None => None
  end.

(** The reader run alone through one [updateReaderIndex] (at most four
    steps). *)
Definition reader_on (c : conf) : conf :=
  match rat c with RIdle => c | _ => reader_step c end.

Definition reader_alone (m : AtomicSynchronizer.t) : conf :=
  reader_on (reader_on (reader_on (reader_step (idle m)))).

End Interleaving.

(** ** Finite enumeration of the index contents *)

Module Enum.
Import AtomicSynchronizer.

Definition vals : list Z := [-1; 0; 1; 2].

Definition in_range (s : t) : Prop := Forall (fun i => -1 <= i <= 2) (slots s).

Definition tuples : list (Z * Z * Z * Z * Z) :=
  list_prod (list_prod (list_prod (list_prod vals vals) vals) vals) vals.

Definition of_tuple (k : Z * Z * Z * Z * Z) (nw nr : Z) : t :=
  let '(rr, rw, rw2, w, r) := k in mk rr rw rw2 w r nw nr.

Definition for_all (Q : t -> bool) (nw nr : Z) : bool :=
  forallb (fun k => Q (of_tuple k nw nr)) tuples.

End Enum.

(** ** CumulativeTFR.h and CumulativeTFR.cpp *)

(** *** The arithmetic of [double]

    The code computes in [double]; its operations are the fields of
    [DoubleOps], so that one translation of the source is read in two
    arithmetics: the exact one of the rationals, in which the estimator is
    specified, and IEEE-754 binary64, in which infinities and NaN exist.
    The [float] of [getPowerForChannels] is read in IEEE-754 binary32. *)

Class DoubleOps (D : Type) : Type := {
  of_int : Z -> D;        (* conversion of an [int] or a [size_t] to [double] *)
  to_size_t : D -> Z;     (* conversion of a [double] to [size_t]: truncation *)
  dadd : D -> D -> D;
  dsub : D -> D -> D;
  dmul : D -> D -> D;
  ddiv : D -> D -> D;
  dopp : D -> D
}.

(** [std::sqrt] *)
Class DoubleSqrt (D : Type) : Type := { dsqrt : D -> D }.

(** [float], with the conversions [getPowerForChannels] uses. *)
Class SingleOps (D F : Type) : Type := {
  to_float : D -> F;      (* [(float)x] *)
  f_of_int : Z -> F;      (* conversion of an [int] to [float] *)
  fadd : F -> F -> F;
  fdiv : F -> F -> F
}.

Declare Scope double_scope.
Delimit Scope double_scope with D.
Infix "+" := dadd : double_scope.
Infix "-" := dsub : double_scope.
Infix "*" := dmul : double_scope.
Infix "/" := ddiv : double_scope.
Notation "- x" := (dopp x) : double_scope.

(** Exact arithmetic.  The truncation is toward zero, as the conversion to an
    unsigned integer is in C++ ([Z.quot]). *)
Definition Qtrunc (q : Q) : Z := Z.quot (Qnum q) (Zpos (Qden q)).

#[export] Instance QDouble : DoubleOps Q := {
  of_int := inject_Z;
  to_size_t := Qtrunc;
  dadd := Qplus;
  dsub := Qminus;
  dmul := Qmult;
  ddiv := Qdiv;
  dopp := Qopp
}.

(** The sum of a list of rationals. *)
Definition Qsum (xs : list Q) : Q := fold_right Qplus 0%Q xs.

(** IEEE-754 binary64, the primitive floats.  An integer below [2^63] in
    magnitude converts as the hardware does (an integer above [2^53] is
    rounded).  The conversion to [size_t] is defined by C++ only for values
    that truncate into the range of [size_t]; on the others (NaN, the
    infinities, values of -1 or less) this function answers 0. *)
Definition float_of_int (z : Z) : float :=
  if z <? 0 then PrimFloat.opp (PrimFloat.of_uint63 (Uint63.of_Z (- z)))
  else PrimFloat.of_uint63 (Uint63.of_Z z).

Definition float_to_size_t (x : float) : Z :=
  match Prim2SF x with
  | S754_finite false m e =>
      if 0 <=? e then Z.shiftl (Zpos m) e else Z.shiftr (Zpos m) (- e)
  | _ => 0
  end.

#[export] Instance IEEEDouble : DoubleOps float := {
  of_int := float_of_int;
  to_size_t := float_to_size_t;
  dadd := PrimFloat.add;
  dsub := PrimFloat.sub;
  dmul := PrimFloat.mul;
  ddiv := PrimFloat.div;
  dopp := PrimFloat.opp
}.

#[export] Instance IEEESqrt : DoubleSqrt float := { dsqrt := PrimFloat.sqrt }.

(** Whether a [double] is a NaN, and whether it is a zero of either sign. *)
Definition is_nan (x : float) : bool :=
  match Prim2SF x with S754_nan => true | _ => false end.

Definition is_zero (x : float) : bool :=
  match Prim2SF x with S754_zero _ => true | _ => false end.

Definition zero_or_nan (x : float) : bool := is_zero x || is_nan x.

Definition sf_zero_or_nan (x : spec_float) : bool :=
  match x with S754_zero _ | S754_nan => true | _ => false end.

(** *** The arithmetic of [float]

    IEEE-754 binary32: 24 bits of precision, every operation rounded to the
    nearest value, ties to even, by the executable specification of the
    Standard Library.  A [float] converts to [double] exactly; a [double]
    converts to [float] by rounding, to an infinity when it is too large. *)

Module Single.

Definition prec : Z := 24.
Definition emax : Z := 128.

(** Conversion of an [int] to [float] *)
Definition of_int (z : Z) : spec_float := binary_normalize prec emax z 0 false.

(** [(float)x] for a [double] [x] *)
Definition of_double (x : float) : spec_float :=
  match Prim2SF x with
  | S754_finite s m e => binary_normalize prec emax (if s then Zneg m else Zpos m) e s
  | y => y
  end.

(** The conversion of a [float] to [double] *)
Definition to_double (x : spec_float) : float := SF2Prim x.

Definition add : spec_float -> spec_float -> spec_float := SFadd prec emax.
Definition mul : spec_float -> spec_float -> spec_float := SFmul prec emax.
Definition div : spec_float -> spec_float -> spec_float := SFdiv prec emax.

End Single.

#[export] Instance IEEESingle : SingleOps float spec_float := {
  to_float := Single.of_double;
  f_of_int := Single.of_int;
  fadd := Single.add;
  fdiv := Single.div
}.

(** [int(x)] for a [float] or a [double] [x]: the fraction is dropped; C++
    defines the conversion only when the result is an [int], of 32 bits
    here. *)
Definition sf_to_int (x : spec_float) : option Z :=
  match x with
  | S754_zero _ => Some 0
  | S754_finite s m e =>
      let a := if 0 <=? e then Z.shiftl (Zpos m) e else Z.shiftr (Zpos m) (- e) in
      let v := if s then - a else a in
      if (- 2 ^ 31 <=? v) && (v <? 2 ^ 31) then Some v else None
  | _ => None
  end.

(** *** [std::complex<double>] *)

Module Complex.
Section Ops.
Context {D : Type} `{DoubleOps D}.
Local Open Scope double_scope.

Record t : Type := mk { re : D; im : D }.

(** [std::complex<double>()] and the conversion of a [double] *)
Definition zero : t := mk (of_int 0) (of_int 0).
Definition of_real (x : D) : t := mk x (of_int 0).

Definition add (a b : t) : t := mk (re a + re b) (im a + im b).

(** [operator*]: the textbook product (no recovery of infinities). *)
Definition mul (a b : t) : t :=
  mk (re a * re b - im a * im b) (re a * im b + im a * re b).

(** [operator*(const T&, const complex<T>&)] is [complex<T>(x) *= a]. *)
Definition scale (x : D) (a : t) : t := mul (of_real x) a.

(** [operator/(const complex<T>&, const T&)] divides both parts. *)
Definition div_real (a : t) (x : D) : t := mk (re a / x) (im a / x).

Definition conj (a : t) : t := mk (re a) (- im a).

(** [std::norm]: the squared magnitude. *)
Definition norm (a : t) : D := re a * re a + im a * im a.

End Ops.
Arguments t : clear implicits.
End Complex.

(** *** The accumulators of CumulativeTFR.h *)

Module ComplexWeightedAccum.
Section Accum.
Context {D : Type} `{DoubleOps D}.
Local Open Scope double_scope.

Record t : Type := mk {
  sum : Complex.t D;
  count : Z;             (* size_t *)
  alpha : D
}.

(** [ComplexWeightedAccum(double alpha)] *)
Definition make (a : D) : t := mk Complex.zero 0 a.

Definition getAverage (acc : t) : Complex.t D :=
  if 0 <? count acc then Complex.div_real (sum acc) (of_int (count acc))
  else Complex.zero.

(** [count] is a [size_t]: the [double] on the right is converted. *)
Definition addValue (x : Complex.t D) (acc : t) : t :=
  mk (Complex.add x (Complex.scale (of_int 1 - alpha acc) (sum acc)))
     (to_size_t (of_int 1 + (of_int 1 - alpha acc) * of_int (count acc)))
     (alpha acc).

(** [addValue(x_1); ...; addValue(x_N);] *)
Definition addValues (xs : list (Complex.t D)) (acc : t) : t :=
  fold_left (fun a x => addValue x a) xs acc.

End Accum.
Arguments t : clear implicits.
End ComplexWeightedAccum.

Module RealWeightedAccum.
Section Accum.
Context {D : Type} `{DoubleOps D}.
Local Open Scope double_scope.

Record t : Type := mk {
  sum : D;
  count : Z;             (* size_t *)
  alpha : D
}.

(** [RealWeightedAccum(double alpha)] *)
Definition make (a : D) : t := mk (of_int 0) 0 a.

Definition getAverage (acc : t) : D :=
  if 0 <? count acc then sum acc / of_int (count acc) else of_int 0.

Definition addValue (x : D) (acc : t) : t :=
  mk (x + (of_int 1 - alpha acc) * sum acc)
     (to_size_t (of_int 1 + (of_int 1 - alpha acc) * of_int (count acc)))
     (alpha acc).

(** [addValue(x_1); ...; addValue(x_N);] *)
Definition addValues (xs : list D) (acc : t) : t :=
  fold_left (fun a x => addValue x a) xs acc.

End Accum.
Arguments t : clear implicits.
End RealWeightedAccum.

(** Modelled from the spec: [RealAccum] is JUCE's
    [StatisticsAccumulator<double>], which is not among the sources.  The spec
    says the per-frequency output is the mean of the coherence over the
    time-bins, and that [Var] is a variance to which the Bessel correction
    [nTimes/(nTimes-1)] applies, so [getVariance] is the population variance. *)
Module RealAccum.
Section Accum.
Context {D : Type} `{DoubleOps D}.
Local Open Scope double_scope.

Record t : Type := mk {
  count : Z;
  sum : D;
  sumSquares : D
}.

Definition make : t := mk 0 (of_int 0) (of_int 0).

Definition addValue (v : D) (acc : t) : t :=
  mk (count acc + 1)%Z (sum acc + v) (sumSquares acc + v * v).

Definition getAverage (acc : t) : D :=
  if 0 <? count acc then sum acc / of_int (count acc) else of_int 0.

Definition getVariance (acc : t) : D :=
  if 0 <? count acc
  then (sumSquares acc - sum acc * sum acc / of_int (count acc)) / of_int (count acc)
  else of_int 0.

End Accum.
Arguments t : clear implicits.
End RealAccum.

(** *** A method is a state transformer that can run out of range

    Indexing a [std::vector] out of range is undefined; here it is [None]. *)

Module Method.

Definition M (St A : Type) : Type := St -> option (A * St).

Definition ret {St A : Type} (a : A) : M St A := fun s => Some (a, s).

Definition bind {St A B : Type} (m : M St A) (k : A -> M St B) : M St B :=
  fun s => match m s with
           | Some (a, s') => k a s'
           | None => None
           end.

(** Reading a member. *)
Definition read {St A : Type} (f : St -> option A) : M St A :=
  fun s => match f s with
           | Some a => Some (a, s)
           | None => None
           end.

(** Assigning to a member. *)
Definition write {St : Type} (f : St -> option St) : M St unit :=
  fun s => match f s with
           | Some s' => Some (tt, s')
           | None => None
           end.

(** A value that is there or is out of range. *)
Definition check {St A : Type} (o : option A) : M St A := read (fun _ => o).

(** [for (int i = from; i < from + n; ++i) body], the locals the body
    updates being [a]. *)
Fixpoint for_loop {St A : Type} (from n : nat) (body : nat -> A -> M St A) (a : A)
  : M St A :=
  match n with
  | O => ret a
  | S n' => bind (body from a) (for_loop (S from) n' body)
  end.

(** From a state in [P] the method returns, with a result and a state in
    [Q]. *)
Definition triple {St A : Type} (P : St -> Prop) (m : M St A) (Q : A -> St -> Prop)
  : Prop :=
  forall s, P s -> exists a s', m s = Some (a, s') /\ Q a s'.

(** A method that assigns nothing. *)
Definition read_only {St A : Type} (m : M St A) : Prop :=
  forall s a s', m s = Some (a, s') -> s' = s.

(** From a state in [P] the method, if it returns, does so with a result and
    a state in [Q]. *)
Definition partial {St A : Type} (P : St -> Prop) (m : M St A) (Q : A -> St -> Prop)
  : Prop :=
  forall s a s', P s -> m s = Some (a, s') -> Q a s'.

End Method.

Declare Scope method_scope.
Delimit Scope method_scope with method.
Notation "x <- m ;; k" := (Method.bind m (fun x => k))
  (at level 62, m at next level, right associativity, only parsing) : method_scope.

(** *** [class CumulativeTFR] *)

Module CumulativeTFR.
Import Method.
Section TFR.
Context {D : Type} `{DoubleOps D} `{DoubleSqrt D}.
Local Open Scope double_scope.
Local Open Scope method_scope.

(** The members the three public methods write, and those they read from
    the accumulators.  The constant members from which [addTrial] finds its
    times of interest ([Fs], [nfft], [windowLen], [stepLen], [trimTime]) are
    the record [Transformed.timing] below; the frequency range, which only
    [generateWavelet] reads, and [segmentLen] are left out. *)
Record t : Type := mk {
  nFreqs : Z;
  nTimes : Z;
  (* # channels x # frequencies x # times *)
  spectrumBuffer : list (list (list (Complex.t D)));
  waveletArray : list (list (Complex.t D));
  alpha : D;
  (* # channel combinations x # frequencies x # times *)
  pxys : list (list (list (ComplexWeightedAccum.t D)));
  (* # channels x # frequencies x # times *)
  powBuffer : list (list (list (RealWeightedAccum.t D)))
}.

Definition set_spectrumBuffer (v : list (list (list (Complex.t D)))) (st : t) : t :=
  mk (nFreqs st) (nTimes st) v (waveletArray st) (alpha st) (pxys st) (powBuffer st).
Definition set_pxys (v : list (list (list (ComplexWeightedAccum.t D)))) (st : t) : t :=
  mk (nFreqs st) (nTimes st) (spectrumBuffer st) (waveletArray st) (alpha st) v
     (powBuffer st).
Definition set_powBuffer (v : list (list (list (RealWeightedAccum.t D)))) (st : t) : t :=
  mk (nFreqs st) (nTimes st) (spectrumBuffer st) (waveletArray st) (alpha st) (pxys st) v.

(** [v[i][j][k]] *)
Definition at3 {A : Type} (v : list (list (list A))) (i j k : nat) : option A :=
  match v !! i with
  | Some m =>
      match m !! j with
      | Some r => r !! k
      | None => None
      end
  | None => None
  end.

(** [v[i][j][k] = f(v[i][j][k])] *)
Definition alter3 {A : Type} (f : A -> A) (i j k : nat) (v : list (list (list A)))
  : list (list (list A)) :=
  alter (alter (alter f k) j) i v.

(** [std::vector<...>(n, ...)] nested three times (a negative size makes the
    constructor throw; here it gives no element). *)
Definition cube {A : Type} (n1 n2 n3 : Z) (x : A) : list (list (list A)) :=
  replicate (Z.to_nat n1) (replicate (Z.to_nat n2) (replicate (Z.to_nat n3) x)).

(** The constructor; [wavelets] is what [generateWavelet] leaves in
    [waveletArray]. *)
Definition construct (ng1 ng2 nf nt : Z) (a : D) (wavelets : list (list (Complex.t D)))
  : t :=
  mk nf nt
     (cube (ng1 + ng2) nf nt Complex.zero)
     wavelets
     a
     (cube (ng1 * ng2) nf nt (ComplexWeightedAccum.make a))
     (cube (ng1 + ng2) nf nt (RealWeightedAccum.make a)).

(** [double singleCoherence(double pxx, double pyy, std::complex<double> pxy)] *)
Definition singleCoherence (pxx pyy : D) (pxy : Complex.t D) : D :=
  Complex.norm pxy / (pxx * pyy).

(** [spectrumBuffer[i][f][t] = x] and [powBuffer[i][f][t].addValue(p)],
    [pxys[i][f][t].addValue(x)] *)
Definition store_spectrum (i f k : nat) (x : Complex.t D) : M t unit :=
  write (fun st =>
    match at3 (spectrumBuffer st) i f k with
    | Some _ => Some (set_spectrumBuffer (alter3 (fun _ => x) i f k (spectrumBuffer st)) st)
    | None => None
    end).

Definition add_power (i f k : nat) (p : D) : M t unit :=
  write (fun st =>
    match at3 (powBuffer st) i f k with
    | Some _ =>
        Some (set_powBuffer (alter3 (RealWeightedAccum.addValue p) i f k (powBuffer st)) st)
    | None => None
    end).

Definition add_cross (i f k : nat) (x : Complex.t D) : M t unit :=
  write (fun st =>
    match at3 (pxys st) i f k with
    | Some _ =>
        Some (set_pxys (alter3 (ComplexWeightedAccum.addValue x) i f k (pxys st)) st)
    | None => None
    end).

(** [addTrial], on the samples: [conv f k] is the value of [complex] in the
    loop over the times of interest, for frequency [f] and time [k] (the
    sample of the inverse transform, scaled).  How that sample is read from
    [ifftBuffer] is in [Transformed.addTrial] below. *)
Definition addTrial (conv : nat -> nat -> Complex.t D) (chanIt : nat) : M t unit :=
  nf <- read (fun st => Some (nFreqs st)) ;;
  nt <- read (fun st => Some (nTimes st)) ;;
  for_loop 0 (Z.to_nat nf) (fun freq _ =>
    for_loop 0 (Z.to_nat nt) (fun k _ =>
      let complex := conv freq k in
      _ <- store_spectrum chanIt freq k complex ;;
      let power := Complex.norm complex in
      add_power chanIt freq k power) tt) tt.

(** [void getMeanCoherence(int itX, int itY, double* meanDest, int comb)]:
    the result is [meanDest] and the local [stdDest] as the method leaves
    them.  The [int] indices are naturals here: a negative one is out of
    range as one that is too large is. *)
Definition getMeanCoherence (itX itY : nat) (meanDest : list D) (comb : nat)
  : M t (list D * list D) :=
  nf <- read (fun st => Some (nFreqs st)) ;;
  nt <- read (fun st => Some (nTimes st)) ;;
  (* Cross spectra *)
  _ <- for_loop 0 (Z.to_nat nf) (fun f _ =>
         for_loop 0 (Z.to_nat nt) (fun k _ =>
           x <- read (fun st => at3 (spectrumBuffer st) itX f k) ;;
           y <- read (fun st => at3 (spectrumBuffer st) itY f k) ;;
           let crss := Complex.mul x (Complex.conj y) in
           add_cross comb f k crss) tt) tt ;;
  (* Coherence *)
  for_loop 0 (Z.to_nat nf) (fun f '(meanDest, stdDest) =>
    coh <- for_loop 0 (Z.to_nat nt) (fun k coh =>
             px <- read (fun st => at3 (powBuffer st) itX f k) ;;
             py <- read (fun st => at3 (powBuffer st) itY f k) ;;
             pxy <- read (fun st => at3 (pxys st) comb f k) ;;
             ret (RealAccum.addValue
                    (singleCoherence (RealWeightedAccum.getAverage px)
                       (RealWeightedAccum.getAverage py)
                       (ComplexWeightedAccum.getAverage pxy)) coh))
             RealAccum.make ;;
    _ <- check (meanDest !! f) ;;
    let meanDest := <[f := RealAccum.getAverage coh]> meanDest in
    let stdDest :=
      if nt <? 2 then <[f := of_int 0]> stdDest
      else <[f := dsqrt (RealAccum.getVariance coh * of_int nt / of_int (nt - 1))]> stdDest in
    ret (meanDest, stdDest))
    (meanDest, replicate (Z.to_nat nf) (of_int 0)).

(** [std::vector<std::vector<float>> getPowerForChannels()].  The local
    [Totalpower[chn][frq][pr]] is read once, while it holds its initial 0, and
    written once. *)
Definition getPowerForChannels {F : Type} `{SingleOps D F} : M t (list (list F)) :=
  channels <- read (fun st => Some (length (powBuffer st))) ;;
  Frequency <- read (fun st => length <$> powBuffer st !! 0%nat) ;;
  Time <- read (fun st =>
            match powBuffer st !! 0%nat with
            | Some m => length <$> m !! 0%nat
            | None => None
            end) ;;
  for_loop 0 channels (fun chn PwrIndFreqAvg =>
    for_loop 0 Frequency (fun frq PwrIndFreqAvg =>
      avg <- for_loop 0 Time (fun pr avg =>
               p <- read (fun st => at3 (powBuffer st) chn frq pr) ;;
               let total := fadd (f_of_int 0) (to_float (RealWeightedAccum.getAverage p)) in
               ret (fadd avg total)) (f_of_int 0) ;;
      ret (alter (fun row => <[frq := fdiv avg (f_of_int (Z.of_nat Time))]> row) chn
             PwrIndFreqAvg))
      PwrIndFreqAvg)
    (replicate channels (replicate Frequency (f_of_int 0))).

End TFR.
Arguments t : clear implicits.
End CumulativeTFR.

(** *** [addTrial], with the read of the times of interest

    [addTrial] runs the forward transform on its segment and then, for each
    frequency, multiplies by the wavelet into [ifftBuffer], runs the inverse
    transform there and reads from it one sample for each time of interest.
    The transforms and the arrays they work on ([FFTWArrayType]) belong to a
    library that is not among the sources: the forward transform, the product
    loop and the inverse transform are not run here, and what they leave in
    [ifftBuffer] for frequency [freq] is given, as [ifft freq].  The index of
    the sample, the read and the scaling are those of the code, in [float]
    and [double]. *)

Module Transformed.
Import Method.
Local Open Scope method_scope.

(** The members [addTrial] reads besides the buffers.  The constructor sets
    them and no method assigns them. *)
Record timing : Type := mkTiming {
  Fs : Z;                   (* const int *)
  nfft : Z;                 (* const int *)
  windowLen : spec_float;   (* float *)
  stepLen : spec_float;     (* float *)
  trimTime : Z              (* int *)
}.

(** The constructor: [Fs(Fs)], [stepLen(stepLen)], [nfft(int(fftSec * Fs))],
    [windowLen(winLen)] and, in its body, [trimTime = windowLen / 2]. *)
Definition construct (Fs : Z) (winLen stepLen : spec_float) (fftSec : float)
  : option timing :=
  match sf_to_int (Prim2SF (PrimFloat.mul fftSec (float_of_int Fs))),
        sf_to_int (Single.div winLen (Single.of_int 2)) with
  | Some nfft, Some trimTime => Some (mkTiming Fs nfft winLen stepLen trimTime)
  | _, _ => None
  end.

(** [int tIndex = int(((t * stepLen) + trimTime) * Fs)]: the [int]s convert
    to [float], in which the product, the sum and the product are taken. *)
Definition tIndex (g : timing) (t : nat) : option Z :=
  sf_to_int
    (Single.mul
       (Single.add (Single.mul (Single.of_int (Z.of_nat t)) (stepLen g))
                   (Single.of_int (trimTime g)))
       (Single.of_int (Fs g))).

(** [sqrt(2.0 / nWindow) / double(nfft)], with [float nWindow = Fs * windowLen] *)
Definition normalisation (g : timing) : float :=
  let nWindow := Single.mul (Single.of_int (Fs g)) (windowLen g) in
  PrimFloat.div (PrimFloat.sqrt (PrimFloat.div 2%float (Single.to_double nWindow)))
                (float_of_int (nfft g)).

(** [complex *= x] for a [double] [x]: both parts are multiplied. *)
Definition scaled (z : Complex.t float) (x : float) : Complex.t float :=
  Complex.mk (PrimFloat.mul (Complex.re z) x) (PrimFloat.mul (Complex.im z) x).

(** [buffer.getAsComplex(i)]: the constructor makes [ifftBuffer] an array of
    [nfft] entries; an index outside the array is out of range. *)
Definition getAsComplex (buffer : list (Complex.t float)) (i : Z)
  : option (Complex.t float) :=
  if i <? 0 then None else buffer !! Z.to_nat i.

(** [void addTrial(FFTWArrayType& fftBuffer, int chanIt)] from the inverse
    transforms on: the loop over the frequencies with, in it, the loop over
    the times of interest.  The local [winsPerSegment], which is never used,
    is left out. *)
Definition addTrial (g : timing) (ifft : nat -> list (Complex.t float)) (chanIt : nat)
  : M (CumulativeTFR.t float) unit :=
  nf <- read (fun st => Some (CumulativeTFR.nFreqs st)) ;;
  nt <- read (fun st => Some (CumulativeTFR.nTimes st)) ;;
  for_loop 0 (Z.to_nat nf) (fun freq _ =>
    (* Loop over time of interest *)
    for_loop 0 (Z.to_nat nt) (fun t _ =>
      tIndex <- check (tIndex g t) ;;
      complex <- check (getAsComplex (ifft freq) tIndex) ;;
      let complex := scaled complex (normalisation g) in
      (* Save convOutput for crss later *)
      _ <- CumulativeTFR.store_spectrum chanIt freq t complex ;;
      (* Get power *)
      let power := Complex.norm complex in
      CumulativeTFR.add_power chanIt freq t power) tt) tt.

(** The sample [addTrial] takes for frequency [freq] and time [t], where the
    read is inside the buffer. *)
Definition sample (g : timing) (ifft : nat -> list (Complex.t float)) (freq t : nat)
  : Complex.t float :=
  match tIndex g t with
  | Some i =>
      match getAsComplex (ifft freq) i with
      | Some z => scaled z (normalisation g)
      | None => Complex.zero
      end
  | None => Complex.zero
  end.

(** The times of interest [t < nt] have their index inside an array of [n]
    entries. *)
Definition times_within (g : timing) (nt : nat) (n : Z) : bool :=
  forallb (fun t => match tIndex g t with
                    | Some i => (0 <=? i) && (i <? n)
                    | None => false
                    end)
          (seq 0 nt).

End Transformed.

(** *** The estimator in the words of the specification

    What [getMeanCoherence] and [getPowerForChannels] are specified to
    compute, as closed expressions over the state; a sample that is out of
    range reads as zero. *)

Module Estimator.
Import CumulativeTFR.
Section Estimator.
Context {D : Type} `{DoubleOps D} `{DoubleSqrt D}.
Local Open Scope double_scope.

(** The product of the spectrum sample of [itX] with the conjugate of that of
    [itY]. *)
Definition cross_product (st : CumulativeTFR.t D) (itX itY f k : nat) : Complex.t D :=
  Complex.mul (default Complex.zero (at3 (spectrumBuffer st) itX f k))
              (Complex.conj (default Complex.zero (at3 (spectrumBuffer st) itY f k))).

(** Every accumulator of the pair [comb] has received its product. *)
Definition cross_accumulated (st : CumulativeTFR.t D) (itX itY comb : nat)
  : list (list (list (ComplexWeightedAccum.t D))) :=
  alter (imap (fun f row =>
                 imap (fun k acc =>
                         ComplexWeightedAccum.addValue (cross_product st itX itY f k) acc)
                      row))
        comb (pxys st).

(** E[Pxx] of a channel and E[Pxy] of a pair, at a frequency and a time. *)
Definition mean_power (st : CumulativeTFR.t D) (i f k : nat) : D :=
  default (of_int 0) (RealWeightedAccum.getAverage <$> at3 (powBuffer st) i f k).

Definition mean_cross (st : CumulativeTFR.t D) (comb f k : nat) : Complex.t D :=
  default Complex.zero (ComplexWeightedAccum.getAverage <$> at3 (pxys st) comb f k).

(** |E[Pxy]|^2 / (E[Pxx] * E[Pyy]) *)
Definition coherence (st : CumulativeTFR.t D) (itX itY comb f k : nat) : D :=
  Complex.norm (mean_cross st comb f k) / (mean_power st itX f k * mean_power st itY f k).

(** The coherence of a frequency at the time-bins 0 .. nTimes-1. *)
Definition coherences (st : CumulativeTFR.t D) (itX itY comb f : nat) : list D :=
  List.map (coherence st itX itY comb f) (seq 0 (Z.to_nat (nTimes st))).

(** Sum, mean and variance of a list of values. *)
Definition total (cs : list D) : D := fold_left dadd cs (of_int 0).

Definition mean (cs : list D) : D :=
  let n := Z.of_nat (length cs) in
  if 0 <? n then total cs / of_int n else of_int 0.

Definition variance (cs : list D) : D :=
  let n := Z.of_nat (length cs) in
  if 0 <? n
  then (total (List.map (fun c => c * c) cs) - total cs * total cs / of_int n) / of_int n
  else of_int 0.

(** The square root of the variance with the Bessel correction, zero below
    two time-bins. *)
Definition corrected_deviation (nt : Z) (cs : list D) : D :=
  if nt <? 2 then of_int 0 else dsqrt (variance cs * of_int nt / of_int (nt - 1)).

(** What [getPowerForChannels] adds up for one channel and frequency (the
    entries of its local [Totalpower]), and their average over [time]
    time-bins. *)
Definition power_entries {F : Type} `{SingleOps D F} (row : list (RealWeightedAccum.t D))
  : list F :=
  List.map (fun p => fadd (f_of_int 0) (to_float (RealWeightedAccum.getAverage p))) row.

Definition power_average {F : Type} `{SingleOps D F} (time : nat)
  (row : list (RealWeightedAccum.t D)) : F :=
  fdiv (fold_left fadd (power_entries row) (f_of_int 0)) (f_of_int (Z.of_nat time)).

End Estimator.
End Estimator.

(** ** The quantities of the claims, on the stored sums and counts

    The claims speak of products that are accumulated and of the averages
    E[.] of the accumulators.  Here these are written on the fields [sum],
    [count] and [alpha] of the accumulators, with no call of their methods,
    for the methods of the engine to be compared with. *)

Module Stated.
Section Stated.
Context {D : Type} `{DoubleOps D}.
Local Open Scope double_scope.

(** The sum and the count after [x] has been accumulated with the forgetting
    factor [alpha]: [x + (1 - alpha) * sum], and [1 + (1 - alpha) * count]
    truncated to an integer. *)
Definition weighted_sum (x sum : Complex.t D) (alpha : D) : Complex.t D :=
  Complex.add x (Complex.scale (of_int 1 - alpha) sum).

Definition weighted_count (count : Z) (alpha : D) : Z :=
  to_size_t (of_int 1 + (of_int 1 - alpha) * of_int count).

(** E[Pxx]: the sum divided by the count, and 0 while nothing is counted. *)
Definition average (sum : D) (count : Z) : D :=
  if 0 <? count then sum / of_int count else of_int 0.

(** E[Pxy]: both parts of the sum divided by the count. *)
Definition cross_average (sum : Complex.t D) (count : Z) : Complex.t D :=
  if 0 <? count
  then Complex.mk (Complex.re sum / of_int count) (Complex.im sum / of_int count)
  else Complex.mk (of_int 0) (of_int 0).

(** |E[Pxy]|^2 / (E[Pxx] * E[Pyy]) of the accumulators of two channels and
    of their pair. *)
Definition coherence (px py : RealWeightedAccum.t D) (pxy : ComplexWeightedAccum.t D)
  : D :=
  let e := cross_average (ComplexWeightedAccum.sum pxy) (ComplexWeightedAccum.count pxy) in
  (Complex.re e * Complex.re e + Complex.im e * Complex.im e)
  / (average (RealWeightedAccum.sum px) (RealWeightedAccum.count px)
     * average (RealWeightedAccum.sum py) (RealWeightedAccum.count py)).

(** The mean of [n] values taken in [float]: each value is narrowed to
    [float] and added to a [float] zero, the results are added up from zero
    in their order, and the sum is divided by [n]. *)
Definition float_mean {F : Type} `{SingleOps D F} (n : nat) (xs : list D) : F :=
  fdiv (fold_left fadd (List.map (fun x => fadd (f_of_int 0) (to_float x)) xs)
          (f_of_int 0))
       (f_of_int (Z.of_nat n)).

End Stated.
End Stated.

(** Both parts of a complex number are zeros or NaN. *)
Definition czn (z : Complex.t float) : Prop :=
  zero_or_nan (Complex.re z) = true /\ zero_or_nan (Complex.im z) = true.

(** [imap] on the indices below [j] only: a loop that has done [j] of its
    iterations. *)
Definition imap_upto {A : Type} (j : nat) (g : nat -> A -> A) (l : list A) : list A :=
  imap (fun i a => if (i <? j)%nat then g i a else a) l.

(** A channel [i] that is silent for the pair [comb]: its average power is a
    zero at every frequency and time, its spectrum samples are zero, and the
    cross-spectrum sums of the pair are zeros or NaN.  This is the state of a
    channel that has had no trial yet, whatever the other channel of the pair
    received. *)
Definition silent (st : CumulativeTFR.t float) (i comb : nat) : Prop :=
  (forall f k acc,
      CumulativeTFR.at3 (CumulativeTFR.powBuffer st) i f k = Some acc ->
      is_zero (RealWeightedAccum.getAverage acc) = true)
  /\ (forall f k z,
        CumulativeTFR.at3 (CumulativeTFR.spectrumBuffer st) i f k = Some z ->
        is_zero (Complex.re z) = true /\ is_zero (Complex.im z) = true)
  /\ (forall f k acc,
        CumulativeTFR.at3 (CumulativeTFR.pxys st) comb f k = Some acc ->
        czn (ComplexWeightedAccum.sum acc)).

(** The states of an engine in which channel [i] has had no data yet: from the
    constructor on, the trials were on other channels, and the accumulators
    of the pair [comb] were used for pairs that contain [i] only. *)
Inductive no_data_yet (i comb : nat) : CumulativeTFR.t float -> Prop :=
| nd_fresh (ng1 ng2 nf nt : Z) (a : float) (w : list (list (Complex.t float))) :
    no_data_yet i comb (CumulativeTFR.construct ng1 ng2 nf nt a w)
| nd_trial (st st' : CumulativeTFR.t float) (conv : nat -> nat -> Complex.t float)
    (chanIt : nat) :
    no_data_yet i comb st -> chanIt <> i ->
    CumulativeTFR.addTrial conv chanIt st = Some (tt, st') ->
    no_data_yet i comb st'
| nd_coherence (st st' : CumulativeTFR.t float) (itX itY : nat) (meanDest : list float)
    (c : nat) (r : list float * list float) :
    no_data_yet i comb st -> (c = comb -> i = itX \/ i = itY) ->
    CumulativeTFR.getMeanCoherence itX itY meanDest c st = Some (r, st') ->
    no_data_yet i comb st'.

(** The channel, pair or row [i] of a buffer has [nf] frequencies of [nt]
    times each. *)
Definition matrix_at {A : Type} (v : list (list (list A))) (i nf nt : nat) : Prop :=
  exists m, v !! i = Some m /\ length m = nf /\ Forall (fun r => length r = nt) m.

(** An engine in [double] with one channel in each group, one frequency and
    two time-bins, after one trial on each channel: at every time the sample
    of channel 0 is [x] and that of channel 1 is [y]. *)
Definition two_channels (a : float) (x y : Complex.t float) : CumulativeTFR.t float :=
  let fresh := CumulativeTFR.construct 1 1 1 2 a [] in
  match CumulativeTFR.addTrial (fun _ _ => x) 0 fresh with
  | Some (_, s1) =>
      match CumulativeTFR.addTrial (fun _ _ => y) 1 s1 with
      | Some (_, s2) => s2
      | None => s1
      end
  | None => fresh
  end.

(** Between two accesses of a writer and a reader that hold their pointers on
    a shared object: the pointers are registered, the read pointer is valid
    exactly when the reader has an index, the population invariant holds, the
    writer has an index, and there are three instances. *)
Definition attached {T : Type} (w : AtomicallyShared.ScopedWritePtr)
  (ro : AtomicallyShared.ScopedReadPtr * AtomicallyShared.shared T) : Prop :=
  AtomicallyShared.wvalid w = true
  /\ AtomicSynchronizer.writeValid (AtomicallyShared.wind w) = true
  /\ AtomicSynchronizer.readValid (AtomicallyShared.ind (fst ro)) = true
  /\ AtomicallyShared.valid (fst ro)
     = negb (AtomicSynchronizer.readerIndex (AtomicallyShared.sync (snd ro)) =? -1)
  /\ AtomicSynchronizer.population_ok (AtomicallyShared.sync (snd ro)) = true
  /\ AtomicSynchronizer.writerIndex (AtomicallyShared.sync (snd ro)) <> -1
  /\ length (AtomicallyShared.data (snd ro)) = 3%nat.

(** A trial on channel [chanIt] has been taken at the frequencies and times
    marked by [done]: there the sample is stored and its power added; every
    other entry and every other member is as in [s0]. *)
Definition trial_taken {D : Type} `{DoubleOps D} (conv : nat -> nat -> Complex.t D)
  (chanIt : nat) (done : nat -> nat -> bool) (s0 s : CumulativeTFR.t D) : Prop :=
  s = CumulativeTFR.set_powBuffer (CumulativeTFR.powBuffer s)
        (CumulativeTFR.set_spectrumBuffer (CumulativeTFR.spectrumBuffer s) s0)
  /\ length (CumulativeTFR.spectrumBuffer s) = length (CumulativeTFR.spectrumBuffer s0)
  /\ length (CumulativeTFR.powBuffer s) = length (CumulativeTFR.powBuffer s0)
  /\ (forall c nf nt, matrix_at (CumulativeTFR.spectrumBuffer s0) c nf nt ->
                      matrix_at (CumulativeTFR.spectrumBuffer s) c nf nt)
  /\ (forall c nf nt, matrix_at (CumulativeTFR.powBuffer s0) c nf nt ->
                      matrix_at (CumulativeTFR.powBuffer s) c nf nt)
  /\ (forall c f k,
        CumulativeTFR.at3 (CumulativeTFR.spectrumBuffer s) c f k =
        if (c =? chanIt)%nat && done f k
        then (fun _ => conv f k) <$> CumulativeTFR.at3 (CumulativeTFR.spectrumBuffer s0) c f k
        else CumulativeTFR.at3 (CumulativeTFR.spectrumBuffer s0) c f k)
  /\ (forall c f k,
        CumulativeTFR.at3 (CumulativeTFR.powBuffer s) c f k =
        if (c =? chanIt)%nat && done f k
        then RealWeightedAccum.addValue (Complex.norm (conv f k))
               <$> CumulativeTFR.at3 (CumulativeTFR.powBuffer s0) c f k
        else CumulativeTFR.at3 (CumulativeTFR.powBuffer s0) c f k).

(** A buffer of [n] channels (or pairs), each of [nf] frequencies by [nt]
    times. *)
Definition shaped {A : Type} (n nf nt : nat) (v : list (list (list A))) : Prop :=
  length v = n /\ forall c, (c < n)%nat -> matrix_at v c nf nt.

(** The buffers of an engine for [ng1] and [ng2] channels have the sizes the
    constructor gives them. *)
Definition well_formed {D : Type} `{DoubleOps D} (ng1 ng2 : Z) (st : CumulativeTFR.t D)
  : Prop :=
  let nf := Z.to_nat (CumulativeTFR.nFreqs st) in
  let nt := Z.to_nat (CumulativeTFR.nTimes st) in
  shaped (Z.to_nat (ng1 + ng2)) nf nt (CumulativeTFR.spectrumBuffer st)
  /\ shaped (Z.to_nat (ng1 + ng2)) nf nt (CumulativeTFR.powBuffer st)
  /\ shaped (Z.to_nat (ng1 * ng2)) nf nt (CumulativeTFR.pxys st).

(** The calls of the three public methods of [CumulativeTFR]; a call of
    [addTrial] comes with what the transforms leave in [ifftBuffer]. *)
Inductive request : Type :=
| AddTrial (ifft : nat -> list (Complex.t float)) (chanIt : nat)
| GetMeanCoherence (itX itY : nat) (meanDest : list float) (comb : nat)
| GetPowerForChannels.

Definition serve (g : Transformed.timing) (r : request)
  : Method.M (CumulativeTFR.t float) unit :=
  match r with
  | AddTrial ifft chanIt => Transformed.addTrial g ifft chanIt
  | GetMeanCoherence itX itY meanDest comb =>
      Method.bind (CumulativeTFR.getMeanCoherence itX itY meanDest comb)
        (fun _ => Method.ret tt)
  | GetPowerForChannels =>
      Method.bind (CumulativeTFR.getPowerForChannels (F := spec_float))
        (fun _ => Method.ret tt)
  end.

Fixpoint serve_all (g : Transformed.timing) (rs : list request)
  : Method.M (CumulativeTFR.t float) unit :=
  match rs with
  | [] => Method.ret tt
  | r :: rs' => Method.bind (serve g r) (fun _ => serve_all g rs')
  end.

(** The arguments of a call are indices of the buffers of an engine for [ng1]
    and [ng2] channels and [nf] frequencies, and the inverse transforms have
    [nfft] entries; [getPowerForChannels] reads [powBuffer[0][0]], so it
    needs a channel and a frequency. *)
Definition within (g : Transformed.timing) (ng1 ng2 nf : Z) (r : request) : Prop :=
  match r with
  | AddTrial ifft chanIt =>
      (chanIt < Z.to_nat (ng1 + ng2))%nat
      /\ forall freq, (freq < Z.to_nat nf)%nat ->
                      length (ifft freq) = Z.to_nat (Transformed.nfft g)
  | GetMeanCoherence itX itY meanDest comb =>
      (itX < Z.to_nat (ng1 + ng2))%nat /\ (itY < Z.to_nat (ng1 + ng2))%nat
      /\ (comb < Z.to_nat (ng1 * ng2))%nat /\ (Z.to_nat nf <= length meanDest)%nat
  | GetPowerForChannels => 1 <= ng1 + ng2 /\ 1 <= nf
  end.

(** The values of a list, each multiplied by [1 - a] once for every value that
    follows it, added up. *)
Definition discounted (a : Q) (xs : list Q) : Q :=
  Qsum (imap (fun k x => x * (1 - a) ^ Z.of_nat (length xs - 1 - k))%Q xs).

(** The three accumulators of a pair of channels after the same trials: the
    counts agree, the power sums are not negative, and their product bounds
    the squared magnitude of the cross-spectrum sum. *)
Definition in_step (a : Q) (px py : RealWeightedAccum.t Q) (pxy : ComplexWeightedAccum.t Q)
  : Prop :=
  RealWeightedAccum.alpha px = a /\ RealWeightedAccum.alpha py = a
  /\ ComplexWeightedAccum.alpha pxy = a
  /\ RealWeightedAccum.count py = RealWeightedAccum.count px
  /\ ComplexWeightedAccum.count pxy = RealWeightedAccum.count px
  /\ (0 <= RealWeightedAccum.count px)%Z
  /\ (0 <= RealWeightedAccum.sum px)%Q /\ (0 <= RealWeightedAccum.sum py)%Q
  /\ (Complex.re (ComplexWeightedAccum.sum pxy) * Complex.re (ComplexWeightedAccum.sum pxy)
      + Complex.im (ComplexWeightedAccum.sum pxy) * Complex.im (ComplexWeightedAccum.sum pxy)
      <= RealWeightedAccum.sum px * RealWeightedAccum.sum py)%Q.

(** ** CoherenceNode.cpp: the channel groups and the analysis thread *)

Module CoherenceNode.
Import Method.

(** The members that say which input channel belongs to which group; an
    [Array<int>] is a list. *)
Record t : Type := mk {
  group1Channels : list Z;
  group2Channels : list Z;
  nGroup1Chans : Z;
  nGroup2Chans : Z;
  nGroupCombs : Z
}.

(** [Array<int>::contains] *)
Definition contains (l : list Z) (x : Z) : bool := existsb (fun y => y =? x) l.

(** [std::find(l.begin(), l.end(), chan) - l.begin()]: the first position of
    [chan], the size of the array when there is none. *)
Fixpoint find (l : list Z) (chan : Z) : Z :=
  match l with
  | [] => 0
  | y :: l' => if y =? chan then 0 else 1 + find l' chan
  end.

(** [int getChanGroup(int chan)] *)
Definition getChanGroup (n : t) (chan : Z) : Z :=
  if contains (group1Channels n) chan then 1
  else if contains (group2Channels n) chan then 2
  else -1.

(** [int getGroupIt(int group, int chan)] *)
Definition getGroupIt (n : t) (group chan : Z) : Z :=
  if group =? 1 then find (group1Channels n) chan
  else if group =? 2 then find (group2Channels n) chan
  else -1.

(** [void updateGroup(Array<int> group1Chans, Array<int> group2Chans)] *)
Definition updateGroup (group1Chans group2Chans : list Z) (n : t) : t :=
  let n1 := Z.of_nat (length group1Chans) in
  let n2 := Z.of_nat (length group2Chans) in
  mk group1Chans group2Chans n1 n2 (n1 * n2).

(** The slot of a channel in the data buffer and in the engine, as [process]
    and [run] compute it ([groupIt]); [None] where they skip the channel
    ([groupNum == -1]). *)
Definition groupIt (n : t) (chan : Z) : option Z :=
  let groupNum := getChanGroup n chan in
  if negb (groupNum =? -1) then
    Some (if groupNum =? 1 then getGroupIt n groupNum chan
          else getGroupIt n groupNum chan + nGroup1Chans n)
  else None.

(** The part of [updateSettings] that is about the groups: with inputs, and
    with an empty first group, the lower half of the inputs is added to the
    first group and the rest to the second; then the sizes are set.
    [add_default] is the body of the loop
    [for (int i = 0; i < numInputs; i++)]. *)
Definition add_default (numInputs : Z) (n : t) (i : Z) : t :=
  if i <? Z.quot numInputs 2
  then mk (group1Channels n ++ [i]) (group2Channels n) (nGroup1Chans n) (nGroup2Chans n)
         (nGroupCombs n)
  else mk (group1Channels n) (group2Channels n ++ [i]) (nGroup1Chans n) (nGroup2Chans n)
         (nGroupCombs n).

Definition updateSettings (numInputs : Z) (n : t) : t :=
  if 0 <? numInputs then
    let n' :=
      if Z.of_nat (length (group1Channels n)) =? 0
      then fold_left (add_default numInputs) (Z.of_nat <$> seq 0 (Z.to_nat numInputs)) n
      else n in
    let n1 := Z.of_nat (length (group1Channels n')) in
    let n2 := Z.of_nat (length (group2Channels n')) in
    mk (group1Channels n') (group2Channels n') n1 n2 (n1 * n2)
  else n.

(** The groups in the settings file. *)

(** ["Chan" + String(i)] *)
Definition attribute_name (i : nat) : string := "Chan" +:+ pretty i.

(** The two children of the [COHERENCENODE] element, each an [XmlElement]
    with integer attributes. *)
Record saved : Type := mkSaved {
  Group1 : gmap string Z;
  Group2 : gmap string Z
}.

(** [for (int i = 0; i < group.size(); i++)
       groupNode->setAttribute("Chan" + String(i), group[i]);]
    from position [i] on. *)
Fixpoint set_channels (i : nat) (group : list Z) (node : gmap string Z) : gmap string Z :=
  match group with
  | [] => node
  | c :: group' => set_channels (S i) group' (<[attribute_name i := c]> node)
  end.

(** [void saveCustomParametersToXml(XmlElement* parentElement)] *)
Definition saveCustomParametersToXml (n : t) : saved :=
  mkSaved (set_channels 0 (group1Channels n) ∅) (set_channels 0 (group2Channels n) ∅).

(** [for (int i = 0; i < numActiveInputs; i++)
       { int channel = node->getIntAttribute("Chan" + String(i), -1);
         if (channel != -1) group.add(channel); else break; }]
    from position [i] on, with [fuel] iterations to go. *)
Fixpoint load_channels (node : gmap string Z) (i fuel : nat) (group : list Z) : list Z :=
  match fuel with
  | O => group
  | S fuel' =>
      let channel := default (-1) (node !! attribute_name i) in
      if negb (channel =? -1) then load_channels node (S i) fuel' (group ++ [channel])
      else group
  end.

(** The part of [loadCustomParametersFromXml] that sets the groups, for the
    element [saveCustomParametersToXml] writes; the sizes are not assigned. *)
Definition loadCustomParametersFromXml (numActiveInputs : nat) (x : saved) (n : t) : t :=
  mk (load_channels (Group1 x) 0 numActiveInputs [])
     (load_channels (Group2 x) 0 numActiveInputs [])
     (nGroup1Chans n) (nGroup2Chans n) (nGroupCombs n).

Section Run.
Context {D : Type} `{DoubleOps D} `{DoubleSqrt D}.
Local Open Scope method_scope.

(** [void updateMeanCoherenceSize()]: the members [nGroupCombs] and [nFreqs]
    it reads are its arguments; [std::vector::resize] is [resize] (a new row
    is empty, a new entry is [0.0]; a negative size makes it throw, here it
    is size 0); the answer of [map] is dropped. *)
Definition updateMeanCoherenceSize (nGroupCombs nFreqs : Z)
  (meanCoherence : AtomicallyShared.shared (list (list D)))
  : AtomicallyShared.shared (list (list D)) :=
  snd (AtomicallyShared.map
         (fun vec =>
            (* Update meanCoherence size to new num combinations *)
            let vec := resize (Z.to_nat nGroupCombs) [] vec in
            (* Update meanCoherence to new num freq at each existing combination *)
            fold_left (fun vec comb => alter (resize (Z.to_nat nFreqs) (of_int 0)) comb vec)
              (seq 0 (Z.to_nat nGroupCombs)) vec)
         meanCoherence).

(** The body of the loop of [run()] in the coherence mode ([WhatisIT == 1]),
    after [dataReader.pullUpdate()]; the lines written to the recording file
    are left out.  It has two loops, [addTrials] below and this one, which
    comes second: the coherence of each combination is computed into the
    writer's instance of [meanCoherence]; [wc] is that instance with the
    counter [comb]; [coherenceWriter->at(comb)] is checked. *)
Definition calcCoherence (n : t) (coherenceWriter : list (list D))
  : M (CumulativeTFR.t D) (list (list D)) :=
  r <- for_loop 0 (Z.to_nat (nGroup1Chans n)) (fun itX wc =>
         for_loop 0 (Z.to_nat (nGroup2Chans n)) (fun itY wc =>
           let w := fst wc in
           let comb := snd wc in
           row <- check (w !! comb) ;;
           r <- CumulativeTFR.getMeanCoherence itX (itY + Z.to_nat (nGroup1Chans n))
                  row comb ;;
           ret (<[comb := fst r]> w, S comb)) wc)
         (coherenceWriter, 0%nat) ;;
  ret (fst r).

End Run.

(** The first loop of that body: every active input that is in a group has
    the segment in its slot of the reader's instance of [dataBuffer] sent to
    the engine.  [dataReader] is that instance, an array of segments, and
    [getReference(groupIt)] outside it is out of range; the transforms are
    run in that segment, and [ifft activeChan] is what they leave in
    [ifftBuffer] at the iteration [activeChan]. *)
Definition addTrials {B : Type} (n : t) (g : Transformed.timing) (activeInputs : list Z)
  (dataReader : list B) (ifft : nat -> nat -> list (Complex.t float))
  : M (CumulativeTFR.t float) unit :=
  for_loop 0 (length activeInputs) (fun activeChan _ =>
    chan <- check (activeInputs !! activeChan) ;;
    match groupIt n chan with
    | Some groupIt =>
        _ <- check (if groupIt <? 0 then None else dataReader !! Z.to_nat groupIt) ;;
        Transformed.addTrial g (ifft activeChan) (Z.to_nat groupIt)
    | None => ret tt                      (* jassertfalse: ungrouped channel *)
    end)%method tt.

End CoherenceNode.

(** The accumulators of the pair [c] once its cross-spectra have been added,
    the engine after the first [j] pairs, and the row of mean coherences of
    the pair [c], in the order in which [run()] goes through the pairs: pair
    [c] is channel [c / n2] of the first group with channel [c mod n2] of the
    second, which is channel [c mod n2 + n1] of the engine. *)
Definition pair_cross {D : Type} `{DoubleOps D} (s1 : CumulativeTFR.t D) (n1 n2 c : nat)
  (m : list (list (ComplexWeightedAccum.t D))) : list (list (ComplexWeightedAccum.t D)) :=
  imap (fun f row =>
          imap (fun k acc =>
                  ComplexWeightedAccum.addValue
                    (Estimator.cross_product s1 (c / n2) (c mod n2 + n1) f k) acc)
               row)
       m.

Definition after_pairs {D : Type} `{DoubleOps D} (s1 : CumulativeTFR.t D) (n1 n2 j : nat)
  : CumulativeTFR.t D :=
  CumulativeTFR.set_pxys (imap_upto j (pair_cross s1 n1 n2) (CumulativeTFR.pxys s1)) s1.

Definition pair_row {D : Type} `{DoubleOps D} (s1 : CumulativeTFR.t D) (n1 n2 c : nat)
  (row : list D) : list D :=
  imap (fun f old =>
          if (f <? Z.to_nat (CumulativeTFR.nFreqs s1))%nat
          then Estimator.mean
                 (Estimator.coherences (after_pairs s1 n1 n2 (S c))
                    (c / n2) (c mod n2 + n1) c f)
          else old)
       row.

(** * Properties *)

(** ** The synchronizer, operation by operation *)

Section Synchronizer.
Import AtomicSynchronizer.

Lemma in_vals (i : Z) : -1 <= i <= 2 -> In i Enum.vals.
Proof.
  intros H. unfold Enum.vals. simpl.
  assert (i = -1 \/ i = 0 \/ i = 1 \/ i = 2) as [-> | [-> | [-> | ->]]] by lia; auto.
Qed.

(** A boolean property of the state that holds for the 1024 contents of the
    five indices holds for every state whose indices are in range. *)
Lemma for_all_sound (Q : t -> bool) :
  (forall nw nr, Enum.for_all Q nw nr = true) ->
  forall s, Enum.in_range s -> Q s = true.
Proof.
  intros HQ [rr rw rw2 w r nw nr] Hr.
  unfold Enum.in_range, slots in Hr. simpl in Hr.
  repeat match goal with
         | H : Forall _ (_ :: _) |- _ => apply Forall_cons_1 in H; destruct H
         end.
  specialize (HQ nw nr). unfold Enum.for_all in HQ.
  rewrite forallb_forall in HQ.
  apply (HQ (rr, rw, rw2, w, r)).
  unfold Enum.tuples. repeat apply in_prod; apply in_vals; assumption.
Qed.

Lemma population_ok_in_range (s : t) : population_ok s = true -> Enum.in_range s.
Proof.
  unfold population_ok, Enum.in_range. intros H.
  apply andb_true_iff in H as [_ H]. rewrite forallb_forall in H.
  apply List.Forall_forall. intros i Hi. specialize (H i Hi). lia.
Qed.

Lemma occurrences_count (v : Z) (l : list Z) :
  occurrences v l = count_occ Z.eq_dec l v.
Proof.
  unfold occurrences. induction l as [|a l IH]; simpl; [reflexivity|].
  destruct (Z.eq_dec a v) as [->|Hne].
  - rewrite Z.eqb_refl. simpl. now rewrite IH.
  - apply Z.eqb_neq in Hne. now rewrite Hne.
Qed.

Lemma occurrences_held (v : Z) (l : list Z) :
  v <> -1 -> occurrences v (List.filter (fun i => negb (i =? -1)) l) = occurrences v l.
Proof.
  intros Hv. unfold occurrences. induction l as [|a l IH]; [reflexivity|].
  cbn [List.filter]. destruct (Z.eqb_spec a (-1)) as [->|Ha]; cbn [negb List.filter].
  - destruct (Z.eqb_spec (-1) v); [congruence | exact IH].
  - destruct (Z.eqb_spec a v); cbn [length]; now rewrite IH.
Qed.

(** The computing check decides the population invariant. *)
Lemma population_okP (s : t) : population s <-> population_ok s = true.
Proof.
  unfold population, population_ok, held. split.
  - intros HP.
    assert (Hocc : forall v, v <> -1 ->
              occurrences v (slots s) = count_occ Z.eq_dec [0; 1; 2] v).
    { intros v Hv. rewrite <- (occurrences_held v (slots s) Hv), occurrences_count.
      now apply Permutation_count_occ. }
    apply andb_true_iff. split.
    + simpl. rewrite !Hocc by lia. reflexivity.
    + apply forallb_forall. intros i Hi.
      destruct (Z.eqb_spec i (-1)) as [->|Hne]; [reflexivity|].
      assert (In i [0; 1; 2]) as Hin.
      { eapply Permutation_in; [exact HP|]. apply filter_In. split; [exact Hi|].
        apply negb_true_iff. now apply Z.eqb_neq. }
      simpl in Hin. lia.
  - intros H. apply andb_true_iff in H as [Hc Hr].
    rewrite forallb_forall in Hr.
    apply (Permutation_count_occ Z.eq_dec). intros v.
    rewrite <- occurrences_count.
    assert (Hcases : v = 0 \/ v = 1 \/ v = 2 \/ (v <> 0 /\ v <> 1 /\ v <> 2)) by lia.
    simpl in Hc. rewrite !andb_true_iff in Hc. destruct Hc as (H0 & H1 & H2 & _).
    apply Nat.eqb_eq in H0, H1, H2.
    destruct Hcases as [-> | [-> | [-> | Hv]]];
      try (rewrite occurrences_held by lia; assumption).
    transitivity 0%nat.
    + rewrite occurrences_count. apply count_occ_not_In. intros Hin.
      apply filter_In in Hin as [Hin Hne]. specialize (Hr v Hin).
      apply negb_true_iff, Z.eqb_neq in Hne. lia.
    + symmetry. apply count_occ_not_In. intros [?|[?|[?|[]]]]; lia.
Qed.

(** [pushWrite] and [updateReaderIndex] keep the population, and [pushWrite]
    leaves the writer with an index. *)
Lemma pushWrite_body_ok (s : t) :
  population_ok s = true -> writerIndex s <> -1 ->
  population_ok (pushWrite_body s) = true /\ writerIndex (pushWrite_body s) <> -1.
Proof.
  intros Hp Hw.
  pose (Q := fun s => implb (population_ok s && negb (writerIndex s =? -1))
                        (population_ok (pushWrite_body s)
                         && negb (writerIndex (pushWrite_body s) =? -1))).
  assert (HQ : Q s = true).
  { apply for_all_sound; [intros; vm_compute; reflexivity|].
    now apply population_ok_in_range. }
  unfold Q in HQ. rewrite Hp in HQ. apply Z.eqb_neq in Hw. rewrite Hw in HQ.
  simpl in HQ. apply andb_true_iff in HQ as [H1 H2].
  split; [exact H1|]. now apply Z.eqb_neq, negb_true_iff.
Qed.

Lemma updateReaderIndex_ok (s : t) :
  population_ok s = true ->
  population_ok (updateReaderIndex s) = true
  /\ writerIndex (updateReaderIndex s) = writerIndex s.
Proof.
  intros Hp.
  pose (Q := fun s => implb (population_ok s)
                        (population_ok (updateReaderIndex s)
                         && (writerIndex (updateReaderIndex s) =? writerIndex s))).
  assert (HQ : Q s = true).
  { apply for_all_sound; [intros; vm_compute; reflexivity|].
    now apply population_ok_in_range. }
  unfold Q in HQ. rewrite Hp in HQ. simpl in HQ.
  apply andb_true_iff in HQ as [H1 H2]. split; [exact H1|]. now apply Z.eqb_eq.
Qed.

Lemma construct_pristine (garbage : t) : construct garbage = pristine.
Proof. reflexivity. Qed.

Lemma start_eq (garbage : t) :
  start garbage = (mkWriteIndex true, mkReadIndex true, mk (-1) 0 1 2 (-1) 1 1).
Proof. reflexivity. Qed.

Lemma run_population (hw : ScopedWriteIndex) (hr : ScopedReadIndex) (ops : list op) :
  forall s, population_ok s = true -> writerIndex s <> -1 ->
  exists s', run hw hr ops s = Some s'
             /\ population_ok s' = true /\ writerIndex s' <> -1.
Proof.
  induction ops as [|o ops IH]; intros s Hp Hw; [now exists s|].
  cbn [run]. destruct o; cbn [apply_op].
  - unfold ScopedWriteIndex_pushUpdate. destruct (writeValid hw).
    + destruct (pushWrite_body_ok s Hp Hw) as [Hp' Hw'].
      unfold pushWrite. apply Z.eqb_neq in Hw, Hw'. rewrite Hw, Hw'.
      apply IH; [exact Hp' | now apply Z.eqb_neq].
    + now apply IH.
  - unfold ScopedReadIndex_pullUpdate. destruct (readValid hr).
    + destruct (updateReaderIndex_ok s Hp) as [Hp' Hw']. apply IH; congruence.
    + now apply IH.
Qed.

(** C1: from the reset state, with one writer and one reader registered, every
    sequence of [pushUpdate] and [pullUpdate] runs without a failed assertion
    and leaves the indices held by [writerIndex], [readerIndex],
    [readyToReadIndex], [readyToWriteIndex] and [readyToWriteIndex2] (the ones
    that are not -1) a permutation of 0, 1, 2: each value exactly once. *)
Theorem population_invariant (garbage : t) (ops : list op) :
  let '(hw, hr, s0) := start garbage in
  exists s, run hw hr ops s0 = Some s /\ population s.
Proof.
  rewrite start_eq.
  destruct (run_population (mkWriteIndex true) (mkReadIndex true) ops
              (mk (-1) 0 1 2 (-1) 1 1)) as (s & Hrun & Hp & _);
    [reflexivity | discriminate |].
  exists s. split; [exact Hrun | now apply population_okP].
Qed.

(** C2: called by a valid write handle in a state that satisfies the
    population invariant and in which [writerIndex] is not -1, [pushUpdate]
    passes both assertions; it stores the old [writerIndex] in
    [readyToReadIndex]; the writer continues on the old [readyToReadIndex] if
    that was not -1, else on [readyToWriteIndex] if that is not -1, else on
    [readyToWriteIndex2], which then is not -1; the slot it took from is left
    -1, nothing else changes, and the population invariant still holds. *)
Theorem pushUpdate_post (h : ScopedWriteIndex) (s : t) :
  writeValid h = true -> population s -> writerIndex s <> -1 ->
  exists s',
    ScopedWriteIndex_pushUpdate h s = Some s'
    /\ writerIndex s' <> -1
    /\ population s'
    /\ readyToReadIndex s' = writerIndex s
    /\ readerIndex s' = readerIndex s
    /\ nWriters s' = nWriters s /\ nReaders s' = nReaders s
    /\ (readyToReadIndex s <> -1 ->
        writerIndex s' = readyToReadIndex s
        /\ readyToWriteIndex s' = readyToWriteIndex s
        /\ readyToWriteIndex2 s' = readyToWriteIndex2 s)
    /\ (readyToReadIndex s = -1 -> readyToWriteIndex s <> -1 ->
        writerIndex s' = readyToWriteIndex s
        /\ readyToWriteIndex s' = -1
        /\ readyToWriteIndex2 s' = readyToWriteIndex2 s)
    /\ (readyToReadIndex s = -1 -> readyToWriteIndex s = -1 ->
        readyToWriteIndex2 s <> -1
        /\ writerIndex s' = readyToWriteIndex2 s
        /\ readyToWriteIndex s' = -1
        /\ readyToWriteIndex2 s' = -1).
Proof.
  intros Hv Hp Hw. apply population_okP in Hp.
  destruct (pushWrite_body_ok s Hp Hw) as [Hp' Hw'].
  exists (pushWrite_body s).
  unfold ScopedWriteIndex_pushUpdate, pushWrite. rewrite Hv.
  pose proof Hw as Hwb. pose proof Hw' as Hwb'.
  apply Z.eqb_neq in Hwb, Hwb'. rewrite Hwb, Hwb'.
  split; [reflexivity|]. split; [exact Hw'|]. split; [now apply population_okP|].
  clear Hp Hp' Hwb Hwb' Hv. revert Hw'. unfold pushWrite_body.
  destruct s as [rr rw rw2 w r nw nr]. cbn in *.
  destruct (Z.eqb_spec rr (-1)) as [Hrr|Hrr]; cbn.
  - destruct (Z.eqb_spec rw (-1)) as [Hrw|Hrw]; cbn; intros Hw';
      repeat split; intros; congruence.
  - intros _. repeat split; intros; congruence.
Qed.

Lemma pushUpdate_post_witness :
  exists s', ScopedWriteIndex_pushUpdate (mkWriteIndex true) pristine = Some s'
             /\ writerIndex s' <> -1.
Proof.
  destruct (pushUpdate_post (mkWriteIndex true) pristine) as (s' & H1 & H2 & _).
  - reflexivity.
  - apply population_okP. reflexivity.
  - simpl. lia.
  - exists s'. split; assumption.
Defined.

(** C6: [reset()] answers [true] exactly when neither counter is taken; then
    the state is the pristine one ([readyToReadIndex] = -1,
    [readyToWriteIndex] = 0, [readyToWriteIndex2] = 1, [writerIndex] = 2,
    [readerIndex] = -1, both counters released); when a reader or a writer is
    registered it answers [false] and the state, the five indices included, is
    what it was. *)
Theorem reset_spec (s : t) :
  reset s =
    if (nReaders s =? 0) && (nWriters s =? 0) then (true, pristine) else (false, s).
Proof.
  destruct s as [rr rw rw2 w r nw nr].
  unfold reset, ScopedLockout_ctor, checkoutReader, checkoutWriter,
    compare_exchange_strong. cbn.
  destruct (Z.eqb_spec nr 0) as [->|Hr]; cbn;
    destruct (Z.eqb_spec nw 0) as [->|Hw]; reflexivity.
Qed.

(** Without a push nothing is ever ready to read and the reader has no
    index. *)
Lemma no_push_empty (cs : list call) :
  forallb (fun c => negb (is_push c)) cs = true ->
  forall s, readyToReadIndex s = -1 -> readerIndex s = -1 ->
  exists s', do_calls cs s = Some s'
             /\ readyToReadIndex s' = -1 /\ readerIndex s' = -1.
Proof.
  induction cs as [|c cs IH]; intros Hcs s Hrr Hr; [now exists s|].
  cbn [forallb] in Hcs. apply andb_true_iff in Hcs as [Hc Hcs].
  cbn [do_calls].
  assert (exists s1, do_call c s = Some s1
                     /\ readyToReadIndex s1 = -1 /\ readerIndex s1 = -1)
    as (s1 & -> & Hrr1 & Hr1).
  { destruct s as [rr rw rw2 w r nw nr]. cbn in Hrr, Hr. subst rr r.
    destruct c; try discriminate Hc; cbn [do_call]; eexists; (split; [reflexivity|]).
    - unfold checkoutWriter, compare_exchange_strong. cbn.
      destruct (nw =? 0); cbn; auto.
    - cbn. auto.
    - unfold checkoutReader, compare_exchange_strong. cbn.
      destruct (nr =? 0); cbn; auto.
    - cbn. auto.
    - cbn. auto.
    - unfold reset, ScopedLockout_ctor, checkoutReader, checkoutWriter,
        compare_exchange_strong. cbn.
      destruct (nr =? 0); cbn; destruct (nw =? 0); cbn; auto. }
  now apply IH.
Qed.

End Synchronizer.

Section SharedBuffer.
Import AtomicSynchronizer AtomicallyShared.
Context {T : Type}.

Lemma pullUpdates_empty (n : nat) :
  forall (p : @ScopedReadPtr) (o : shared T),
    valid p = false ->
    readyToReadIndex (sync o) = -1 -> readerIndex (sync o) = -1 ->
    let '(p', o') := pullUpdates n p o in
    valid p' = false /\ readerIndex (sync o') = -1
    /\ readyToReadIndex (sync o') = -1 /\ ScopedReadPtr_deref p' o' = None.
Proof.
  induction n as [|n IH]; intros p o Hv Hrr Hr; cbn [pullUpdates].
  - unfold ScopedReadPtr_deref. rewrite Hv. auto.
  - destruct (ScopedReadPtr_pullUpdate p o) as [p' o'] eqn:E.
    unfold ScopedReadPtr_pullUpdate, ScopedReadIndex_pullUpdate, ScopedReadIndex_int,
      updateReaderIndex in E.
    rewrite Hrr in E. cbn in E.
    destruct (readValid (ind p)); injection E as <- <-; apply IH; cbn;
      try rewrite Hr; auto.
Qed.

(** C7: after any calls on a fresh shared object among which there is no push
    (registrations, releases, pulls and resets, in any order), a
    [ScopedReadPtr] that is constructed is invalid, [readerIndex] is -1, and
    after any number of [pullUpdate] calls on it the pointer is still invalid,
    [readerIndex] is still -1, and dereferencing it aborts. *)
Theorem read_before_write_invalid
  (x : T) (garbage : AtomicSynchronizer.t) (cs : list call) (n : nat) :
  forallb (fun c => negb (is_push c)) cs = true ->
  exists s,
    do_calls cs (sync (construct x garbage)) = Some s
    /\ let '(p, o) := ScopedReadPtr_ctor (mkShared (data (construct x garbage)) s) in
       valid p = false /\ readerIndex (sync o) = -1
       /\ let '(p', o') := pullUpdates n p o in
          valid p' = false /\ readerIndex (sync o') = -1
          /\ ScopedReadPtr_deref p' o' = None.
Proof.
  intros Hcs.
  destruct (no_push_empty cs Hcs (sync (construct x garbage)))
    as (s & Hs & Hrr & Hr); [reflexivity | reflexivity |].
  exists s. split; [exact Hs|].
  destruct (ScopedReadPtr_ctor _) as [p o] eqn:E.
  unfold ScopedReadPtr_ctor, ScopedReadIndex_ctor, checkoutReader,
    compare_exchange_strong, ScopedReadIndex_int, updateReaderIndex in E.
  assert (Hp : valid p = false /\ readerIndex (sync o) = -1
               /\ readyToReadIndex (sync o) = -1).
  { destruct s as [rr rw rw2 w r nw nr]. cbn in Hrr, Hr. subst rr r.
    cbn in E. destruct (nr =? 0); cbn in E; injection E as <- <-; cbn; auto. }
  destruct Hp as (Hv & Hr' & Hrr').
  split; [exact Hv|]. split; [exact Hr'|].
  pose proof (pullUpdates_empty n p o Hv Hrr' Hr') as H.
  destruct (pullUpdates n p o) as [p' o']. tauto.
Qed.

End SharedBuffer.

Lemma read_before_write_invalid_witness :
  exists s,
    AtomicSynchronizer.do_calls
      [AtomicSynchronizer.CheckoutWriter; AtomicSynchronizer.UpdateReaderIndex]
      (AtomicallyShared.sync (AtomicallyShared.construct 7%nat AtomicSynchronizer.pristine))
    = Some s.
Proof.
  destruct (read_before_write_invalid 7%nat AtomicSynchronizer.pristine
              [AtomicSynchronizer.CheckoutWriter; AtomicSynchronizer.UpdateReaderIndex]
              3%nat) as (s & Hs & _).
  - reflexivity.
  - exists s. exact Hs.
Defined.

(** ** The synchronizer, access by access *)

Section Interleaved.
Import AtomicSynchronizer Interleaving.

(** Run without the other thread, the steps of each thread compose to its
    method. *)
Lemma writer_alone_pushWrite (m : t) :
  writer_alone m = option_map idle (pushWrite m).
Proof.
  destruct m as [rr rw rw2 w r nw nr].
  unfold writer_alone, writer_step, pushWrite, pushWrite_body, idle. cbn.
  destruct (w =? -1); [reflexivity|]. cbn.
  destruct (rr =? -1) eqn:Err; cbn; [|rewrite ?Err; reflexivity].
  destruct (rw =? -1) eqn:Erw; cbn; [|rewrite ?Erw; reflexivity].
  destruct (rw2 =? -1) eqn:Erw2; cbn; rewrite ?Erw2; reflexivity.
Qed.

Lemma reader_on_idle (m : t) (wp : wpc) :
  reader_on (mkConf m wp RIdle) = mkConf m wp RIdle.
Proof. reflexivity. Qed.

Lemma reader_alone_updateReaderIndex (m : t) :
  reader_alone m = idle (updateReaderIndex m).
Proof.
  destruct m as [rr rw rw2 w r nw nr].
  unfold reader_alone, idle, updateReaderIndex.
  unfold reader_step at 1. cbn [mem rat wat readyToReadIndex readerIndex].
  destruct (rr =? -1); cbn [negb]; [now rewrite !reader_on_idle|].
  destruct (r =? -1); cbn [negb].
  - unfold reader_on at 3. cbn [rat]. unfold reader_step. cbn.
    rewrite ?reader_on_idle. reflexivity.
  - unfold reader_on at 3. cbn [rat]. unfold reader_step, compare_exchange_strong.
    cbn [mem rat wat readyToWriteIndex readerIndex].
    destruct (rw =? -1); cbn [negb].
    + unfold reader_on at 2. cbn [rat]. unfold reader_step. cbn.
      rewrite ?reader_on_idle. reflexivity.
    + unfold reader_on at 2. cbn [rat]. unfold reader_step. cbn [mem rat wat].
      unfold reader_on. cbn [rat]. unfold reader_step. cbn. reflexivity.
Qed.

Lemma safe_in_range (c : conf) : safe c = true -> Enum.in_range (mem c).
Proof.
  unfold safe. rewrite !andb_true_iff. intros [[[Hp [Hr1 Hr2]] _] _].
  apply population_ok_in_range in Hp.
  destruct c as [[rr rw rw2 w r nw nr] wp rp]. unfold Enum.in_range, slots in *.
  cbn in *.
  repeat match goal with
         | H : Forall _ (_ :: _) |- _ => apply Forall_cons_1 in H; destruct H
         end.
  repeat constructor; try lia; assumption.
Qed.

(** [safe] is kept by every step of either thread, and no assertion fails. *)
Lemma safe_step (th : thread) (c : conf) :
  safe c = true -> exists c', step th c = Some c' /\ safe c' = true.
Proof.
  intros Hs.
  pose (Q := fun th wp rp m =>
               implb (safe (mkConf m wp rp))
                 match step th (mkConf m wp rp) with
                 | Some c' => safe c'
                 | None => false
                 end).
  assert (HQ : Q th (wat c) (rat c) (mem c) = true).
  { apply for_all_sound; [|now apply safe_in_range].
    destruct th, (wat c), (rat c); intros; vm_compute; reflexivity. }
  unfold Q in HQ. destruct c as [m wp rp]. cbn [mem wat rat] in HQ.
  rewrite Hs in HQ. cbn [implb] in HQ.
  destruct (step th _) as [c'|]; [|discriminate]. now exists c'.
Qed.

Lemma safe_exec (sched : list thread) :
  forall c, safe c = true -> exists c', exec sched c = Some c' /\ safe c' = true.
Proof.
  induction sched as [|th sched IH]; intros c Hs; [now exists c|].
  cbn [exec]. destruct (safe_step th c Hs) as (c1 & -> & Hs1). now apply IH.
Qed.

Lemma safe_start (garbage : t) : safe (idle (snd (start garbage))) = true.
Proof. reflexivity. Qed.

(** The writer's first exchange stores an index, never -1. *)
Lemma writer_exchange (c c' : conf) :
  safe c = true -> wat c = WIdle -> step Writer c = Some c' ->
  writerIndex (mem c) <> -1 /\ readyToReadIndex (mem c') = writerIndex (mem c).
Proof.
  intros Hs Hw. unfold safe in Hs. rewrite Hw in Hs.
  rewrite !andb_true_iff in Hs. destruct Hs as [[_ Hne] _].
  cbn [step]. unfold writer_step. rewrite Hw.
  apply negb_true_iff in Hne. rewrite Hne. intros [= <-]. cbn.
  split; [now apply Z.eqb_neq | reflexivity].
Qed.

(** Only the reader's last exchange empties [readyToReadIndex]. *)
Lemma emptied_by_take (th : thread) (c c' : conf) :
  safe c = true -> step th c = Some c' ->
  hasUpdate (mem c) = true -> hasUpdate (mem c') = false ->
  th = Reader /\ rat c = RTake
  /\ readerIndex (mem c') = readyToReadIndex (mem c).
Proof.
  intros Hs Hstep Hu Hu'. unfold hasUpdate in *.
  destruct th; cbn [step] in Hstep.
  - exfalso. unfold writer_step in Hstep.
    destruct (wat c) eqn:Hw.
    + destruct (writer_exchange c c' Hs Hw) as [Hne Heq].
      { cbn [step]. unfold writer_step. now rewrite Hw. }
      rewrite Heq in Hu'. apply Z.eqb_neq in Hne. rewrite Hne in Hu'. discriminate.
    + injection Hstep as <-. cbn in Hu'. rewrite Hu' in Hu. discriminate.
    + destruct (_ =? -1) in Hstep; [discriminate|].
      injection Hstep as <-. cbn in Hu'. rewrite Hu' in Hu. discriminate.
  - injection Hstep as <-. unfold reader_step, compare_exchange_strong in Hu' |- *.
    destruct (rat c) eqn:Hr.
    + rewrite Hu in Hu'. cbn in Hu'. rewrite Hu in Hu'. discriminate.
    + destruct (readyToWriteIndex (mem c) =? -1); cbn in Hu';
        rewrite Hu' in Hu; discriminate.
    + cbn in Hu'. rewrite Hu' in Hu. discriminate.
    + cbn. auto.
Qed.

Lemma ready_kept (sched : list thread) :
  forall c c', safe c = true -> exec sched c = Some c' ->
  hasUpdate (mem c) = true -> takes sched c = O -> hasUpdate (mem c') = true.
Proof.
  induction sched as [|th sched IH]; intros c c' Hs Hex Hu Ht.
  - injection Hex as <-. exact Hu.
  - cbn [exec] in Hex. cbn [takes] in Ht.
    destruct (safe_step th c Hs) as (c1 & Hstep & Hs1).
    rewrite Hstep in Hex, Ht.
    destruct (is_take th c) eqn:Etake; [discriminate|]. cbn in Ht.
    apply (IH c1 c' Hs1 Hex); [|exact Ht].
    destruct (hasUpdate (mem c1)) eqn:Hu1; [reflexivity|].
    destruct (emptied_by_take th c c1 Hs Hstep Hu Hu1) as (-> & Hr & _).
    unfold is_take in Etake. rewrite Hr in Etake. discriminate.
Qed.

(** Between any two accesses the indices held are 0, 1 and 2, once each,
    the reader holding none from the moment it has parked its index until it
    has taken the new one. *)
Lemma population_between_accesses (garbage : t) (sched : list thread) :
  exists c,
    exec sched (idle (snd (start garbage))) = Some c
    /\ population (set_readerIndex (reader_owns c) (mem c)).
Proof.
  destruct (safe_exec sched _ (safe_start garbage)) as (c & Hc & Hs).
  exists c. split; [exact Hc|]. apply population_okP.
  unfold safe in Hs. rewrite !andb_true_iff in Hs. tauto.
Qed.

(** C9: in every interleaving of the atomic accesses of one registered writer
    and one registered reader on a fresh synchronizer, no assertion fails; when
    the writer is about to exchange with [readyToReadIndex] its [writerIndex]
    is not -1, and that is what the exchange stores; once [hasUpdate()] is
    true it stays true along any continuation in which the reader does not
    perform the exchange that takes the index; and a step after which
    [hasUpdate()] has turned false is that exchange of the reader, which
    gives the index to [readerIndex]. *)
Theorem ready_until_taken (garbage : t) (before after : list thread) :
  exists c1 c2,
    exec before (idle (snd (start garbage))) = Some c1
    /\ exec after c1 = Some c2
    /\ (hasUpdate (mem c1) = true -> takes after c1 = O -> hasUpdate (mem c2) = true)
    /\ forall th, exists c3,
         step th c2 = Some c3
         /\ (th = Writer -> wat c2 = WIdle ->
             writerIndex (mem c2) <> -1
             /\ readyToReadIndex (mem c3) = writerIndex (mem c2))
         /\ (hasUpdate (mem c2) = true -> hasUpdate (mem c3) = false ->
             th = Reader /\ rat c2 = RTake
             /\ readerIndex (mem c3) = readyToReadIndex (mem c2)).
Proof.
  destruct (safe_exec before _ (safe_start garbage)) as (c1 & H1 & Hs1).
  destruct (safe_exec after c1 Hs1) as (c2 & H2 & Hs2).
  exists c1, c2. split; [exact H1|]. split; [exact H2|]. split.
  - intros Hu Ht. exact (ready_kept after c1 c2 Hs1 H2 Hu Ht).
  - intros th. destruct (safe_step th c2 Hs2) as (c3 & H3 & _).
    exists c3. split; [exact H3|]. split.
    + intros -> Hw. exact (writer_exchange c2 c3 Hs2 Hw H3).
    + intros Hu Hu'. exact (emptied_by_take th c2 c3 Hs2 H3 Hu Hu').
Qed.

End Interleaved.

(** ** Methods: total correctness *)

Section MethodLogic.
Import Method.
Context {St : Type}.

Lemma triple_ret {A : Type} (P : St -> Prop) (a : A) (Q : A -> St -> Prop) :
  (forall s, P s -> Q a s) -> triple P (ret a) Q.
Proof. intros HQ s Hs. exists a, s. split; [reflexivity | now apply HQ]. Qed.

Lemma triple_bind {A B : Type} (P : St -> Prop) (R : A -> St -> Prop)
  (m : M St A) (k : A -> M St B) (Q : B -> St -> Prop) :
  triple P m R -> (forall a, triple (R a) (k a) Q) -> triple P (bind m k) Q.
Proof.
  intros Hm Hk s Hs. destruct (Hm s Hs) as (a & s1 & E & HR).
  destruct (Hk a s1 HR) as (b & s2 & E2 & HQ).
  exists b, s2. unfold bind. rewrite E. split; assumption.
Qed.

Lemma triple_read {A : Type} (P : St -> Prop) (f : St -> option A) (Q : A -> St -> Prop) :
  (forall s, P s -> exists a, f s = Some a /\ Q a s) -> triple P (read f) Q.
Proof.
  intros Hf s Hs. destruct (Hf s Hs) as (a & E & HQ).
  exists a, s. unfold read. rewrite E. split; [reflexivity | exact HQ].
Qed.

Lemma triple_write (P : St -> Prop) (f : St -> option St) (Q : unit -> St -> Prop) :
  (forall s, P s -> exists s', f s = Some s' /\ Q tt s') -> triple P (write f) Q.
Proof.
  intros Hf s Hs. destruct (Hf s Hs) as (s' & E & HQ).
  exists tt, s'. unfold write. rewrite E. split; [reflexivity | exact HQ].
Qed.

Lemma triple_weaken {A : Type} (P P' : St -> Prop) (m : M St A) (Q Q' : A -> St -> Prop) :
  triple P' m Q' -> (forall s, P s -> P' s) -> (forall a s, Q' a s -> Q a s) ->
  triple P m Q.
Proof.
  intros Hm HP HQ s Hs. destruct (Hm s (HP s Hs)) as (a & s' & E & H').
  exists a, s'. split; [exact E | now apply HQ].
Qed.

(** The loop rule: [Inv i a] holds before the iteration of index [i] with the
    locals [a]. *)
Lemma triple_for_loop {A : Type} (Inv : nat -> A -> St -> Prop)
  (n : nat) (body : nat -> A -> M St A) :
  forall (from : nat) (a : A),
  (forall i a, (from <= i < from + n)%nat ->
               triple (Inv i a) (body i a) (Inv (S i))) ->
  triple (Inv from a) (for_loop from n body a) (Inv (from + n)%nat).
Proof.
  induction n as [|n IH]; intros from a Hbody; cbn [for_loop].
  - apply triple_ret. intros s Hs. now rewrite Nat.add_0_r.
  - eapply triple_bind.
    + apply Hbody. lia.
    + intros a'. replace (from + S n)%nat with (S from + n)%nat by lia.
      apply IH. intros i b Hi. apply Hbody. lia.
Qed.

Lemma read_only_ret {A : Type} (a : A) : read_only (ret (St := St) a).
Proof. intros s b s' [= _ <-]. reflexivity. Qed.

Lemma read_only_read {A : Type} (f : St -> option A) : read_only (read f).
Proof.
  intros s a s'. unfold read.
  destruct (f s); [intros [= _ <-] | discriminate]. reflexivity.
Qed.

Lemma read_only_bind {A B : Type} (m : M St A) (k : A -> M St B) :
  read_only m -> (forall a, read_only (k a)) -> read_only (bind m k).
Proof.
  intros Hm Hk s b s'. unfold bind. destruct (m s) as [[a s1]|] eqn:E; [|discriminate].
  intros E2. apply Hm in E. apply Hk in E2. congruence.
Qed.

Lemma read_only_for_loop {A : Type} (n : nat) (body : nat -> A -> M St A) :
  (forall i a, read_only (body i a)) ->
  forall from a, read_only (for_loop from n body a).
Proof.
  intros Hbody. induction n as [|n IH]; intros from a; cbn [for_loop].
  - apply read_only_ret.
  - apply read_only_bind; [apply Hbody | intros a'; apply IH].
Qed.

Lemma partial_ret {A : Type} (P : St -> Prop) (a : A) (Q : A -> St -> Prop) :
  (forall s, P s -> Q a s) -> partial P (ret a) Q.
Proof. intros HQ s b s' Hs [= <- <-]. now apply HQ. Qed.

Lemma partial_bind {A B : Type} (P : St -> Prop) (R : A -> St -> Prop)
  (m : M St A) (k : A -> M St B) (Q : B -> St -> Prop) :
  partial P m R -> (forall a, partial (R a) (k a) Q) -> partial P (bind m k) Q.
Proof.
  intros Hm Hk s b s' Hs. unfold bind.
  destruct (m s) as [[a s1]|] eqn:E; [|discriminate].
  intros E2. exact (Hk a s1 b s' (Hm s a s1 Hs E) E2).
Qed.

Lemma partial_read {A : Type} (P : St -> Prop) (f : St -> option A) (Q : A -> St -> Prop) :
  (forall s a, P s -> f s = Some a -> Q a s) -> partial P (read f) Q.
Proof.
  intros Hf s a s' Hs. unfold read. destruct (f s) as [b|] eqn:E; [|discriminate].
  intros [= <- <-]. now apply (Hf s b).
Qed.

Lemma partial_write (P : St -> Prop) (f : St -> option St) (Q : unit -> St -> Prop) :
  (forall s s', P s -> f s = Some s' -> Q tt s') -> partial P (write f) Q.
Proof.
  intros Hf s a s' Hs. unfold write. destruct (f s) as [s1|] eqn:E; [|discriminate].
  intros [= <- <-]. now apply (Hf s s1).
Qed.

Lemma partial_for_loop {A : Type} (Inv : St -> Prop) (n : nat)
  (body : nat -> A -> M St A) :
  (forall i a, partial Inv (body i a) (fun _ => Inv)) ->
  forall from a, partial Inv (for_loop from n body a) (fun _ => Inv).
Proof.
  intros Hbody. induction n as [|n IH]; intros from a; cbn [for_loop].
  - apply partial_ret. auto.
  - eapply partial_bind; [apply Hbody|]. intros a'. apply IH.
Qed.

(** Two loops whose bodies agree on the indices they go through. *)
Lemma for_loop_ext {A : Type} (n : nat) (body1 body2 : nat -> A -> M St A) :
  forall (from : nat) (a : A) (s : St),
    (forall i a s, (from <= i < from + n)%nat -> body1 i a s = body2 i a s) ->
    for_loop from n body1 a s = for_loop from n body2 a s.
Proof.
  induction n as [|n IH]; intros from a s Hb; [reflexivity|].
  cbn [for_loop]. unfold bind. rewrite Hb by lia.
  destruct (body2 from a s) as [[a1 s1]|]; [|reflexivity].
  apply IH. intros i a' s' Hi. apply Hb. lia.
Qed.

(** In a loop that returns, the body of every iteration has returned. *)
Lemma for_loop_returns {A : Type} (n : nat) (body : nat -> A -> M St A) :
  forall (from : nat) (a : A) (s : St) (r : A * St),
    for_loop from n body a s = Some r ->
    forall i, (from <= i < from + n)%nat -> exists a' s', body i a' s' <> None.
Proof.
  induction n as [|n IH]; intros from a s r E i Hi; [lia|].
  cbn [for_loop] in E. unfold bind in E.
  destruct (body from a s) as [[a1 s1]|] eqn:Eb; [|discriminate].
  destruct (Nat.eq_dec i from) as [-> | Hne].
  - exists a, s. now rewrite Eb.
  - apply (IH (S from) a1 s1 r E). lia.
Qed.

End MethodLogic.

(** ** Lists updated in place *)

Section Buffers.
Context {A : Type}.

Lemma imap_upto_0 (g : nat -> A -> A) (l : list A) : imap_upto 0 g l = l.
Proof.
  apply list_eq. intros i. unfold imap_upto. rewrite list_lookup_imap.
  destruct (l !! i); reflexivity.
Qed.

Lemma imap_upto_S (g : nat -> A -> A) (l : list A) (j : nat) :
  alter (g j) j (imap_upto j g l) = imap_upto (S j) g l.
Proof.
  apply list_eq. intros i. unfold imap_upto.
  destruct (decide (i = j)) as [->|Hne].
  - rewrite list_lookup_alter_eq, !list_lookup_imap.
    destruct (l !! j); cbn [fmap option_fmap option_map]; [|reflexivity].
    rewrite Nat.ltb_irrefl. replace (j <? S j)%nat with true; [reflexivity|].
    symmetry. apply Nat.ltb_lt. lia.
  - rewrite list_lookup_alter_ne by congruence. rewrite !list_lookup_imap.
    destruct (l !! i); cbn [fmap option_fmap option_map]; [|reflexivity].
    replace (i <? S j)%nat with (i <? j)%nat; [reflexivity|].
    destruct (Nat.ltb_spec i j), (Nat.ltb_spec i (S j)); try reflexivity; lia.
Qed.

Lemma imap_upto_all (g : nat -> A -> A) (l : list A) (j : nat) :
  (length l <= j)%nat -> imap_upto j g l = imap g l.
Proof.
  intros Hj. apply list_eq. intros i. unfold imap_upto. rewrite !list_lookup_imap.
  destruct (l !! i) eqn:E; cbn [fmap option_fmap option_map]; [|reflexivity].
  apply lookup_lt_Some in E.
  replace (i <? j)%nat with true; [reflexivity|]. symmetry. apply Nat.ltb_lt. lia.
Qed.

Lemma length_imap_upto (g : nat -> A -> A) (l : list A) (j : nat) :
  length (imap_upto j g l) = length l.
Proof. apply length_imap. Qed.

Lemma insert_imap_upto (g : nat -> A) (l : list A) (j : nat) :
  <[j := g j]> (imap_upto j (fun i _ => g i) l) = imap_upto (S j) (fun i _ => g i) l.
Proof. rewrite list_insert_alter. apply (imap_upto_S (fun i _ => g i)). Qed.

Lemma at3_Some (v : list (list (list A))) (i f k : nat) (x : A) :
  CumulativeTFR.at3 v i f k = Some x <->
  exists m r, v !! i = Some m /\ m !! f = Some r /\ r !! k = Some x.
Proof.
  unfold CumulativeTFR.at3. split.
  - destruct (v !! i) as [m|]; [|discriminate].
    destruct (m !! f) as [r|] eqn:Er; [|discriminate]. intros E. exists m, r. auto.
  - intros (m & r & -> & -> & ->). reflexivity.
Qed.

Lemma matrix_at_lookup (v : list (list (list A))) (i nf nt f k : nat) :
  matrix_at v i nf nt -> (f < nf)%nat -> (k < nt)%nat ->
  exists x, CumulativeTFR.at3 v i f k = Some x.
Proof.
  intros (m & Hm & Hlen & Hrows) Hf Hk.
  destruct (lookup_lt_is_Some_2 m f) as [r Hr]; [lia|].
  assert (length r = nt) as Hlr by (eapply Forall_lookup_1 in Hrows; eauto).
  destruct (lookup_lt_is_Some_2 r k) as [x Hx]; [lia|].
  exists x. apply at3_Some. eauto.
Qed.

Lemma matrix_at_alter (F : list (list A) -> list (list A))
  (v : list (list (list A))) (i j nf nt : nat) :
  (forall m, length m = nf /\ Forall (fun r => length r = nt) m ->
             length (F m) = nf /\ Forall (fun r => length r = nt) (F m)) ->
  matrix_at v i nf nt -> matrix_at (alter F j v) i nf nt.
Proof.
  intros HF (m & Hm & Hshape). unfold matrix_at.
  destruct (decide (j = i)) as [->|Hne].
  - exists (F m). rewrite list_lookup_alter_eq, Hm. split; [reflexivity|].
    now apply HF.
  - exists m. rewrite list_lookup_alter_ne by congruence. auto.
Qed.

Lemma matrix_at_alter3 (h : A -> A) (v : list (list (list A))) (i j f k nf nt : nat) :
  matrix_at v i nf nt -> matrix_at (CumulativeTFR.alter3 h j f k v) i nf nt.
Proof.
  apply matrix_at_alter. intros m [Hlen Hrows]. split.
  - now rewrite length_alter.
  - apply Forall_alter; [exact Hrows|]. intros r _ Hr. now rewrite length_alter.
Qed.

Lemma at3_alter3 (h : A -> A) (v : list (list (list A)))
  (c f k c' f' k' : nat) :
  CumulativeTFR.at3 (CumulativeTFR.alter3 h c f k v) c' f' k'
  = if decide (c = c' /\ f = f' /\ k = k') then h <$> CumulativeTFR.at3 v c' f' k'
    else CumulativeTFR.at3 v c' f' k'.
Proof.
  unfold CumulativeTFR.at3, CumulativeTFR.alter3.
  destruct (decide (c = c')) as [<-|Hc].
  - rewrite list_lookup_alter_eq. destruct (v !! c) as [m|]; [|now case_decide].
    cbn [fmap option_fmap option_map].
    destruct (decide (f = f')) as [<-|Hf].
    + rewrite list_lookup_alter_eq. destruct (m !! f) as [r|]; [|now case_decide].
      cbn [fmap option_fmap option_map].
      destruct (decide (k = k')) as [<-|Hk].
      * rewrite list_lookup_alter_eq. case_decide; [reflexivity | tauto].
      * rewrite list_lookup_alter_ne by exact Hk. case_decide; [tauto | reflexivity].
    + rewrite list_lookup_alter_ne by exact Hf. case_decide; [tauto | reflexivity].
  - rewrite list_lookup_alter_ne by exact Hc. case_decide; [tauto | reflexivity].
Qed.

End Buffers.

(** ** [getMeanCoherence] computes the estimator *)

Section Coherence.
Import Method CumulativeTFR Estimator.
Context {D : Type} `{DoubleOps D} `{DoubleSqrt D}.
Local Open Scope double_scope.

(** The accumulator after a list of values. *)
Lemma RealAccum_fold (cs : list D) :
  forall acc : RealAccum.t D,
    fold_left (fun c v => RealAccum.addValue v c) cs acc =
    RealAccum.mk (RealAccum.count acc + Z.of_nat (length cs))
      (fold_left dadd cs (RealAccum.sum acc))
      (fold_left dadd (List.map (fun c => c * c) cs) (RealAccum.sumSquares acc)).
Proof.
  induction cs as [|c cs IH]; intros acc.
  - destruct acc. cbn. f_equal. lia.
  - cbn [fold_left List.map length]. rewrite IH. cbn. f_equal. lia.
Qed.

Lemma RealAccum_mean (cs : list D) :
  RealAccum.getAverage (fold_left (fun c v => RealAccum.addValue v c) cs RealAccum.make)
  = mean cs.
Proof. rewrite RealAccum_fold. reflexivity. Qed.

Lemma RealAccum_variance (cs : list D) :
  RealAccum.getVariance (fold_left (fun c v => RealAccum.addValue v c) cs RealAccum.make)
  = variance cs.
Proof. rewrite RealAccum_fold. reflexivity. Qed.

Lemma alter3_step {A : Type} (h : A -> A) (F : list A -> list A)
  (c f k : nat) (v : list (list (list A))) :
  alter3 h c f k (alter (alter F f) c v) = alter (alter (fun r => alter h k (F r)) f) c v.
Proof.
  unfold alter3. rewrite list_alter_alter_eq.
  apply list_alter_ext; [|reflexivity]. intros m _. cbn.
  now rewrite list_alter_alter_eq.
Qed.

Lemma set_pxys_id (s : CumulativeTFR.t D) : set_pxys (pxys s) s = s.
Proof. destruct s. reflexivity. Qed.

(** The first pair of loops. *)
Lemma cross_loops (s0 : CumulativeTFR.t D) (itX itY comb nf nt : nat) :
  matrix_at (spectrumBuffer s0) itX nf nt ->
  matrix_at (spectrumBuffer s0) itY nf nt ->
  matrix_at (pxys s0) comb nf nt ->
  triple (fun s => s = s0)
    (for_loop 0 nf (fun f _ =>
       for_loop 0 nt (fun k _ =>
         (x <- read (fun st => at3 (spectrumBuffer st) itX f k) ;;
          y <- read (fun st => at3 (spectrumBuffer st) itY f k) ;;
          add_cross comb f k (Complex.mul x (Complex.conj y)))%method) tt) tt)
    (fun _ s => s = set_pxys (cross_accumulated s0 itX itY comb) s0).
Proof.
  intros HX HY HP.
  set (g := fun f k acc =>
              ComplexWeightedAccum.addValue (cross_product s0 itX itY f k) acc).
  set (G := fun f (row : list (ComplexWeightedAccum.t D)) => imap (g f) row).
  pose (Inv := fun (i : nat) (_ : unit) (s : CumulativeTFR.t D) =>
                 s = set_pxys (alter (imap_upto i G) comb (pxys s0)) s0).
  apply (triple_weaken _ (Inv 0%nat tt) _ _ (Inv (0 + nf)%nat)).
  - apply triple_for_loop. intros i [] Hi.
    set (Pi := alter (imap_upto i G) comb (pxys s0)).
    pose (Inv' := fun (j : nat) (_ : unit) (s : CumulativeTFR.t D) =>
                    s = set_pxys (alter (alter (imap_upto j (g i)) i) comb Pi) s0).
    assert (HPi : matrix_at Pi comb nf nt).
    { unfold Pi. apply matrix_at_alter; [|exact HP]. intros m [Hl Hr]. split.
      - now rewrite length_imap_upto.
      - apply Forall_lookup. intros f r. unfold imap_upto.
        rewrite list_lookup_imap. destruct (m !! f) as [r0|] eqn:E; [|discriminate].
        intros [= <-]. eapply Forall_lookup_1 in Hr; [|exact E].
        destruct (f <? i)%nat; [|exact Hr]. unfold G. now rewrite length_imap. }
    apply (triple_weaken _ (Inv' 0%nat tt) _ _ (Inv' (0 + nt)%nat)).
    + apply triple_for_loop. intros j [] Hj.
      eapply triple_bind.
      { apply triple_read with (Q := fun x s =>
          Inv' j tt s /\ at3 (spectrumBuffer s0) itX i j = Some x).
        intros s ->. destruct (matrix_at_lookup _ _ _ _ i j HX) as [x Hx]; [lia..|].
        exists x. split; [exact Hx|]. split; [reflexivity | exact Hx]. }
      intros x. eapply triple_bind.
      { apply triple_read with (Q := fun y s =>
          Inv' j tt s /\ at3 (spectrumBuffer s0) itX i j = Some x
          /\ at3 (spectrumBuffer s0) itY i j = Some y).
        intros s [-> Hx]. destruct (matrix_at_lookup _ _ _ _ i j HY) as [y Hy]; [lia..|].
        exists y. split; [exact Hy|]. split; [reflexivity|]. split; assumption. }
      intros y. apply triple_write. intros s (-> & Hx & Hy). cbn [pxys set_pxys].
      assert (Hcur : matrix_at (alter (alter (imap_upto j (g i)) i) comb Pi) comb nf nt).
      { apply matrix_at_alter; [|exact HPi]. intros m [Hl Hr]. split.
        - now rewrite length_alter.
        - apply Forall_alter; [exact Hr|]. intros r _ Hlr.
          now rewrite length_imap_upto. }
      destruct (matrix_at_lookup _ _ _ _ i j Hcur) as [a Ha]; [lia..|].
      rewrite Ha. eexists. split; [reflexivity|].
      unfold Inv'. cbn [set_pxys pxys nFreqs nTimes spectrumBuffer waveletArray alpha
                          powBuffer].
      rewrite alter3_step. unfold set_pxys. f_equal.
      apply list_alter_ext; [|reflexivity]. intros m _.
      apply list_alter_ext; [|reflexivity]. intros r _.
      rewrite <- imap_upto_S. unfold g at 2, cross_product. now rewrite Hx, Hy.
    + intros s ->. unfold Inv', Pi.
      rewrite (list_alter_id (alter (imap_upto 0 (g i)) i)).
      * reflexivity.
      * intros m. apply list_alter_id. intros r. apply imap_upto_0.
    + intros [] s ->. unfold Inv, Pi. rewrite list_alter_alter_eq. f_equal.
      apply list_alter_ext; [|reflexivity]. intros m Hm. cbn.
      rewrite <- imap_upto_S. apply list_alter_ext; [|reflexivity].
      intros r Hr. unfold G. apply imap_upto_all.
      unfold imap_upto in Hr. rewrite list_lookup_imap in Hr.
      destruct (m !! i) as [r0|] eqn:E; [|discriminate].
      cbn [fmap option_fmap option_map] in Hr. rewrite Nat.ltb_irrefl in Hr.
      injection Hr as <-.
      destruct HP as (m' & Hm' & _ & Hrows). rewrite Hm in Hm'. injection Hm' as <-.
      eapply Forall_lookup_1 in Hrows; [|exact E]. cbn. lia.
  - intros s ->. unfold Inv.
    rewrite (list_alter_id (imap_upto 0 G)) by apply imap_upto_0.
    symmetry. apply set_pxys_id.
  - intros [] s ->. unfold Inv, cross_accumulated. f_equal.
    apply list_alter_ext; [|reflexivity]. intros m Hm.
    destruct HP as (m' & Hm' & Hl & _). rewrite Hm in Hm'. injection Hm' as <-.
    apply imap_upto_all. cbn. lia.
Qed.


(** The inner loop of the second pair: the accumulator [coh] of a
    frequency. *)
Lemma coherence_loop (s1 : CumulativeTFR.t D) (itX itY comb f nf nt : nat) :
  matrix_at (powBuffer s1) itX nf nt ->
  matrix_at (powBuffer s1) itY nf nt ->
  matrix_at (pxys s1) comb nf nt ->
  (f < nf)%nat ->
  triple (fun s => s = s1)
    (for_loop 0 nt (fun k coh =>
       (px <- read (fun st => at3 (powBuffer st) itX f k) ;;
        py <- read (fun st => at3 (powBuffer st) itY f k) ;;
        pxy <- read (fun st => at3 (pxys st) comb f k) ;;
        ret (RealAccum.addValue
               (singleCoherence (RealWeightedAccum.getAverage px)
                  (RealWeightedAccum.getAverage py)
                  (ComplexWeightedAccum.getAverage pxy)) coh))%method)
       RealAccum.make)
    (fun coh s =>
       s = s1
       /\ coh = fold_left (fun c v => RealAccum.addValue v c)
                  (List.map (coherence s1 itX itY comb f) (seq 0 nt)) RealAccum.make).
Proof.
  intros HX HY HP Hf.
  pose (Inv := fun (j : nat) (coh : RealAccum.t D) (s : CumulativeTFR.t D) =>
                 s = s1
                 /\ coh = fold_left (fun c v => RealAccum.addValue v c)
                            (List.map (coherence s1 itX itY comb f) (seq 0 j))
                            RealAccum.make).
  apply (triple_weaken _ (Inv 0%nat RealAccum.make) _ _ (Inv (0 + nt)%nat)).
  - apply triple_for_loop. intros j coh Hj.
    destruct (matrix_at_lookup _ _ _ _ f j HX) as [px Hpx]; [lia..|].
    destruct (matrix_at_lookup _ _ _ _ f j HY) as [py Hpy]; [lia..|].
    destruct (matrix_at_lookup _ _ _ _ f j HP) as [pxy Hpxy]; [lia..|].
    eapply triple_bind.
    { apply triple_read with (Q := fun a s => Inv j coh s /\ a = px).
      intros s [-> Hc]. exists px. split; [exact Hpx|]. split; [split|]; auto. }
    intros a. eapply triple_bind.
    { apply triple_read with (Q := fun b s => Inv j coh s /\ a = px /\ b = py).
      intros s [[-> Hc] ->]. exists py. split; [exact Hpy|]. split; [split|]; auto. }
    intros b. eapply triple_bind.
    { apply triple_read with
        (Q := fun c s => Inv j coh s /\ a = px /\ b = py /\ c = pxy).
      intros s [[-> Hc] [-> ->]]. exists pxy. split; [exact Hpxy|].
      split; [split|]; auto. }
    intros c. apply triple_ret. intros s ([-> Hc] & -> & -> & ->).
    split; [reflexivity|]. rewrite seq_S, List.map_app, fold_left_app, <- Hc.
    cbn [List.map fold_left plus]. f_equal.
    unfold coherence, mean_power, mean_cross, singleCoherence.
    now rewrite Hpx, Hpy, Hpxy.
  - intros s ->. split; reflexivity.
  - intros coh s HI. exact HI.
Qed.

(** [getMeanCoherence] returns; it leaves the state with the cross-spectra
    accumulated, [meanDest] with the mean coherence of every frequency, and
    [stdDest] with the corrected deviation. *)
Lemma getMeanCoherence_refines (st : CumulativeTFR.t D) (itX itY comb : nat)
  (meanDest : list D) :
  let nf := Z.to_nat (nFreqs st) in
  let nt := Z.to_nat (nTimes st) in
  let st' := set_pxys (cross_accumulated st itX itY comb) st in
  matrix_at (spectrumBuffer st) itX nf nt ->
  matrix_at (spectrumBuffer st) itY nf nt ->
  matrix_at (powBuffer st) itX nf nt ->
  matrix_at (powBuffer st) itY nf nt ->
  matrix_at (pxys st) comb nf nt ->
  (nf <= length meanDest)%nat ->
  getMeanCoherence itX itY meanDest comb st =
    Some (imap (fun f old =>
                  if (f <? nf)%nat then mean (coherences st' itX itY comb f) else old)
               meanDest,
          (fun f => corrected_deviation (nTimes st) (coherences st' itX itY comb f))
            <$> seq 0 nf,
          st').
Proof.
  intros nf nt st' HSX HSY HPX HPY HC Hlen.
  set (mu := fun f => mean (coherences st' itX itY comb f)).
  set (dev := fun f => corrected_deviation (nTimes st) (coherences st' itX itY comb f)).
  assert (HC' : matrix_at (pxys st') comb nf nt).
  { unfold st', cross_accumulated. cbn [pxys set_pxys].
    apply matrix_at_alter; [|exact HC]. intros m [Hl Hr]. split.
    - now rewrite length_imap.
    - apply Forall_lookup. intros f r. rewrite list_lookup_imap.
      destruct (m !! f) as [r0|] eqn:E; [|discriminate]. intros [= <-].
      rewrite length_imap. eapply Forall_lookup_1 in Hr; eauto. }
  assert (Hrun : triple (fun s => s = st) (getMeanCoherence itX itY meanDest comb)
                   (fun r s => s = st'
                               /\ r = (imap_upto nf (fun f _ => mu f) meanDest,
                                       imap_upto nf (fun f _ => dev f)
                                         (replicate nf (of_int 0))))).
  { unfold getMeanCoherence.
    eapply triple_bind.
    { apply triple_read with (Q := fun a s => s = st /\ a = nFreqs st).
      intros s ->. eauto. }
    intros a. eapply triple_bind.
    { apply triple_read with (Q := fun b s => s = st /\ a = nFreqs st /\ b = nTimes st).
      intros s [-> ->]. eauto. }
    intros b.
    apply triple_bind with
      (R := fun (_ : unit) s => s = st' /\ a = nFreqs st /\ b = nTimes st).
    { intros s (-> & -> & ->).
      destruct (cross_loops st itX itY comb nf nt HSX HSY HC st eq_refl)
        as ([] & s' & E & ->).
      exists tt, st'. split; [exact E|]. auto. }
    intros u. cbv beta.
    pose (Inv := fun (i : nat) (loc : list D * list D) (s : CumulativeTFR.t D) =>
                   s = st' /\ a = nFreqs st /\ b = nTimes st
                   /\ loc = (imap_upto i (fun f _ => mu f) meanDest,
                             imap_upto i (fun f _ => dev f) (replicate nf (of_int 0)))).
    eapply triple_weaken with
      (P' := Inv 0%nat (meanDest, replicate (Z.to_nat a) (of_int 0)))
      (Q' := Inv (0 + Z.to_nat a)%nat).
    - apply triple_for_loop. intros f [md sd] Hf.
      apply triple_bind with
        (R := fun coh s => Inv f (md, sd) s /\ RealAccum.getAverage coh = mu f
                           /\ RealAccum.getVariance coh
                              = variance (coherences st' itX itY comb f)).
      { intros s (-> & -> & -> & Hloc).
        destruct (coherence_loop st' itX itY comb f nf nt HPX HPY HC'
                    ltac:(unfold nf; lia) st' eq_refl) as (coh & s' & E & -> & Hcoh).
        exists coh, st'. split; [exact E|]. split; [unfold Inv; auto|].
        rewrite Hcoh. split; [apply RealAccum_mean | apply RealAccum_variance]. }
      intros coh. eapply triple_bind.
      { apply triple_read with
          (Q := fun (_ : D) s => Inv f (md, sd) s /\ RealAccum.getAverage coh = mu f
                         /\ RealAccum.getVariance coh
                            = variance (coherences st' itX itY comb f)).
        intros s ((-> & -> & -> & Hloc) & Hm & Hv).
        injection Hloc as -> ->.
        destruct (lookup_lt_is_Some_2 (imap_upto f (fun f0 _ => mu f0) meanDest) f)
          as [x Hx].
        { rewrite length_imap_upto. unfold nf in Hlen. lia. }
        exists x. split; [exact Hx|]. unfold Inv. auto. }
      intros x0. cbv beta. apply triple_ret.
      intros s ((-> & -> & -> & Hloc) & Hm & Hv). injection Hloc as -> ->.
      unfold Inv. split; [reflexivity|]. split; [reflexivity|]. split; [reflexivity|].
      rewrite Hm, Hv. f_equal.
      + apply (insert_imap_upto mu).
      + replace (if nTimes st <? 2
                 then <[f := of_int 0]> (imap_upto f (fun f0 _ => dev f0)
                                           (replicate nf (of_int 0)))
                 else <[f := dsqrt (variance (coherences st' itX itY comb f)
                                    * of_int (nTimes st) / of_int (nTimes st - 1))]>
                        (imap_upto f (fun f0 _ => dev f0) (replicate nf (of_int 0))))
          with (<[f := dev f]> (imap_upto f (fun f0 _ => dev f0)
                                  (replicate nf (of_int 0)))).
        * apply (insert_imap_upto dev).
        * unfold dev, corrected_deviation. destruct (nTimes st <? 2); reflexivity.
    - intros s (-> & -> & ->). unfold Inv. rewrite !imap_upto_0. auto.
    - intros [md sd] s (-> & -> & -> & Hloc). split; [reflexivity|]. exact Hloc. }
  destruct (Hrun st eq_refl) as (r & s' & E & -> & ->). rewrite E. do 3 f_equal.
  apply list_eq. intros i. unfold imap_upto.
  rewrite list_lookup_imap, list_lookup_fmap.
  destruct (Nat.lt_ge_cases i nf) as [Hi|Hi].
  - rewrite lookup_replicate_2, lookup_seq_lt by lia.
    cbn [fmap option_fmap option_map plus].
    apply Nat.ltb_lt in Hi. now rewrite Hi.
  - rewrite (proj1 (lookup_replicate_None _ _ _)), lookup_seq_ge by lia. reflexivity.
Qed.

End Coherence.

Section CoherenceClaim.
Import Method CumulativeTFR Estimator.
Context {D : Type} `{DoubleOps D} `{DoubleSqrt D}.
Local Open Scope double_scope.

Lemma at3_cross_accumulated (st : CumulativeTFR.t D) (itX itY comb f k : nat) :
  at3 (cross_accumulated st itX itY comb) comb f k =
  ComplexWeightedAccum.addValue (cross_product st itX itY f k) <$> at3 (pxys st) comb f k.
Proof.
  unfold cross_accumulated, at3. rewrite list_lookup_alter_eq.
  destruct (pxys st !! comb) as [m|]; [|reflexivity]. cbn [fmap option_fmap option_map].
  rewrite list_lookup_imap. destruct (m !! f) as [r|]; [|reflexivity].
  cbn [fmap option_fmap option_map]. now rewrite list_lookup_imap.
Qed.

Lemma at3_cross_accumulated_ne (st : CumulativeTFR.t D) (itX itY comb c f k : nat) :
  c <> comb ->
  at3 (cross_accumulated st itX itY comb) c f k = at3 (pxys st) c f k.
Proof.
  intros Hne. unfold cross_accumulated, at3.
  now rewrite list_lookup_alter_ne by congruence.
Qed.

(** The coherence the engine computes at a frequency and a time is the one
    stated on the sums and counts of the three accumulators. *)
Lemma coherence_stated (st : CumulativeTFR.t D) (itX itY comb f k : nat)
  (px py : RealWeightedAccum.t D) (pxy : ComplexWeightedAccum.t D) :
  at3 (powBuffer st) itX f k = Some px ->
  at3 (powBuffer st) itY f k = Some py ->
  at3 (pxys st) comb f k = Some pxy ->
  coherence st itX itY comb f k = Stated.coherence px py pxy.
Proof.
  intros Hx Hy Hxy. unfold coherence, mean_power, mean_cross.
  rewrite Hx, Hy, Hxy. cbn [fmap option_fmap option_map default].
  unfold Stated.coherence, Stated.average, Stated.cross_average, Complex.norm,
    RealWeightedAccum.getAverage, ComplexWeightedAccum.getAverage, Complex.div_real,
    Complex.zero.
  destruct (0 <? ComplexWeightedAccum.count pxy); reflexivity.
Qed.

(** C5: on buffers of [nFreqs] x [nTimes] entries for the two channels and
    the pair, [getMeanCoherence] returns, and
    - every accumulator [pxys[comb][f][t]] has accumulated the product
      [spectrumBuffer[itX][f][t] * conj(spectrumBuffer[itY][f][t])]: its sum
      is that product plus [1 - alpha] times the sum it had, its count is
      [1 + (1 - alpha) * count] truncated, its [alpha] is kept; the
      accumulators of the other pairs and every other member are as before;
    - [meanDest[f]] is the mean of the [nTimes] values
      |E[Pxy]|^2 / (E[Pxx] * E[Pyy]), one for each time-bin [t < nTimes], where
      E[Pxy] is sum / count of [pxys[comb][f][t]] after that update and
      E[Pxx], E[Pyy] are sum / count of [powBuffer[itX][f][t]] and
      [powBuffer[itY][f][t]] (each 0 while the count is 0);
    - the local [stdDest[f]] is 0 when [nTimes < 2] and otherwise the square
      root of [Var * nTimes / (nTimes - 1)], [Var] being the variance of those
      [nTimes] values;
    - the entries of [meanDest] from [nFreqs] on are not written. *)
Theorem getMeanCoherence_spec (st : CumulativeTFR.t D) (itX itY comb : nat)
  (meanDest : list D) :
  let nf := Z.to_nat (nFreqs st) in
  let nt := Z.to_nat (nTimes st) in
  matrix_at (spectrumBuffer st) itX nf nt ->
  matrix_at (spectrumBuffer st) itY nf nt ->
  matrix_at (powBuffer st) itX nf nt ->
  matrix_at (powBuffer st) itY nf nt ->
  matrix_at (pxys st) comb nf nt ->
  (nf <= length meanDest)%nat ->
  exists mean' std' st',
    getMeanCoherence itX itY meanDest comb st = Some (mean', std', st')
    /\ st' = set_pxys (pxys st') st
    /\ (forall f k acc x y,
          at3 (pxys st) comb f k = Some acc ->
          at3 (spectrumBuffer st) itX f k = Some x ->
          at3 (spectrumBuffer st) itY f k = Some y ->
          exists acc',
            at3 (pxys st') comb f k = Some acc'
            /\ ComplexWeightedAccum.sum acc'
               = Stated.weighted_sum (Complex.mul x (Complex.conj y))
                   (ComplexWeightedAccum.sum acc) (ComplexWeightedAccum.alpha acc)
            /\ ComplexWeightedAccum.count acc'
               = Stated.weighted_count (ComplexWeightedAccum.count acc)
                   (ComplexWeightedAccum.alpha acc)
            /\ ComplexWeightedAccum.alpha acc' = ComplexWeightedAccum.alpha acc)
    /\ (forall c f k, c <> comb -> at3 (pxys st') c f k = at3 (pxys st) c f k)
    /\ length mean' = length meanDest
    /\ (forall f, (f < nf)%nat ->
          exists cs,
            length cs = nt
            /\ (forall k, (k < nt)%nat ->
                  exists px py pxy,
                    at3 (powBuffer st) itX f k = Some px
                    /\ at3 (powBuffer st) itY f k = Some py
                    /\ at3 (pxys st') comb f k = Some pxy
                    /\ cs !! k = Some (Stated.coherence px py pxy))
            /\ mean' !! f = Some (mean cs)
            /\ std' !! f =
               Some (if nTimes st <? 2 then of_int 0
                     else dsqrt (variance cs * of_int (nTimes st)
                                 / of_int (nTimes st - 1))))
    /\ (forall f, (nf <= f)%nat -> mean' !! f = meanDest !! f).
Proof.
  intros nf nt HSX HSY HPX HPY HC Hlen.
  pose proof (getMeanCoherence_refines st itX itY comb meanDest
                HSX HSY HPX HPY HC Hlen) as E.
  cbv zeta in E. fold nf in E.
  set (st' := set_pxys (cross_accumulated st itX itY comb) st) in *.
  eexists _, _, st'. split; [exact E|].
  split; [reflexivity|]. split; [|split; [|split; [|split]]].
  - intros f k acc x y Ha Hx Hy. eexists. split.
    + unfold st'. cbn [pxys set_pxys].
      rewrite at3_cross_accumulated, Ha. unfold cross_product. rewrite Hx, Hy.
      reflexivity.
    + split; [reflexivity|]. split; reflexivity.
  - intros c f k Hne. unfold st'. cbn [pxys set_pxys].
    now apply at3_cross_accumulated_ne.
  - apply length_imap.
  - intros f Hf. exists (coherences st' itX itY comb f).
    split; [unfold coherences; now rewrite length_map, length_seq|].
    split; [|split].
    + intros k Hk.
      destruct (matrix_at_lookup _ _ _ _ f k HPX Hf Hk) as [px Hpx].
      destruct (matrix_at_lookup _ _ _ _ f k HPY Hf Hk) as [py Hpy].
      destruct (matrix_at_lookup _ _ _ _ f k HC Hf Hk) as [acc Hacc].
      exists px, py, (ComplexWeightedAccum.addValue (cross_product st itX itY f k) acc).
      assert (Hpxy : at3 (pxys st') comb f k
                     = Some (ComplexWeightedAccum.addValue
                               (cross_product st itX itY f k) acc)).
      { unfold st'. cbn [pxys set_pxys]. now rewrite at3_cross_accumulated, Hacc. }
      split; [exact Hpx|]. split; [exact Hpy|]. split; [exact Hpxy|].
      unfold coherences.
      change (List.map (coherence st' itX itY comb f) (seq 0 (Z.to_nat (nTimes st'))))
        with (coherence st' itX itY comb f <$> seq 0 nt).
      rewrite list_lookup_fmap, lookup_seq_lt by exact Hk.
      cbn [fmap option_fmap option_map]. f_equal.
      now apply coherence_stated.
    + rewrite list_lookup_imap.
      destruct (lookup_lt_is_Some_2 meanDest f) as [x ->]; [lia|].
      cbn [fmap option_fmap option_map]. apply Nat.ltb_lt in Hf. now rewrite Hf.
    + rewrite list_lookup_fmap, lookup_seq_lt by exact Hf. reflexivity.
  - intros f Hf. rewrite list_lookup_imap.
    destruct (meanDest !! f); [|reflexivity]. cbn [fmap option_fmap option_map].
    apply Nat.ltb_ge in Hf. now rewrite Hf.
Qed.

End CoherenceClaim.

Lemma getMeanCoherence_spec_witness :
  let st := two_channels 0%float (Complex.mk 1%float 0%float)
              (Complex.mk 0%float 1%float) in
  matrix_at (CumulativeTFR.spectrumBuffer st) 0 1 2
  /\ matrix_at (CumulativeTFR.pxys st) 0 1 2
  /\ exists std' st',
       CumulativeTFR.getMeanCoherence 0 1 [0%float] 0 st = Some ([1%float], std', st')
       /\ CumulativeTFR.at3 (CumulativeTFR.pxys st') 0 0 0
          = Some (ComplexWeightedAccum.mk (Complex.mk 0%float (-1)%float) 1 0%float).
Proof.
  cbv zeta.
  assert (Hm : forall (A : Type) (v : list (list (list A))) (i : nat) (a b : A),
             v !! i = Some [[a; b]] -> matrix_at v i 1 2).
  { intros A v i a b Hv. exists [[a; b]]. split; [exact Hv|].
    split; [reflexivity | repeat constructor]. }
  split; [eapply Hm; reflexivity|]. split; [eapply Hm; reflexivity|].
  destruct (getMeanCoherence_spec
              (two_channels 0%float (Complex.mk 1%float 0%float)
                 (Complex.mk 0%float 1%float))
              0 1 0 [0%float])
    as (m & sd & st' & E & _ & Hacc & _ & Hlen & Hmean & _);
    try (eapply Hm; reflexivity); [vm_compute; lia|].
  destruct (Hacc 0%nat 0%nat (ComplexWeightedAccum.make 0%float)
              (Complex.mk 1%float 0%float) (Complex.mk 0%float 1%float)
              eq_refl eq_refl eq_refl)
    as ([s c a] & Hacc0 & Hs & Hc & Ha).
  cbn [ComplexWeightedAccum.sum ComplexWeightedAccum.count ComplexWeightedAccum.alpha]
    in Hs, Hc, Ha.
  destruct (Hmean 0%nat) as (cs & Hcs & Hk & Hm0 & _); [vm_compute; lia|].
  destruct (Hk 0%nat) as (px0 & py0 & pxy0 & Hpx0 & Hpy0 & Hpxy0 & Hc0); [vm_compute; lia|].
  destruct (Hk 1%nat) as (px1 & py1 & pxy1 & Hpx1 & Hpy1 & Hpxy1 & Hc1); [vm_compute; lia|].
  destruct (Hacc 0%nat 1%nat (ComplexWeightedAccum.make 0%float)
              (Complex.mk 1%float 0%float) (Complex.mk 0%float 1%float)
              eq_refl eq_refl eq_refl)
    as ([s1 c1 a1] & Hacc1 & Hs1 & Hc1' & Ha1).
  cbn [ComplexWeightedAccum.sum ComplexWeightedAccum.count ComplexWeightedAccum.alpha]
    in Hs1, Hc1', Ha1.
  rewrite Hacc0 in Hpxy0. rewrite Hacc1 in Hpxy1.
  injection Hpxy0 as <-. injection Hpxy1 as <-.
  injection Hpx0 as <-. injection Hpy0 as <-.
  injection Hpx1 as <-. injection Hpy1 as <-.
  subst s c a s1 c1 a1.
  destruct cs as [|v0 [|v1 [|]]]; try discriminate Hcs.
  injection Hc0 as ->. injection Hc1 as ->.
  destruct m as [|m0 [|]]; try discriminate Hlen.
  injection Hm0 as ->.
  exists sd, st'. split; [exact E | exact Hacc0].
Defined.


(** ** [getPowerForChannels] *)

Section Power.
Import Method CumulativeTFR Estimator.
Context {D F : Type} `{DoubleOps D} `{SingleOps D F}.

Lemma getPowerForChannels_read_only : read_only (getPowerForChannels (F := F)).
Proof.
  unfold getPowerForChannels.
  apply read_only_bind; [apply read_only_read|]. intros channels.
  apply read_only_bind; [apply read_only_read|]. intros Frequency.
  apply read_only_bind; [apply read_only_read|]. intros Time.
  apply read_only_for_loop. intros chn tbl.
  apply read_only_for_loop. intros frq tbl'.
  apply read_only_bind.
  - apply read_only_for_loop. intros pr avg.
    apply read_only_bind; [apply read_only_read|]. intros p. apply read_only_ret.
  - intros avg. apply read_only_ret.
Qed.

(** The three nested loops. *)
Lemma getPowerForChannels_refines (st : CumulativeTFR.t D) (nf nt : nat) :
  (1 <= length (powBuffer st))%nat -> (1 <= nf)%nat ->
  (forall chn, (chn < length (powBuffer st))%nat -> matrix_at (powBuffer st) chn nf nt) ->
  getPowerForChannels (F := F) st
  = Some (List.map (List.map (power_average nt)) (powBuffer st), st).
Proof.
  intros Hch Hnf Hshape.
  set (P0 := powBuffer st).
  set (G := fun (c : nat) (_ : list F) =>
              List.map (power_average nt) (default [] (P0 !! c))).
  set (tbl0 := replicate (length P0) (replicate nf (f_of_int 0))).
  assert (Hrun : triple (fun s => s = st) (getPowerForChannels (F := F))
                   (fun r s => s = st /\ r = imap_upto (length P0) G tbl0)).
  { unfold getPowerForChannels.
    eapply triple_bind.
    { apply triple_read with (Q := fun a s => s = st /\ a = length P0).
      intros s ->. eauto. }
    intros channels. eapply triple_bind.
    { apply triple_read with
        (Q := fun b s => s = st /\ channels = length P0 /\ b = nf).
      intros s [-> ->]. destruct (Hshape 0%nat) as (m & Hm & Hl & _); [lia|].
      exists nf. rewrite Hm. cbn. rewrite Hl. auto. }
    intros Frequency. eapply triple_bind.
    { apply triple_read with
        (Q := fun c s => s = st /\ channels = length P0 /\ Frequency = nf /\ c = nt).
      intros s (-> & -> & ->). destruct (Hshape 0%nat) as (m & Hm & Hl & Hr); [lia|].
      rewrite Hm. destruct (lookup_lt_is_Some_2 m 0) as [r Hr0]; [lia|].
      rewrite Hr0. eapply Forall_lookup_1 in Hr; [|exact Hr0].
      exists nt. cbn. rewrite Hr. auto. }
    intros Time.
    pose (Inv := fun (i : nat) (tbl : list (list F)) (s : CumulativeTFR.t D) =>
                   s = st /\ channels = length P0 /\ Frequency = nf /\ Time = nt
                   /\ tbl = imap_upto i G tbl0).
    eapply triple_weaken with
      (P' := Inv 0%nat (replicate channels (replicate Frequency (f_of_int 0))))
      (Q' := Inv (0 + channels)%nat).
    - apply triple_for_loop. intros chn tbl Hchn.
      destruct (decide (channels = length P0)) as [Hc|Hc];
        [|intros s (_ & Hc' & _); contradiction].
      destruct (Hshape chn) as (m & Hm & Hl & Hrows); [fold P0; lia|].
      set (g := fun (q : nat) (_ : F) => power_average nt (default [] (m !! q))).
      pose (Inv' := fun (j : nat) (tbl' : list (list F)) (s : CumulativeTFR.t D) =>
                      s = st /\ channels = length P0 /\ Frequency = nf /\ Time = nt
                      /\ tbl = imap_upto chn G tbl0
                      /\ tbl' = alter (imap_upto j g) chn tbl).
      eapply triple_weaken with (P' := Inv' 0%nat tbl) (Q' := Inv' (0 + Frequency)%nat).
      + apply triple_for_loop. intros frq tbl' Hfrq.
        destruct (decide (Frequency = nf)) as [Hfq|Hfq];
          [|intros s (_ & _ & Hfq' & _); contradiction].
        destruct (lookup_lt_is_Some_2 m frq) as [row Hrow]; [lia|].
        assert (Hlrow : length row = nt) by (eapply Forall_lookup_1 in Hrows; eauto).
        pose (Inv'' := fun (j : nat) (avg : F) (s : CumulativeTFR.t D) =>
                         Inv' frq tbl' s
                         /\ avg = fold_left fadd (power_entries (take j row))
                                    (f_of_int 0)).
        apply triple_bind with (R := Inv'' (0 + Time)%nat).
        { eapply triple_weaken with (P' := Inv'' 0%nat (f_of_int 0)) (Q' := Inv'' (0 + Time)%nat).
          - apply triple_for_loop. intros pr avg Hpr.
            destruct (decide (Time = nt)) as [Ht|Ht];
              [|intros s ((_ & _ & _ & Ht' & _) & _); contradiction].
            destruct (lookup_lt_is_Some_2 row pr) as [p Hp]; [lia|].
            eapply triple_bind.
            { apply triple_read with (Q := fun a s => Inv'' pr avg s /\ a = p).
              intros s HI. exists p. split; [|auto].
              destruct HI as ((-> & _) & _). apply at3_Some. exists m, row. auto. }
            intros a. apply triple_ret. intros s [[HI ->] ->]. split; [exact HI|].
            rewrite (take_S_r _ _ _ Hp). unfold power_entries.
            rewrite List.map_app, fold_left_app. reflexivity.
          - intros s HI. split; [exact HI | reflexivity].
          - intros avg s HI. exact HI. }
        intros avg. apply triple_ret.
        intros s [(-> & Hc1 & Hf1 & Ht1 & Htbl & ->) ->].
        unfold Inv'. repeat (split; [assumption || reflexivity|]).
        rewrite list_alter_alter_eq. apply list_alter_ext; [|reflexivity].
        intros r _. cbn. rewrite <- imap_upto_S, list_insert_alter.
        apply list_alter_ext; [|reflexivity]. intros x _. unfold g.
        rewrite Hrow. cbn [default from_option id]. unfold power_average. subst Time.
        rewrite take_ge by lia. reflexivity.
      + intros s (-> & Hc1 & Hf1 & Ht1 & ->). unfold Inv'.
        repeat (split; [assumption || reflexivity|]).
        symmetry. apply list_alter_id. intros r. apply imap_upto_0.
      + intros tbl' s (-> & Hc1 & Hf1 & Ht1 & -> & ->). unfold Inv.
        repeat (split; [assumption || reflexivity|]).
        rewrite <- imap_upto_S. apply list_alter_ext; [|reflexivity].
        intros r Hr. unfold imap_upto in Hr. rewrite list_lookup_imap in Hr.
        unfold tbl0 in Hr. rewrite lookup_replicate_2 in Hr by (fold P0 in Hchn; lia).
        cbn [fmap option_fmap option_map] in Hr. rewrite Nat.ltb_irrefl in Hr.
        injection Hr as <-. unfold G. fold P0 in Hm. rewrite Hm. cbn [default from_option id].
        subst Frequency. rewrite imap_upto_all by (rewrite length_replicate; lia).
        apply list_eq. intros i. rewrite list_lookup_imap, list_lookup_fmap.
        destruct (Nat.lt_ge_cases i nf).
        * rewrite lookup_replicate_2 by lia. unfold g.
          destruct (lookup_lt_is_Some_2 m i) as [row ->]; [lia|]. reflexivity.
        * rewrite (proj1 (lookup_replicate_None _ _ _)) by lia.
          rewrite (lookup_ge_None_2 m) by lia. reflexivity.
    - intros s (-> & -> & -> & ->). unfold Inv. rewrite imap_upto_0. auto.
    - intros tbl s (-> & -> & _ & _ & ->). auto. }
  destruct (Hrun st eq_refl) as (r & s' & E & -> & ->). rewrite E. do 3 f_equal.
  rewrite imap_upto_all by (unfold tbl0; rewrite length_replicate; lia).
  apply list_eq. intros i. rewrite list_lookup_imap, list_lookup_fmap. unfold tbl0, G.
  destruct (Nat.lt_ge_cases i (length P0)).
  - rewrite lookup_replicate_2 by lia.
    destruct (lookup_lt_is_Some_2 P0 i) as [m ->]; [lia|]. reflexivity.
  - rewrite (proj1 (lookup_replicate_None _ _ _)) by lia.
    rewrite (lookup_ge_None_2 P0) by lia. reflexivity.
Qed.

(** C10: in whatever arithmetic [double] and [float] have, on a power buffer
    with at least one channel whose channels all have [nFreqs >= 1]
    frequencies of [nTimes] times, [getPowerForChannels] returns and leaves
    the whole state as it was: the sums and counts of every accumulator, the
    spectrum buffer and the wavelet array.  Its table has one row per channel
    and one entry per frequency, which is the mean taken in [float] of the
    averages sum / count (0 while the count is 0) of the [nTimes]
    accumulators of that channel and frequency, in the order of the times.
    Called twice in a row it gives that table twice. *)
Theorem getPowerForChannels_spec (st : CumulativeTFR.t D) :
  let nf := Z.to_nat (nFreqs st) in
  let nt := Z.to_nat (nTimes st) in
  (1 <= length (powBuffer st))%nat -> (1 <= nf)%nat ->
  (forall chn, (chn < length (powBuffer st))%nat -> matrix_at (powBuffer st) chn nf nt) ->
  exists table,
    getPowerForChannels (F := F) st = Some (table, st)
    /\ length table = length (powBuffer st)
    /\ (forall chn frq m row,
          powBuffer st !! chn = Some m -> m !! frq = Some row ->
          exists tr,
            table !! chn = Some tr /\ length tr = nf
            /\ tr !! frq
               = Some (Stated.float_mean nt
                         (List.map (fun p => Stated.average (RealWeightedAccum.sum p)
                                               (RealWeightedAccum.count p)) row)))
    /\ (r1 <- getPowerForChannels (F := F) ;;
        r2 <- getPowerForChannels (F := F) ;;
        ret (r1, r2))%method st = Some ((table, table), st).
Proof.
  intros nf nt Hch Hnf Hshape.
  pose proof (getPowerForChannels_refines st nf nt Hch Hnf Hshape) as E.
  eexists. split; [exact E|]. split; [apply length_map|]. split.
  - intros chn frq m row Hm Hrow.
    exists (List.map (power_average nt) m).
    split; [|split].
    + change (List.map (List.map (power_average nt)) (powBuffer st))
        with (List.map (power_average nt) <$> powBuffer st).
      now rewrite list_lookup_fmap, Hm.
    + rewrite length_map.
      destruct (Hshape chn) as (m' & Hm' & Hl & _);
        [apply lookup_lt_is_Some; eauto|].
      congruence.
    + change (List.map (power_average nt) m) with (power_average nt <$> m).
      rewrite list_lookup_fmap, Hrow. cbn [fmap option_fmap option_map]. f_equal.
      unfold power_average, power_entries, Stated.float_mean.
      rewrite List.map_map. reflexivity.
  - unfold bind. rewrite E, E. reflexivity.
Qed.

End Power.

Lemma getPowerForChannels_spec_witness :
  let big := RealWeightedAccum.addValue 16777217%float (RealWeightedAccum.make 0%float) in
  let one := RealWeightedAccum.addValue 1%float (RealWeightedAccum.make 0%float) in
  let st := CumulativeTFR.mk 1 2 [] [] 0%float [] [[[big; one]]] in
  RealWeightedAccum.getAverage big = 16777217%float
  /\ RealWeightedAccum.getAverage one = 1%float
  /\ CumulativeTFR.getPowerForChannels (F := spec_float) st
     = Some ([[S754_finite false 8388608 0]], st)
  /\ Single.to_double (S754_finite false 8388608 0) = 8388608%float.
Proof.
  cbv zeta. split; [reflexivity|]. split; [reflexivity|]. split; [|reflexivity].
  set (big := RealWeightedAccum.addValue 16777217%float (RealWeightedAccum.make 0%float)).
  set (one := RealWeightedAccum.addValue 1%float (RealWeightedAccum.make 0%float)).
  set (st := CumulativeTFR.mk 1 2 [] [] 0%float [] [[[big; one]]]).
  destruct (getPowerForChannels_spec (F := spec_float) st) as (table & E & Hl & Hv & _).
  - cbn. lia.
  - cbn. lia.
  - intros chn Hchn. cbn in Hchn. assert (chn = 0%nat) as -> by lia.
    eexists. split; [reflexivity|]. split; [reflexivity | repeat constructor].
  - destruct (Hv 0%nat 0%nat [[big; one]] [big; one] eq_refl eq_refl)
      as (tr & Htr & Hlen & Hfrq).
    destruct table as [|tr0 [|]]; try discriminate Hl.
    injection Htr as ->.
    destruct tr as [|v [|]]; try discriminate Hlen.
    assert (Hmean : Stated.float_mean (F := spec_float) (Z.to_nat (CumulativeTFR.nTimes st))
                      (List.map (fun p => Stated.average (RealWeightedAccum.sum p)
                                            (RealWeightedAccum.count p)) [big; one])
                    = S754_finite false 8388608 0) by (vm_compute; reflexivity).
    rewrite Hmean in Hfrq. cbn [lookup list_lookup] in Hfrq.
    injection Hfrq as ->.
    exact E.
Defined.

(** ** The accumulators in exact arithmetic *)

Section ExactAccumulators.
Local Open Scope Q_scope.

Lemma Qtrunc_inject (q : Q) (z : Z) : q == inject_Z z -> Qtrunc q = z.
Proof.
  unfold Qeq, Qtrunc. destruct q as [n d]. cbn. intros E.
  rewrite Z.mul_1_r in E. subst n. apply Z.quot_mul. discriminate.
Qed.

Lemma Qtrunc_one (q : Q) : 1 <= q -> q < 2 -> Qtrunc q = 1%Z.
Proof.
  unfold Qle, Qlt, Qtrunc. destruct q as [n d]. cbn. intros H1 H2.
  rewrite Z.quot_div_nonneg by lia.
  symmetry. apply (Z.div_unique n (Z.pos d) 1 (n - Z.pos d)); lia.
Qed.

(** With [alpha = 0] an accumulator counts its values and adds them up. *)
Lemma real_plain_sum (xs : list Q) :
  forall acc : RealWeightedAccum.t Q,
    RealWeightedAccum.alpha acc == 0 ->
    let acc' := RealWeightedAccum.addValues xs acc in
    RealWeightedAccum.alpha acc' = RealWeightedAccum.alpha acc
    /\ RealWeightedAccum.count acc'
       = (RealWeightedAccum.count acc + Z.of_nat (length xs))%Z
    /\ RealWeightedAccum.sum acc' == RealWeightedAccum.sum acc + Qsum xs.
Proof.
  induction xs as [|x xs IH]; intros acc Ha; cbn zeta.
  - cbn. split; [reflexivity|]. split; [lia | ring].
  - unfold RealWeightedAccum.addValues in *. cbn [fold_left].
    specialize (IH (RealWeightedAccum.addValue x acc) Ha).
    cbn zeta in IH. destruct IH as (IHa & IHc & IHs).
    split; [exact IHa|]. split.
    + rewrite IHc. cbn [RealWeightedAccum.addValue RealWeightedAccum.count
                          of_int to_size_t dadd dsub dmul QDouble].
      rewrite (Qtrunc_inject _ (1 + RealWeightedAccum.count acc)).
      * cbn [length]. lia.
      * rewrite Ha, inject_Z_plus. ring.
    + rewrite IHs. cbn [RealWeightedAccum.addValue RealWeightedAccum.sum
                          of_int dadd dsub dmul QDouble Qsum fold_right].
      rewrite Ha. fold (Qsum xs). ring.
Qed.

Lemma complex_plain_sum (zs : list (Complex.t Q)) :
  forall acc : ComplexWeightedAccum.t Q,
    ComplexWeightedAccum.alpha acc == 0 ->
    let acc' := ComplexWeightedAccum.addValues zs acc in
    ComplexWeightedAccum.alpha acc' = ComplexWeightedAccum.alpha acc
    /\ ComplexWeightedAccum.count acc'
       = (ComplexWeightedAccum.count acc + Z.of_nat (length zs))%Z
    /\ Complex.re (ComplexWeightedAccum.sum acc')
       == Complex.re (ComplexWeightedAccum.sum acc) + Qsum (List.map Complex.re zs)
    /\ Complex.im (ComplexWeightedAccum.sum acc')
       == Complex.im (ComplexWeightedAccum.sum acc) + Qsum (List.map Complex.im zs).
Proof.
  induction zs as [|z zs IH]; intros acc Ha; cbn zeta.
  - cbn. split; [reflexivity|]. split; [lia|]. split; ring.
  - unfold ComplexWeightedAccum.addValues in *. cbn [fold_left].
    specialize (IH (ComplexWeightedAccum.addValue z acc) Ha).
    cbn zeta in IH. destruct IH as (IHa & IHc & IHr & IHi).
    split; [exact IHa|]. split; [|split].
    + rewrite IHc. cbn [ComplexWeightedAccum.addValue ComplexWeightedAccum.count
                          of_int to_size_t dadd dsub dmul QDouble].
      rewrite (Qtrunc_inject _ (1 + ComplexWeightedAccum.count acc)).
      * cbn [length]. lia.
      * rewrite Ha, inject_Z_plus. ring.
    + rewrite IHr.
      cbn [ComplexWeightedAccum.addValue ComplexWeightedAccum.sum Complex.add
             Complex.scale Complex.mul Complex.of_real Complex.re Complex.im
             of_int dadd dsub dmul QDouble Qsum fold_right List.map].
      rewrite Ha. fold (Qsum (List.map Complex.re zs)). ring.
    + rewrite IHi.
      cbn [ComplexWeightedAccum.addValue ComplexWeightedAccum.sum Complex.add
             Complex.scale Complex.mul Complex.of_real Complex.re Complex.im
             of_int dadd dsub dmul QDouble Qsum fold_right List.map].
      rewrite Ha. fold (Qsum (List.map Complex.im zs)). ring.
Qed.

(** C4: in exact arithmetic, an accumulator constructed with [alpha = 0]
    returns from [getAverage()], after [N >= 1] calls of [addValue], the sum
    of the [N] values divided by [N]; for the complex accumulator this holds
    of the real and of the imaginary part. *)
Theorem plain_average_is_mean (N : nat) (xs : list Q) (zs : list (Complex.t Q)) :
  (1 <= N)%nat -> length xs = N -> length zs = N ->
  RealWeightedAccum.getAverage
    (RealWeightedAccum.addValues xs (RealWeightedAccum.make 0))
  == Qsum xs / inject_Z (Z.of_nat N)
  /\ Complex.re (ComplexWeightedAccum.getAverage
                   (ComplexWeightedAccum.addValues zs (ComplexWeightedAccum.make 0)))
     == Qsum (List.map Complex.re zs) / inject_Z (Z.of_nat N)
  /\ Complex.im (ComplexWeightedAccum.getAverage
                   (ComplexWeightedAccum.addValues zs (ComplexWeightedAccum.make 0)))
     == Qsum (List.map Complex.im zs) / inject_Z (Z.of_nat N).
Proof.
  intros HN Hxs Hzs.
  set (ra := RealWeightedAccum.addValues xs (RealWeightedAccum.make 0)).
  set (ca := ComplexWeightedAccum.addValues zs (ComplexWeightedAccum.make 0)).
  destruct (real_plain_sum xs (RealWeightedAccum.make 0)) as (_ & Hc & Hs);
    [reflexivity|].
  destruct (complex_plain_sum zs (ComplexWeightedAccum.make 0)) as (_ & Hc' & Hr & Hi);
    [reflexivity|].
  fold ra in Hc, Hs. fold ca in Hc', Hr, Hi.
  change (RealWeightedAccum.count ra = (0 + Z.of_nat (length xs))%Z) in Hc.
  change (RealWeightedAccum.sum ra == 0 + Qsum xs) in Hs.
  change (ComplexWeightedAccum.count ca = (0 + Z.of_nat (length zs))%Z) in Hc'.
  change (Complex.re (ComplexWeightedAccum.sum ca)
          == 0 + Qsum (List.map Complex.re zs)) in Hr.
  change (Complex.im (ComplexWeightedAccum.sum ca)
          == 0 + Qsum (List.map Complex.im zs)) in Hi.
  rewrite Hxs in Hc. rewrite Hzs in Hc'.
  unfold RealWeightedAccum.getAverage, ComplexWeightedAccum.getAverage.
  rewrite Hc, Hc'.
  replace (0 <? 0 + Z.of_nat N)%Z with true by (symmetry; apply Z.ltb_lt; lia).
  cbn [Complex.div_real Complex.re Complex.im Z.add].
  change (@ddiv Q QDouble) with Qdiv. change (@of_int Q QDouble) with inject_Z.
  rewrite Hs, Hr, Hi.
  repeat split; apply Qdiv_comp; try reflexivity; ring.
Qed.

Lemma plain_average_is_mean_witness :
  RealWeightedAccum.getAverage
    (RealWeightedAccum.addValues [1; 2; 6] (RealWeightedAccum.make 0))
  == Qsum [1; 2; 6] / inject_Z (Z.of_nat 3).
Proof.
  apply (plain_average_is_mean 3 [1; 2; 6]
           [Complex.mk 1 0; Complex.mk 0 1; Complex.mk 2 2]); [lia | reflexivity..].
Defined.

(** For [0 < alpha < 1] the count, being a [size_t], is 1 after every
    [addValue]: [1 + (1 - alpha) * 1] truncates to 1. *)
Lemma weighted_count_stuck (a : Q) (x : Q) (acc : RealWeightedAccum.t Q) :
  0 < a -> a < 1 -> RealWeightedAccum.alpha acc = a ->
  RealWeightedAccum.count acc = 0%Z \/ RealWeightedAccum.count acc = 1%Z ->
  RealWeightedAccum.count (RealWeightedAccum.addValue x acc) = 1%Z.
Proof.
  intros H0 H1 Ha Hc.
  cbn [RealWeightedAccum.addValue RealWeightedAccum.count of_int to_size_t dadd dsub dmul
         QDouble].
  rewrite Ha. destruct Hc as [-> | ->].
  - apply Qtrunc_inject. ring.
  - assert (E : inject_Z 1 + (inject_Z 1 - a) * inject_Z 1 == 2 - a) by ring.
    apply Qtrunc_one; rewrite E; lra.
Qed.

End ExactAccumulators.

(** ** Zero power in IEEE arithmetic *)

Section IEEE.
Import Method CumulativeTFR Estimator.
Local Open Scope float_scope.

Lemma zero_or_nan_spec (x : float) : zero_or_nan x = sf_zero_or_nan (Prim2SF x).
Proof. unfold zero_or_nan, is_zero, is_nan. destruct (Prim2SF x); reflexivity. Qed.

Lemma is_zero_zero_or_nan (x : float) : is_zero x = true -> zero_or_nan x = true.
Proof. unfold zero_or_nan. now intros ->. Qed.

Ltac by_cases x y :=
  rewrite ?zero_or_nan_spec in *; unfold is_nan, is_zero in *;
  rewrite ?FloatAxioms.mul_spec, ?FloatAxioms.add_spec, ?FloatAxioms.sub_spec,
    ?FloatAxioms.div_spec, ?FloatAxioms.opp_spec;
  destruct (Prim2SF x) as [[|]|[|]| |[|] ? ?]; try discriminate;
  destruct (Prim2SF y) as [[|]|[|]| |[|] ? ?]; try discriminate; reflexivity.

Lemma zn_mul_l (x y : float) : zero_or_nan x = true -> zero_or_nan (x * y) = true.
Proof. intros Hx. by_cases x y. Qed.

Lemma zn_mul_r (x y : float) : zero_or_nan y = true -> zero_or_nan (x * y) = true.
Proof. intros Hy. by_cases y x. Qed.

Lemma zn_add (x y : float) :
  zero_or_nan x = true -> zero_or_nan y = true -> zero_or_nan (x + y) = true.
Proof. intros Hx Hy. by_cases x y. Qed.

Lemma zn_sub (x y : float) :
  zero_or_nan x = true -> zero_or_nan y = true -> zero_or_nan (x - y) = true.
Proof. intros Hx Hy. by_cases x y. Qed.

Lemma zn_div (x y : float) : zero_or_nan x = true -> zero_or_nan (x / y) = true.
Proof. intros Hx. by_cases x y. Qed.

Lemma zn_opp (x : float) : zero_or_nan x = true -> zero_or_nan (- x) = true.
Proof. intros Hx. by_cases x x. Qed.

(** 0/0, 0/NaN, NaN/0 and NaN/NaN are NaN. *)
Lemma nan_div (x y : float) :
  zero_or_nan x = true -> zero_or_nan y = true -> is_nan (x / y) = true.
Proof. intros Hx Hy. by_cases x y. Qed.

Lemma nan_add_l (x y : float) : is_nan x = true -> is_nan (x + y) = true.
Proof. intros Hx. by_cases x y. Qed.

Lemma nan_add_r (x y : float) : is_nan y = true -> is_nan (x + y) = true.
Proof. intros Hy. by_cases y x. Qed.

Lemma nan_div_l (x y : float) : is_nan x = true -> is_nan (x / y) = true.
Proof. intros Hx. by_cases x y. Qed.

Lemma czn_zero : czn Complex.zero.
Proof. split; reflexivity. Qed.

Lemma czn_mul_l (x y : Complex.t float) : czn x -> czn (Complex.mul x y).
Proof.
  intros [Hr Hi]. split; cbn.
  - apply zn_sub; now apply zn_mul_l.
  - apply zn_add; now apply zn_mul_l.
Qed.

Lemma czn_mul_r (x y : Complex.t float) : czn y -> czn (Complex.mul x y).
Proof.
  intros [Hr Hi]. split; cbn.
  - apply zn_sub; now apply zn_mul_r.
  - apply zn_add; now apply zn_mul_r.
Qed.

Lemma czn_conj (y : Complex.t float) : czn y -> czn (Complex.conj y).
Proof. intros [Hr Hi]. split; cbn; [exact Hr | now apply zn_opp]. Qed.

Lemma czn_add (x y : Complex.t float) : czn x -> czn y -> czn (Complex.add x y).
Proof. intros [Hr Hi] [Hr' Hi']. split; cbn; now apply zn_add. Qed.

Lemma czn_div_real (z : Complex.t float) (x : float) :
  czn z -> czn (Complex.div_real z x).
Proof. intros [Hr Hi]. split; cbn; now apply zn_div. Qed.

Lemma zn_norm (z : Complex.t float) : czn z -> zero_or_nan (Complex.norm z) = true.
Proof. intros [Hr Hi]. cbn. apply zn_add; now apply zn_mul_l. Qed.

Lemma czn_getAverage (acc : ComplexWeightedAccum.t float) :
  czn (ComplexWeightedAccum.sum acc) -> czn (ComplexWeightedAccum.getAverage acc).
Proof.
  intros Hs. unfold ComplexWeightedAccum.getAverage.
  destruct (0 <? _)%Z; [now apply czn_div_real | exact czn_zero].
Qed.

Lemma czn_addValue (x : Complex.t float) (acc : ComplexWeightedAccum.t float) :
  czn x -> czn (ComplexWeightedAccum.sum acc) ->
  czn (ComplexWeightedAccum.sum (ComplexWeightedAccum.addValue x acc)).
Proof.
  intros Hx Hs. cbn [ComplexWeightedAccum.addValue ComplexWeightedAccum.sum].
  apply czn_add; [exact Hx|]. unfold Complex.scale. now apply czn_mul_r.
Qed.

(** [singleCoherence] of a zero power and a cross-spectrum of zeros (or
    NaN) is NaN. *)
Lemma singleCoherence_nan (pxx pyy : float) (pxy : Complex.t float) :
  is_zero pxx = true \/ is_zero pyy = true -> czn pxy ->
  is_nan (singleCoherence pxx pyy pxy) = true.
Proof.
  intros Hp Hxy. unfold singleCoherence. apply nan_div; [now apply zn_norm|].
  destruct Hp as [Hp|Hp]; [apply zn_mul_l | apply zn_mul_r];
    now apply is_zero_zero_or_nan.
Qed.

(** The sum and the mean of a list of NaN that is not empty are NaN. *)
Lemma nan_total (cs : list float) (a : float) :
  is_nan a = true -> is_nan (fold_left PrimFloat.add cs a) = true.
Proof.
  revert a. induction cs as [|c cs IH]; intros a Ha; [exact Ha|].
  cbn [fold_left]. apply IH. now apply nan_add_l.
Qed.

Lemma nan_mean (cs : list float) :
  cs <> [] -> Forall (fun c => is_nan c = true) cs -> is_nan (mean cs) = true.
Proof.
  intros Hne Hall. unfold mean. destruct cs as [|c cs]; [congruence|].
  cbn [length]. replace (0 <? Z.of_nat (S (length cs)))%Z with true
    by (symmetry; apply Z.ltb_lt; lia).
  apply nan_div_l. unfold total. cbn [fold_left]. apply nan_total.
  apply nan_add_r. now inversion Hall.
Qed.

Lemma silent_cross_product (st : CumulativeTFR.t float) (itX itY comb i f k : nat) :
  silent st i comb -> i = itX \/ i = itY -> czn (cross_product st itX itY f k).
Proof.
  intros (_ & Hs & _) Hi. unfold cross_product.
  assert (Hz : czn (default Complex.zero (at3 (spectrumBuffer st) i f k))).
  { destruct (at3 (spectrumBuffer st) i f k) as [z|] eqn:E; [|exact czn_zero].
    destruct (Hs f k z E) as [Hr Hi']. split; now apply is_zero_zero_or_nan. }
  destruct Hi as [<- | <-]; [now apply czn_mul_l|].
  apply czn_mul_r. now apply czn_conj.
Qed.

Lemma silent_accumulated (st : CumulativeTFR.t float) (itX itY comb i : nat) :
  silent st i comb -> i = itX \/ i = itY ->
  silent (set_pxys (cross_accumulated st itX itY comb) st) i comb.
Proof.
  intros Hs Hi. pose proof Hs as (Hp & Hz & Hc).
  split; [exact Hp|]. split; [exact Hz|].
  intros f k acc. cbn [pxys set_pxys]. rewrite at3_cross_accumulated.
  destruct (at3 (pxys st) comb f k) as [a|] eqn:E; [|discriminate].
  intros [= <-]. apply czn_addValue.
  - now apply (silent_cross_product st itX itY comb i).
  - exact (Hc f k a E).
Qed.

Lemma silent_coherence (st : CumulativeTFR.t float) (itX itY comb i f k : nat) :
  silent st i comb -> i = itX \/ i = itY ->
  is_nan (coherence st itX itY comb f k) = true.
Proof.
  intros (Hp & _ & Hc) Hi. unfold coherence.
  change (is_nan (singleCoherence (mean_power st itX f k) (mean_power st itY f k)
                    (mean_cross st comb f k)) = true).
  assert (Hz : is_zero (mean_power st i f k) = true).
  { unfold mean_power. destruct (at3 (powBuffer st) i f k) as [a|] eqn:E;
      [exact (Hp f k a E) | reflexivity]. }
  apply singleCoherence_nan.
  - destruct Hi as [<- | <-]; auto.
  - unfold mean_cross. destruct (at3 (pxys st) comb f k) as [a|] eqn:E;
      [|exact czn_zero].
    apply czn_getAverage. exact (Hc f k a E).
Qed.

(** While a channel of the pair is silent, [getMeanCoherence] returns
    normally; every value [singleCoherence] produces in it is NaN, and, with
    at least one time-bin, so is every [meanDest[f]] it writes; the channel is
    silent afterwards too. *)
Lemma silent_channel_gives_nan (st : CumulativeTFR.t float)
  (itX itY comb i : nat) (meanDest : list float) :
  let nf := Z.to_nat (nFreqs st) in
  let nt := Z.to_nat (nTimes st) in
  matrix_at (spectrumBuffer st) itX nf nt ->
  matrix_at (spectrumBuffer st) itY nf nt ->
  matrix_at (powBuffer st) itX nf nt ->
  matrix_at (powBuffer st) itY nf nt ->
  matrix_at (pxys st) comb nf nt ->
  (nf <= length meanDest)%nat ->
  (1 <= nt)%nat ->
  i = itX \/ i = itY ->
  silent st i comb ->
  exists mean' std' st',
    getMeanCoherence itX itY meanDest comb st = Some (mean', std', st')
    /\ (forall f k, is_nan (coherence st' itX itY comb f k) = true)
    /\ (forall f, (f < nf)%nat -> exists v, mean' !! f = Some v /\ is_nan v = true)
    /\ silent st' i comb.
Proof.
  intros nf nt HSX HSY HPX HPY HC Hlen Hnt Hi Hs.
  pose proof (getMeanCoherence_refines st itX itY comb meanDest
                HSX HSY HPX HPY HC Hlen) as E.
  cbv zeta in E. fold nf in E.
  set (st' := set_pxys (cross_accumulated st itX itY comb) st) in *.
  assert (Hs' : silent st' i comb) by now apply silent_accumulated.
  eexists _, _, st'. split; [exact E|]. split; [|split; [|exact Hs']].
  - intros f k. now apply (silent_coherence st' itX itY comb i).
  - intros f Hf. rewrite list_lookup_imap.
    destruct (lookup_lt_is_Some_2 meanDest f) as [x ->]; [lia|].
    cbn [fmap option_fmap option_map]. apply Nat.ltb_lt in Hf. rewrite Hf.
    eexists. split; [reflexivity|]. apply nan_mean.
    + unfold coherences. change (Z.to_nat (nTimes st')) with nt.
      destruct nt; [lia|]. discriminate.
    + unfold coherences. apply List.Forall_forall. intros c Hc.
      apply in_map_iff in Hc as (k & <- & _).
      now apply (silent_coherence st' itX itY comb i).
Qed.

(** A fresh engine: every channel is silent for every pair. *)
Lemma construct_silent (ng1 ng2 nf nt : Z) (a : float)
  (wavelets : list (list (Complex.t float))) (i comb : nat) :
  silent (construct ng1 ng2 nf nt a wavelets) i comb.
Proof.
  assert (Hcube : forall (A : Type) (n1 n2 n3 : Z) (x y : A) (c f k : nat),
             at3 (cube n1 n2 n3 x) c f k = Some y -> y = x).
  { intros A n1 n2 n3 x y c f k Hy. apply at3_Some in Hy as (m & r & Hm & Hr & Hk).
    unfold cube in Hm. apply lookup_replicate_1 in Hm as [-> _].
    apply lookup_replicate_1 in Hr as [-> _].
    now apply lookup_replicate_1 in Hk as [-> _]. }
  unfold silent, construct. cbn [powBuffer spectrumBuffer pxys].
  split; [|split]; intros f k y Hy; apply Hcube in Hy; subst y; split; reflexivity.
Qed.

(** A trial on another channel leaves a silent channel silent. *)
Lemma addTrial_keeps_silent (conv : nat -> nat -> Complex.t float)
  (chanIt i comb : nat) :
  chanIt <> i ->
  partial (fun s => silent s i comb) (addTrial conv chanIt) (fun _ s => silent s i comb).
Proof.
  intros Hne. unfold addTrial.
  eapply partial_bind; [apply partial_read; intros s a Hs _; exact Hs|]. intros nf.
  eapply partial_bind; [apply partial_read; intros s a Hs _; exact Hs|]. intros nt.
  apply partial_for_loop. intros f [].
  apply partial_for_loop. intros k [].
  eapply partial_bind with (R := fun _ s => silent s i comb).
  - apply partial_write. intros s s' (Hp & Hz & Hc).
    destruct (at3 (spectrumBuffer s) chanIt f k); [|discriminate]. intros [= <-].
    split; [exact Hp|]. split; [|exact Hc].
    intros f' k' z. cbn [spectrumBuffer set_spectrumBuffer]. rewrite at3_alter3.
    case_decide; [tauto | apply Hz].
  - intros _. apply partial_write. intros s s' (Hp & Hz & Hc).
    destruct (at3 (powBuffer s) chanIt f k); [|discriminate]. intros [= <-].
    split; [|split; [exact Hz | exact Hc]].
    intros f' k' acc. cbn [powBuffer set_powBuffer]. rewrite at3_alter3.
    case_decide; [tauto | apply Hp].
Qed.

(** So does a coherence call, unless it uses the accumulators of the pair for
    two other channels. *)
Lemma getMeanCoherence_keeps_silent (itX itY c i comb : nat) (meanDest : list float) :
  (c = comb -> i = itX \/ i = itY) ->
  partial (fun s => silent s i comb) (getMeanCoherence itX itY meanDest c)
    (fun _ s => silent s i comb).
Proof.
  intros Hpair. unfold getMeanCoherence.
  eapply partial_bind; [apply partial_read; intros s a Hs _; exact Hs|]. intros nf.
  eapply partial_bind; [apply partial_read; intros s a Hs _; exact Hs|]. intros nt.
  eapply partial_bind with (R := fun _ s => silent s i comb).
  - apply partial_for_loop. intros f [].
    apply partial_for_loop. intros k [].
    eapply partial_bind with
      (R := fun x s => silent s i comb /\ at3 (spectrumBuffer s) itX f k = Some x).
    { apply partial_read. auto. }
    intros x. eapply partial_bind with
      (R := fun y s => silent s i comb /\ at3 (spectrumBuffer s) itX f k = Some x
                       /\ at3 (spectrumBuffer s) itY f k = Some y).
    { apply partial_read. intros s y [Hs Hx] Hy. auto. }
    intros y. apply partial_write. intros s s' ((Hp & Hz & Hc) & Hx & Hy).
    destruct (at3 (pxys s) c f k); [|discriminate]. intros [= <-].
    split; [exact Hp|]. split; [exact Hz|].
    intros f' k' acc. cbn [pxys set_pxys]. rewrite at3_alter3.
    case_decide as Hd; [|apply Hc]. destruct Hd as (-> & <- & <-).
    destruct (at3 (pxys s) comb f k) as [a|] eqn:Ea; [|discriminate].
    intros [= <-]. apply czn_addValue; [|exact (Hc f k a Ea)].
    destruct (Hpair eq_refl) as [-> | ->].
    + apply czn_mul_l. destruct (Hz f k x Hx). split; now apply is_zero_zero_or_nan.
    + apply czn_mul_r, czn_conj. destruct (Hz f k y Hy).
      split; now apply is_zero_zero_or_nan.
  - intros _. apply partial_for_loop. intros f [md sd].
    eapply partial_bind with (R := fun _ s => silent s i comb).
    + apply partial_for_loop. intros k coh.
      eapply partial_bind; [apply partial_read; intros s a Hs _; exact Hs|]. intros px.
      eapply partial_bind; [apply partial_read; intros s a Hs _; exact Hs|]. intros py.
      eapply partial_bind; [apply partial_read; intros s a Hs _; exact Hs|]. intros pxy.
      apply partial_ret. auto.
    + intros coh.
      eapply partial_bind; [apply partial_read; intros s a Hs _; exact Hs|]. intros x.
      apply partial_ret. auto.
Qed.

Lemma no_data_yet_silent (i comb : nat) (st : CumulativeTFR.t float) :
  no_data_yet i comb st -> silent st i comb.
Proof.
  induction 1 as [ng1 ng2 nf nt a w | st st' conv chan _ IH Hne E
                 | st st' itX itY md c r _ IH Hpair E].
  - apply construct_silent.
  - exact (addTrial_keeps_silent conv chan i comb Hne st tt st' IH E).
  - exact (getMeanCoherence_keeps_silent itX itY c i comb md Hpair st r st' IH E).
Qed.

(** C8: while a channel of the pair has had no data yet, its average power
    is exactly zero at every frequency and time, and [getMeanCoherence] on
    buffers of [nFreqs] x [nTimes] entries returns normally, nothing being
    raised: each of the [nFreqs] x [nTimes] values
    [singleCoherence(powBuffer[itX][f][t].getAverage(),
    powBuffer[itY][f][t].getAverage(), pxys[comb][f][t].getAverage())]
    it computes is NaN, and, with at least one time-bin, so is every
    [meanDest[f]] it writes; the channel still has no data afterwards. *)
Theorem zero_power_gives_nan (st : CumulativeTFR.t float)
  (itX itY comb i : nat) (meanDest : list float) :
  let nf := Z.to_nat (nFreqs st) in
  let nt := Z.to_nat (nTimes st) in
  matrix_at (spectrumBuffer st) itX nf nt ->
  matrix_at (spectrumBuffer st) itY nf nt ->
  matrix_at (powBuffer st) itX nf nt ->
  matrix_at (powBuffer st) itY nf nt ->
  matrix_at (pxys st) comb nf nt ->
  (nf <= length meanDest)%nat ->
  (1 <= nt)%nat ->
  i = itX \/ i = itY ->
  no_data_yet i comb st ->
  (forall f k, (f < nf)%nat -> (k < nt)%nat ->
     exists acc, at3 (powBuffer st) i f k = Some acc
                 /\ is_zero (RealWeightedAccum.getAverage acc) = true)
  /\ exists mean' std' st',
       getMeanCoherence itX itY meanDest comb st = Some (mean', std', st')
       /\ (forall f k, (f < nf)%nat -> (k < nt)%nat ->
             exists px py pxy,
               at3 (powBuffer st') itX f k = Some px
               /\ at3 (powBuffer st') itY f k = Some py
               /\ at3 (pxys st') comb f k = Some pxy
               /\ is_nan (singleCoherence (RealWeightedAccum.getAverage px)
                            (RealWeightedAccum.getAverage py)
                            (ComplexWeightedAccum.getAverage pxy)) = true)
       /\ (forall f, (f < nf)%nat -> exists v, mean' !! f = Some v /\ is_nan v = true)
       /\ no_data_yet i comb st'.
Proof.
  intros nf nt HSX HSY HPX HPY HC Hlen Hnt Hi Hnd.
  pose proof (no_data_yet_silent i comb st Hnd) as Hs.
  split.
  - intros f k Hf Hk.
    assert (HP : matrix_at (powBuffer st) i nf nt) by (destruct Hi as [-> | ->]; assumption).
    destruct (matrix_at_lookup _ _ _ _ f k HP Hf Hk) as [acc Hacc].
    exists acc. split; [exact Hacc|]. destruct Hs as (Hp & _). exact (Hp f k acc Hacc).
  - destruct (silent_channel_gives_nan st itX itY comb i meanDest
                HSX HSY HPX HPY HC Hlen Hnt Hi Hs)
      as (m & sd & st' & E & Hcoh & Hmean & _).
    exists m, sd, st'. split; [exact E|]. split; [|split; [exact Hmean|]].
    + pose proof (getMeanCoherence_refines st itX itY comb meanDest
                    HSX HSY HPX HPY HC Hlen) as E'.
      cbv zeta in E'. rewrite E in E'. injection E' as _ _ ->.
      intros f k Hf Hk.
      destruct (matrix_at_lookup _ _ _ _ f k HPX Hf Hk) as [px Hpx].
      destruct (matrix_at_lookup _ _ _ _ f k HPY Hf Hk) as [py Hpy].
      destruct (matrix_at_lookup _ _ _ _ f k HC Hf Hk) as [acc Hacc].
      exists px, py, (ComplexWeightedAccum.addValue (cross_product st itX itY f k) acc).
      cbn [powBuffer pxys set_pxys].
      split; [exact Hpx|]. split; [exact Hpy|].
      assert (Hpxy : at3 (cross_accumulated st itX itY comb) comb f k
                     = Some (ComplexWeightedAccum.addValue
                               (cross_product st itX itY f k) acc))
        by now rewrite at3_cross_accumulated, Hacc.
      split; [exact Hpxy|].
      specialize (Hcoh f k). unfold coherence, mean_power, mean_cross in Hcoh.
      cbn [powBuffer pxys set_pxys] in Hcoh. rewrite Hpx, Hpy, Hpxy in Hcoh.
      exact Hcoh.
    + exact (nd_coherence i comb st st' itX itY meanDest comb (m, sd) Hnd (fun _ => Hi) E).
Qed.

End IEEE.

Lemma zero_power_gives_nan_witness :
  let fresh := CumulativeTFR.construct 1 1 1 2 0%float [] in
  let st := match CumulativeTFR.addTrial (fun _ _ => Complex.mk 1%float 0%float) 1 fresh with
            | Some (_, s) => s
            | None => fresh
            end in
  no_data_yet 0 0 st
  /\ Estimator.mean_power st 1 0 0 = 1%float
  /\ Estimator.mean_power st 0 0 0 = 0%float
  /\ exists std' st',
       CumulativeTFR.getMeanCoherence 0 1 [0%float] 0 st = Some ([nan], std', st').
Proof.
  cbv zeta.
  set (fresh := CumulativeTFR.construct 1 1 1 2 0%float []).
  set (st := match CumulativeTFR.addTrial (fun _ _ => Complex.mk 1%float 0%float) 1 fresh with
             | Some (_, s) => s
             | None => fresh
             end).
  assert (Hnd : no_data_yet 0 0 st).
  { apply (nd_trial 0 0 fresh st (fun _ _ => Complex.mk 1%float 0%float) 1);
      [apply nd_fresh | discriminate | reflexivity]. }
  assert (Hm : forall (A : Type) (v : list (list (list A))) (i : nat) (a b : A),
             v !! i = Some [[a; b]] -> matrix_at v i 1 2).
  { intros A v i a b Hv. exists [[a; b]]. split; [exact Hv|].
    split; [reflexivity | repeat constructor]. }
  split; [exact Hnd|]. split; [reflexivity|]. split; [reflexivity|].
  destruct (zero_power_gives_nan st 0 1 0 0 [0%float])
    as (_ & m & sd & st' & E & _ & Hnan & _);
    try (eapply Hm; reflexivity);
    [vm_compute; lia | vm_compute; lia | left; reflexivity | exact Hnd |].
  exists sd, st'. rewrite E. do 3 f_equal.
  pose proof E as E'. vm_compute in E'. injection E' as <- _ _. reflexivity.
Defined.

(** ** What the claims about the accumulators and the power query come to *)

Section AccumulatorClaims.
Import Method CumulativeTFR Estimator.

(** C3, where the code departs from it: [count] is declared [size_t], so the
    assignment [count = 1 + (1 - alpha) * count] truncates.  With
    [alpha = 1/2] and two calls [addValue(1)], the claim gives
    [count = 3/2] and the average [(3/2)/(3/2) = 1]; the code leaves
    [count = 1] and returns [3/2], in exact arithmetic and in [double], for
    the real and for the complex accumulator. *)
Theorem weighted_count_truncated :
  let r := RealWeightedAccum.addValues [1%Q; 1%Q] (RealWeightedAccum.make (1 # 2)%Q) in
  let c := ComplexWeightedAccum.addValues [Complex.mk 1%Q 0%Q; Complex.mk 1%Q 0%Q]
             (ComplexWeightedAccum.make (1 # 2)%Q) in
  let d := RealWeightedAccum.addValues [1%float; 1%float]
             (RealWeightedAccum.make 0.5%float) in
  (RealWeightedAccum.count r = 1
   /\ ~ (inject_Z (RealWeightedAccum.count r) == 1 + (1 - (1 # 2)) * 1)%Q
   /\ (RealWeightedAccum.sum r == 3 # 2)%Q
   /\ (RealWeightedAccum.getAverage r == 3 # 2)%Q)
  /\ (ComplexWeightedAccum.count c = 1
      /\ (Complex.re (ComplexWeightedAccum.getAverage c) == 3 # 2)%Q
      /\ (Complex.im (ComplexWeightedAccum.getAverage c) == 0)%Q)
  /\ (RealWeightedAccum.count d = 1
      /\ RealWeightedAccum.getAverage d = 1.5%float).
Proof.
  cbv zeta. repeat split; try reflexivity. intros E. discriminate E.
Qed.

End AccumulatorClaims.

(** * Further properties *)

(** ** The handles of the synchronizer and of the shared object *)

Section Handles.
Import AtomicSynchronizer AtomicallyShared.
Context {T : Type}.

(** X1: a write pointer constructed on a shared object while another one is
    registered is null: it is not valid, constructing it changes nothing,
    reading or assigning through it aborts, its [pushUpdate] does nothing and
    destroying it does not release the first pointer's registration.  Once
    the first, valid pointer is destroyed, a write pointer can be constructed
    again. *)
Theorem second_write_ptr_is_null (o : shared T) (v : T) :
  let '(w1, o1) := ScopedWritePtr_ctor o in
  let '(w2, o2) := ScopedWritePtr_ctor o1 in
  wvalid w2 = false
  /\ o2 = o1
  /\ ScopedWritePtr_deref w2 o2 = None
  /\ ScopedWritePtr_assign w2 v o2 = None
  /\ ScopedWritePtr_pushUpdate w2 o2 = Some o2
  /\ ScopedWritePtr_dtor w2 o2 = o1
  /\ (wvalid w1 = true ->
      wvalid (fst (ScopedWritePtr_ctor (ScopedWritePtr_dtor w1 o2))) = true).
Proof.
  destruct o as [d [rr rw rw2 w r nw nr]].
  unfold ScopedWritePtr_ctor, ScopedWriteIndex_ctor, checkoutWriter,
    compare_exchange_strong.
  cbn [sync data nWriters].
  destruct (Z.eqb_spec nw 0) as [->|Hnw]; cbn.
  - repeat split; reflexivity.
  - apply Z.eqb_neq in Hnw. rewrite Hnw. cbn. repeat split; try reflexivity.
    discriminate.
Qed.

(** X2: a read pointer constructed on a shared object while another one is
    registered is null, whether or not data has been pushed: it is not valid,
    constructing it changes nothing (no index is taken), dereferencing it
    aborts, also after [pullUpdate], which changes nothing, and destroying it
    does not release the first pointer's registration.  Once the first
    pointer, if it was registered, is destroyed, a read pointer can register
    again. *)
Theorem second_read_ptr_is_null (o : shared T) :
  let '(r1, o1) := ScopedReadPtr_ctor o in
  let '(r2, o2) := ScopedReadPtr_ctor o1 in
  valid r2 = false
  /\ readValid (ind r2) = false
  /\ o2 = o1
  /\ ScopedReadPtr_deref r2 o2 = None
  /\ (let '(r3, o3) := ScopedReadPtr_pullUpdate r2 o2 in
      valid r3 = false /\ o3 = o2 /\ ScopedReadPtr_deref r3 o3 = None)
  /\ ScopedReadPtr_dtor r2 o2 = o1
  /\ (readValid (ind r1) = true ->
      readValid (ind (fst (ScopedReadPtr_ctor (ScopedReadPtr_dtor r1 o2)))) = true).
Proof.
  destruct o as [d s].
  unfold ScopedReadPtr_ctor, ScopedReadIndex_ctor, checkoutReader,
    compare_exchange_strong.
  cbn [sync data].
  destruct (Z.eqb_spec (nReaders s) 0) as [E|Hnr]; cbn [negb fst snd].
  - assert (Hn : nReaders (updateReaderIndex (set_nReaders 1 s)) = 1).
    { destruct s as [rr rw rw2 w r nw nr]. unfold updateReaderIndex, compare_exchange_strong.
      cbn. repeat (match goal with |- context [if ?b then _ else _] => destruct b end; cbn);
        reflexivity. }
    cbn [sync data]. rewrite Hn. cbn.
    repeat split; reflexivity.
  - apply Z.eqb_neq in Hnr. cbn [sync data]. rewrite Hnr. cbn.
    repeat split; try reflexivity. discriminate.
Qed.

Lemma lockout_ctor_dtor (s : t) :
  lockoutValid (fst (ScopedLockout_ctor s)) = (nReaders s =? 0) && (nWriters s =? 0)
  /\ ScopedLockout_dtor (fst (ScopedLockout_ctor s)) (snd (ScopedLockout_ctor s)) = s.
Proof.
  destruct s as [rr rw rw2 w r nw nr].
  unfold ScopedLockout_ctor, ScopedLockout_dtor, checkoutReader, checkoutWriter,
    returnReader, returnWriter, compare_exchange_strong.
  cbn.
  destruct (Z.eqb_spec nr 0) as [->|Hr]; cbn;
    (destruct (Z.eqb_spec nw 0) as [->|Hw]; cbn);
    rewrite ?andb_false_r; split; reflexivity.
Qed.

(** X3: [ScopedLockout] is a try-lock on both registrations: it is valid
    exactly when neither a reader nor a writer is registered at its
    construction; destroying it gives back the state from before its
    construction, whether it was valid or not; and while a valid one exists
    no write index and no read index can register and [reset()] fails, each
    leaving the state as it is. *)
Theorem lockout_is_try_lock (s : t) :
  let '(l, s1) := ScopedLockout_ctor s in
  lockoutValid l = (nReaders s =? 0) && (nWriters s =? 0)
  /\ ScopedLockout_dtor l s1 = s
  /\ (lockoutValid l = true ->
      ScopedWriteIndex_ctor s1 = (mkWriteIndex false, s1)
      /\ ScopedReadIndex_ctor s1 = (mkReadIndex false, s1)
      /\ AtomicSynchronizer.reset s1 = (false, s1)).
Proof.
  destruct (lockout_ctor_dtor s) as [Hv Hd].
  destruct (ScopedLockout_ctor s) as [l s1] eqn:E. cbn [fst snd] in Hv, Hd.
  split; [exact Hv|]. split; [exact Hd|]. intros Hl.
  rewrite Hl in Hv. symmetry in Hv. apply andb_true_iff in Hv as [Hr Hw].
  apply Z.eqb_eq in Hr, Hw.
  destruct s as [rr rw rw2 w r nw nr]. cbn in Hr, Hw. subst nw nr.
  injection E as <- <-. repeat split; reflexivity.
Qed.

(** X4: [map(f)] answers [true] exactly when neither a reader nor a writer is
    registered; then [f] has been applied to each of the three instances and
    the synchronizer is as before (the indices are not reset); otherwise it
    answers [false] and the object is unchanged. *)
Theorem map_spec (f : T -> T) (o : shared T) :
  map f o =
    if (nReaders (sync o) =? 0) && (nWriters (sync o) =? 0)
    then (true, mkShared (List.map f (data o)) (sync o))
    else (false, o).
Proof.
  destruct o as [d s]. unfold map. cbn [sync data].
  destruct (lockout_ctor_dtor s) as [Hv Hd].
  destruct (ScopedLockout_ctor s) as [l s1]. cbn [fst snd] in Hv, Hd.
  rewrite Hd, Hv. now destruct ((nReaders s =? 0) && (nWriters s =? 0)).
Qed.

Lemma updateReaderIndex_takes (s : t) :
  readyToReadIndex s <> -1 ->
  readerIndex (updateReaderIndex s) = readyToReadIndex s
  /\ readyToReadIndex (updateReaderIndex s) = -1.
Proof.
  intros Hr. apply Z.eqb_neq in Hr. unfold updateReaderIndex, compare_exchange_strong.
  rewrite Hr. cbn [negb].
  destruct (readerIndex s =? -1); cbn [negb]; [split; reflexivity|].
  destruct (readyToWriteIndex s =? -1); cbn [negb]; split; reflexivity.
Qed.

Lemma updateReaderIndex_nothing (s : t) :
  readyToReadIndex s = -1 -> updateReaderIndex s = s.
Proof. intros Hr. unfold updateReaderIndex. now rewrite Hr. Qed.

(** X5: after [hasUpdate()] has answered [true], the next read pointer that
    is constructed (none being registered), or a registered read pointer after
    its next [pullUpdate()], is valid; it holds the index that was ready to be
    read, and [hasUpdate()] then answers [false]. *)
Theorem hasUpdate_guarantees_valid (o : shared T) (p : ScopedReadPtr) :
  hasUpdate o = true ->
  (nReaders (sync o) = 0 ->
   let '(r, o') := ScopedReadPtr_ctor o in
   valid r = true /\ hasUpdate o' = false
   /\ readerIndex (sync o') = readyToReadIndex (sync o))
  /\ (readValid (ind p) = true ->
      let '(r, o') := ScopedReadPtr_pullUpdate p o in
      valid r = true /\ hasUpdate o' = false
      /\ readerIndex (sync o') = readyToReadIndex (sync o)).
Proof.
  destruct o as [d s]. unfold hasUpdate, AtomicSynchronizer.hasUpdate. cbn [sync data].
  intros Hu. apply negb_true_iff, Z.eqb_neq in Hu. split.
  - intros Hn. unfold ScopedReadPtr_ctor, ScopedReadIndex_ctor, checkoutReader,
      compare_exchange_strong. cbn [sync data]. rewrite Hn. cbn [Z.eqb negb].
    destruct (updateReaderIndex_takes (set_nReaders 1 s)) as [H1 H2];
      [now destruct s|].
    cbn [sync ScopedReadIndex_int readValid valid]. rewrite H1, H2.
    replace (readyToReadIndex (set_nReaders 1 s)) with (readyToReadIndex s)
      by now destruct s.
    apply Z.eqb_neq in Hu. rewrite Hu. repeat split; reflexivity.
  - intros Hp. unfold ScopedReadPtr_pullUpdate, ScopedReadIndex_pullUpdate,
      ScopedReadIndex_int. rewrite Hp. cbn [sync data valid].
    destruct (updateReaderIndex_takes s Hu) as [H1 H2]. rewrite H1, H2.
    apply Z.eqb_neq in Hu. rewrite Hu. repeat split; reflexivity.
Qed.

End Handles.

Lemma hasUpdate_guarantees_valid_witness :
  let o := AtomicallyShared.mkShared [1%nat; 2%nat; 3%nat]
             (AtomicSynchronizer.mk 2 0 (-1) 1 (-1) 1 1) in
  AtomicallyShared.hasUpdate o = true
  /\ AtomicallyShared.valid
       (fst (AtomicallyShared.ScopedReadPtr_pullUpdate
               (AtomicallyShared.mkReadPtr (AtomicSynchronizer.mkReadIndex true) false) o))
     = true.
Proof.
  split; [reflexivity|].
  pose proof (hasUpdate_guarantees_valid
                (AtomicallyShared.mkShared [1%nat; 2%nat; 3%nat]
                   (AtomicSynchronizer.mk 2 0 (-1) 1 (-1) 1 1))
                (AtomicallyShared.mkReadPtr (AtomicSynchronizer.mkReadIndex true) false)
                eq_refl) as [_ H].
  specialize (H eq_refl).
  destruct (AtomicallyShared.ScopedReadPtr_pullUpdate _ _) as [r o'].
  exact (proj1 H).
Defined.

(** ** What the reader sees of what the writer publishes *)

Section Published.
Import AtomicSynchronizer AtomicallyShared.
Context {T : Type}.

(** What the indices of a populated synchronizer satisfy, and what one
    [pushWrite] and one [updateReaderIndex] do to them. *)
Lemma pushWrite_body_indices (s : t) :
  population_ok s = true -> writerIndex s <> -1 ->
  0 <= writerIndex s <= 2
  /\ -1 <= readerIndex s <= 2
  /\ readerIndex s <> writerIndex s
  /\ readyToReadIndex (pushWrite_body s) = writerIndex s
  /\ readerIndex (pushWrite_body s) = readerIndex s
  /\ writerIndex (pushWrite_body s) <> readerIndex s.
Proof.
  intros Hp Hw.
  pose (Q := fun s =>
    implb (population_ok s && negb (writerIndex s =? -1))
      ((0 <=? writerIndex s) && (writerIndex s <=? 2)
       && (-1 <=? readerIndex s) && (readerIndex s <=? 2)
       && negb (readerIndex s =? writerIndex s)
       && (readyToReadIndex (pushWrite_body s) =? writerIndex s)
       && (readerIndex (pushWrite_body s) =? readerIndex s)
       && negb (writerIndex (pushWrite_body s) =? readerIndex s))).
  assert (HQ : Q s = true).
  { apply for_all_sound; [intros; vm_compute; reflexivity|].
    now apply population_ok_in_range. }
  unfold Q in HQ. rewrite Hp in HQ. apply Z.eqb_neq in Hw. rewrite Hw in HQ.
  cbn [andb negb implb] in HQ. rewrite !andb_true_iff in HQ.
  destruct HQ as (((((((H1 & H2) & H3) & H4) & H5) & H6) & H7) & H8).
  apply negb_true_iff, Z.eqb_neq in H5, H8. apply Z.eqb_eq in H6, H7. lia.
Qed.

Lemma attach_attached (x : T) (garbage : AtomicSynchronizer.t) :
  attached (fst (fst (attach x garbage)))
    (snd (fst (attach x garbage)), snd (attach x garbage)).
Proof. unfold attached. cbn. repeat split; try reflexivity. discriminate. Qed.

(** The element the reader's pointer refers to. *)
Lemma deref_element (r : ScopedReadPtr) (o : shared T) :
  readValid (ind r) = true -> valid r = negb (readerIndex (sync o) =? -1) ->
  -1 <= readerIndex (sync o) ->
  ScopedReadPtr_deref r o = element (readerIndex (sync o)) (data o).
Proof.
  intros Hi Hv Hr. unfold ScopedReadPtr_deref, ScopedReadIndex_int, element.
  rewrite Hv, Hi. destruct (Z.eqb_spec (readerIndex (sync o)) (-1)) as [E|E]; cbn [negb].
  - now rewrite E.
  - destruct (Z.ltb_spec (readerIndex (sync o)) 0); [lia | reflexivity].
Qed.

Lemma element_insert (l : list T) (i : Z) (v : T) :
  0 <= i -> (Z.to_nat i < length l)%nat ->
  element i (<[Z.to_nat i := v]> l) = Some v.
Proof.
  intros Hi Hl. unfold element. destruct (Z.ltb_spec i 0); [lia|].
  now apply list_lookup_insert_eq.
Qed.

Lemma element_insert_ne (l : list T) (i j : Z) (v : T) :
  0 <= i -> i <> j -> element j (<[Z.to_nat i := v]> l) = element j l.
Proof.
  intros Hi Hne. unfold element. destruct (Z.ltb_spec j 0); [reflexivity|].
  apply list_lookup_insert_ne. lia.
Qed.

(** One publication: it succeeds, what was written is ready to be read, and
    the reader's element is as it was. *)
Lemma publish_step (w : ScopedWritePtr) (v : T) (r : ScopedReadPtr) (o : shared T) :
  attached w (r, o) ->
  exists o',
    do_access w (Publish v) (r, o) = Some (r, o')
    /\ attached w (r, o')
    /\ readyToReadIndex (sync o') <> -1
    /\ element (readyToReadIndex (sync o')) (data o') = Some v
    /\ readerIndex (sync o') = readerIndex (sync o)
    /\ element (readerIndex (sync o')) (data o') = element (readerIndex (sync o)) (data o).
Proof.
  intros (Hw & Hwi & Hri & Hv & Hp & Hne & Hlen). cbn [fst snd] in *.
  destruct (pushWrite_body_ok _ Hp Hne) as [Hp' Hne'].
  destruct (pushWrite_body_indices _ Hp Hne) as (Hr1 & Hr2 & Hd & Hrr & Hrd & Hd').
  unfold do_access, ScopedWritePtr_assign, ScopedWritePtr_pushUpdate,
    ScopedWriteIndex_pushUpdate, ScopedWriteIndex_int.
  cbn [fst snd]. rewrite Hw, Hwi. cbn [negb].
  assert (Hin : (Z.to_nat (writerIndex (sync o)) < length (data o))%nat) by lia.
  destruct (lookup_lt_is_Some_2 _ _ Hin) as [y Hy].
  unfold element at 1. destruct (Z.ltb_spec (writerIndex (sync o)) 0); [lia|].
  rewrite Hy. cbn [sync data]. unfold pushWrite.
  apply Z.eqb_neq in Hne. rewrite Hne. apply Z.eqb_neq in Hne.
  apply Z.eqb_neq in Hne'. rewrite Hne'. apply Z.eqb_neq in Hne'.
  eexists. split; [reflexivity|]. cbn [sync data]. rewrite Hrr, Hrd.
  split; [|split; [lia|split; [|split; [reflexivity|]]]].
  - unfold attached. cbn [fst snd sync data]. rewrite Hrd, length_insert.
    repeat split; assumption.
  - now apply element_insert.
  - apply element_insert_ne; [lia | congruence].
Qed.

(** One [pullUpdate]: the reader has what was ready, or keeps what it had. *)
Lemma pull_step (w : ScopedWritePtr) (r : ScopedReadPtr) (o : shared T) :
  attached w (r, o) ->
  exists r' s',
    do_access w Pull (r, o) = Some (r', mkShared (data o) s')
    /\ attached w (r', mkShared (data o) s')
    /\ writerIndex s' = writerIndex (sync o)
    /\ readyToReadIndex s' = -1
    /\ readerIndex s' =
       (if readyToReadIndex (sync o) =? -1 then readerIndex (sync o)
        else readyToReadIndex (sync o)).
Proof.
  intros (Hw & Hwi & Hri & Hv & Hp & Hne & Hlen). cbn [fst snd] in *.
  destruct (updateReaderIndex_ok _ Hp) as [Hp' Hwr].
  unfold do_access, ScopedReadPtr_pullUpdate, ScopedReadIndex_pullUpdate,
    ScopedReadIndex_int. cbn [fst snd]. rewrite Hri.
  eexists _, _. split; [reflexivity|].
  split; [|split; [exact Hwr|]].
  - unfold attached. cbn [fst snd sync data ind valid]. rewrite Hwr.
    repeat split; assumption.
  - destruct (Z.eqb_spec (readyToReadIndex (sync o)) (-1)) as [E|E].
    + rewrite (updateReaderIndex_nothing _ E). now split.
    + destruct (updateReaderIndex_takes _ E) as [H1 H2]. now split.
Qed.

Lemma do_accesses_app (w : ScopedWritePtr) (l1 l2 : list (access T))
  (ro : ScopedReadPtr * shared T) :
  do_accesses w (l1 ++ l2) ro =
    match do_accesses w l1 ro with
    | Some ro' => do_accesses w l2 ro'
    | None => None
    end.
Proof.
  revert ro. induction l1 as [|a l1 IH]; intros ro; [reflexivity|].
  cbn [app do_accesses]. destruct (do_access w a ro); [apply IH | reflexivity].
Qed.

(** No access aborts or fails an assertion. *)
Lemma do_accesses_attached (w : ScopedWritePtr) (l : list (access T)) :
  forall ro, attached w ro ->
  exists ro', do_accesses w l ro = Some ro' /\ attached w ro'.
Proof.
  induction l as [|a l IH]; intros [r o] Ha; [now exists (r, o)|].
  cbn [do_accesses]. destruct a as [v|].
  - destruct (publish_step w v r o Ha) as (o' & E & Ha' & _). rewrite E. now apply IH.
  - destruct (pull_step w r o Ha) as (r' & s' & E & Ha' & _). rewrite E. now apply IH.
Qed.

(** Pulls after the first find nothing new. *)
Lemma pulls_keep (w : ScopedWritePtr) (n : nat) :
  forall (r : ScopedReadPtr) (o : shared T),
    attached w (r, o) -> readyToReadIndex (sync o) = -1 ->
    exists r',
      do_accesses w (replicate n Pull) (r, o) = Some (r', o)
      /\ attached w (r', o).
Proof.
  induction n as [|n IH]; intros r o Ha Hr; [now exists r|].
  cbn [replicate do_accesses].
  destruct (pull_step w r o Ha) as (r' & s' & E & Ha' & Hw' & Hrr & Hrd).
  rewrite E.
  assert (Es : s' = sync o).
  { unfold do_access, ScopedReadPtr_pullUpdate, ScopedReadIndex_pullUpdate in E.
    cbn [fst snd] in E. destruct Ha as (_ & _ & Hri & _). cbn [fst] in Hri.
    rewrite Hri, (updateReaderIndex_nothing _ Hr) in E. now injection E. }
  subst s'. replace (mkShared (data o) (sync o)) with o in * by now destruct o.
  now apply IH.
Qed.

(** X6: on a fresh shared object with a write pointer and a read pointer,
    after any history of publications ([*writer = v; writer.pushUpdate();])
    and pulls ([reader.pullUpdate();]), none of which aborts or fails an
    assertion, a publication of [v] followed by one or more pulls leaves the
    read pointer valid and referring to [v]: the reader gets the latest
    published value, whatever was published and not pulled before. *)
Theorem latest_publication_is_read (x : T) (garbage : AtomicSynchronizer.t)
  (history : list (access T)) (v : T) (n : nat) :
  let '(w, r, o) := attach x garbage in
  exists r' o',
    do_accesses w (history ++ Publish v :: replicate (S n) Pull) (r, o) = Some (r', o')
    /\ valid r' = true
    /\ ScopedReadPtr_deref r' o' = Some v.
Proof.
  pose proof (attach_attached x garbage) as Ha.
  destruct (attach x garbage) as [[w r] o]. cbn [fst snd] in Ha.
  destruct (do_accesses_attached w history _ Ha) as ([r1 o1] & E1 & Ha1).
  destruct (publish_step w v r1 o1 Ha1) as (o2 & E2 & Ha2 & Hne & Hel & _).
  destruct (pull_step w r1 o2 Ha2) as (r3 & s3 & E3 & Ha3 & _ & Hrr & Hrd).
  destruct (pulls_keep w n r3 _ Ha3 Hrr) as (r4 & E4 & Ha4).
  exists r4, (mkShared (data o2) s3).
  rewrite do_accesses_app, E1. cbn [do_accesses replicate]. rewrite E2, E3.
  split; [exact E4|].
  destruct Ha4 as (_ & _ & Hri & Hv & Hp & _). cbn [fst snd sync data] in *.
  apply Z.eqb_neq in Hne. rewrite Hne in Hrd. apply Z.eqb_neq in Hne.
  assert (Hv' : valid r4 = true).
  { rewrite Hv, Hrd. now apply negb_true_iff, Z.eqb_neq. }
  split; [exact Hv'|].
  rewrite deref_element; cbn [sync data]; try assumption.
  - now rewrite Hrd.
  - apply population_ok_in_range in Hp. unfold Enum.in_range, slots in Hp.
    apply Forall_cons_1 in Hp as [_ Hp]. apply Forall_cons_1 in Hp as [Hp _]. lia.
Qed.


Lemma publications_keep (w : ScopedWritePtr) (vs : list T) :
  forall (r : ScopedReadPtr) (o : shared T),
    attached w (r, o) ->
    exists o',
      do_accesses w (Publish <$> vs) (r, o) = Some (r, o')
      /\ attached w (r, o')
      /\ readerIndex (sync o') = readerIndex (sync o)
      /\ element (readerIndex (sync o')) (data o') = element (readerIndex (sync o)) (data o).
Proof.
  induction vs as [|v vs IH]; intros r o Ha; [now exists o|].
  cbn [fmap list_fmap do_accesses].
  destruct (publish_step w v r o Ha) as (o1 & E & Ha1 & _ & _ & Hr & He).
  rewrite E. destruct (IH r o1 Ha1) as (o2 & E2 & Ha2 & Hr2 & He2).
  exists o2. split; [exact E2|]. split; [exact Ha2|]. split; congruence.
Qed.

(** X7: the writer never writes to the instance the reader holds: after any
    history, whatever the writer then publishes, and however often, what the
    read pointer refers to (and whether it is valid) is what it was. *)
Theorem reader_keeps_its_instance (x : T) (garbage : AtomicSynchronizer.t)
  (history : list (access T)) (vs : list T) :
  let '(w, r, o) := attach x garbage in
  exists r1 o1 o2,
    do_accesses w history (r, o) = Some (r1, o1)
    /\ do_accesses w (Publish <$> vs) (r1, o1) = Some (r1, o2)
    /\ valid r1 = negb (readerIndex (sync o1) =? -1)
    /\ ScopedReadPtr_deref r1 o2 = ScopedReadPtr_deref r1 o1.
Proof.
  pose proof (attach_attached x garbage) as Ha.
  destruct (attach x garbage) as [[w r] o]. cbn [fst snd] in Ha.
  destruct (do_accesses_attached w history _ Ha) as ([r1 o1] & E1 & Ha1).
  destruct (publications_keep w vs r1 o1 Ha1) as (o2 & E2 & Ha2 & Hr & He).
  exists r1, o1, o2. split; [exact E1|]. split; [exact E2|].
  destruct Ha1 as (_ & _ & Hri & Hv & Hp & _).
  destruct Ha2 as (_ & _ & _ & Hv2 & Hp2 & _). cbn [fst snd] in *.
  split; [exact Hv|].
  assert (Hlow : forall s, population_ok s = true -> -1 <= readerIndex s).
  { intros s Hs. apply population_ok_in_range in Hs. unfold Enum.in_range, slots in Hs.
    apply Forall_cons_1 in Hs as [_ Hs]. apply Forall_cons_1 in Hs as [Hs _]. lia. }
  rewrite !deref_element by auto. exact He.
Qed.

Lemma pulls_attached (w : ScopedWritePtr) (n : nat) :
  forall (r : ScopedReadPtr) (o : shared T),
    attached w (r, o) ->
    exists r' s',
      do_accesses w (replicate n Pull) (r, o) = Some (r', mkShared (data o) s')
      /\ writerIndex s' = writerIndex (sync o).
Proof.
  induction n as [|n IH]; intros r o Ha.
  - exists r, (sync o). split; [|reflexivity]. now destruct o.
  - cbn [replicate do_accesses].
    destruct (pull_step w r o Ha) as (r1 & s1 & E & Ha1 & Hw1 & _). rewrite E.
    destruct (IH r1 _ Ha1) as (r2 & s2 & E2 & Hw2). cbn [sync data] in *.
    exists r2, s2. split; [exact E2 | congruence].
Qed.

(** X8: the write pointer keeps referring to the same instance until
    [pushUpdate()]: after any history, a value assigned through the write
    pointer is still what it refers to after any number of pulls by the
    reader. *)
Theorem writer_keeps_its_instance (x : T) (garbage : AtomicSynchronizer.t)
  (history : list (access T)) (v : T) (n : nat) :
  let '(w, r, o) := attach x garbage in
  exists r1 o1 o2 r3 o3,
    do_accesses w history (r, o) = Some (r1, o1)
    /\ ScopedWritePtr_assign w v o1 = Some o2
    /\ do_accesses w (replicate n Pull) (r1, o2) = Some (r3, o3)
    /\ ScopedWritePtr_deref w o3 = Some v.
Proof.
  pose proof (attach_attached x garbage) as Ha.
  destruct (attach x garbage) as [[w r] o]. cbn [fst snd] in Ha.
  destruct (do_accesses_attached w history _ Ha) as ([r1 o1] & E1 & Ha1).
  pose proof Ha1 as (Hw & Hwi & Hri & Hv & Hp & Hne & Hlen). cbn [fst snd] in *.
  destruct (pushWrite_body_indices _ Hp Hne) as (Hr1 & _).
  assert (Hin : (Z.to_nat (writerIndex (sync o1)) < length (data o1))%nat) by lia.
  destruct (lookup_lt_is_Some_2 _ _ Hin) as [y Hy].
  set (o2 := mkShared (<[Z.to_nat (writerIndex (sync o1)) := v]> (data o1)) (sync o1)).
  assert (E2 : ScopedWritePtr_assign w v o1 = Some o2).
  { unfold ScopedWritePtr_assign, ScopedWriteIndex_int, element. rewrite Hw, Hwi.
    cbn [negb]. destruct (Z.ltb_spec (writerIndex (sync o1)) 0); [lia|].
    now rewrite Hy. }
  assert (Ha2 : attached w (r1, o2)).
  { unfold attached, o2. cbn [fst snd sync data]. rewrite length_insert.
    repeat split; assumption. }
  destruct (pulls_attached w n r1 o2 Ha2) as (r3 & s3 & E3 & Hw3).
  exists r1, o1, o2, r3, (mkShared (data o2) s3).
  repeat (split; [assumption|]).
  unfold ScopedWritePtr_deref, ScopedWriteIndex_int. rewrite Hw, Hwi. cbn [negb sync data].
  rewrite Hw3. unfold o2. cbn [sync data]. now apply element_insert.
Qed.

End Published.

Section Exclusion.
Import AtomicSynchronizer Interleaving.

(** X9: in every interleaving of the atomic accesses of one registered writer
    and one registered reader on a fresh synchronizer, whenever both are
    outside [pushWrite] and [updateReaderIndex] (so that each may be using
    its data instance), the writer's index is one of 0, 1, 2 and differs
    from the reader's index: the two threads never use the same instance. *)
Theorem never_the_same_instance (garbage : t) (sched : list thread) :
  exists c,
    exec sched (idle (snd (start garbage))) = Some c
    /\ (wat c = WIdle -> rat c = RIdle ->
        0 <= writerIndex (mem c) <= 2
        /\ -1 <= readerIndex (mem c) <= 2
        /\ readerIndex (mem c) <> writerIndex (mem c)).
Proof.
  destruct (safe_exec sched _ (safe_start garbage)) as (c & E & Hs).
  exists c. split; [exact E|]. intros Hw Hr.
  unfold safe in Hs. rewrite !andb_true_iff in Hs.
  destruct Hs as (((Hp & Hrange) & Hwat) & _).
  unfold reader_owns in Hp. rewrite Hr in Hp. rewrite Hw in Hwat.
  replace (set_readerIndex (readerIndex (mem c)) (mem c)) with (mem c) in Hp
    by now destruct (mem c).
  apply negb_true_iff, Z.eqb_neq in Hwat.
  destruct (pushWrite_body_indices _ Hp Hwat) as (H1 & _ & H2 & _). lia.
Qed.

End Exclusion.

(** ** [addTrial] and the sizes of the buffers *)

Section Trial.
Import Method CumulativeTFR.
Context {D : Type} `{DoubleOps D}.

Lemma length_alter3 {A : Type} (h : A -> A) (c f k : nat) (v : list (list (list A))) :
  length (alter3 h c f k v) = length v.
Proof. unfold alter3. apply length_alter. Qed.

Lemma trial_taken_start (conv : nat -> nat -> Complex.t D) (chanIt : nat)
  (s0 : CumulativeTFR.t D) :
  trial_taken conv chanIt (fun _ _ => false) s0 s0.
Proof.
  unfold trial_taken. repeat split; try (now destruct s0); try tauto.
  - intros c f k. now rewrite andb_false_r.
  - intros c f k. now rewrite andb_false_r.
Qed.

Lemma trial_taken_ext (conv : nat -> nat -> Complex.t D) (chanIt : nat)
  (d d' : nat -> nat -> bool) (nf nt : nat) (s0 s : CumulativeTFR.t D) :
  matrix_at (spectrumBuffer s0) chanIt nf nt ->
  matrix_at (powBuffer s0) chanIt nf nt ->
  (forall f k, (f < nf)%nat -> (k < nt)%nat -> d f k = d' f k) ->
  trial_taken conv chanIt d s0 s -> trial_taken conv chanIt d' s0 s.
Proof.
  intros HS HP Hd (E & L1 & L2 & M1 & M2 & A1 & A2).
  assert (Hout : forall {A} (v : list (list (list A))) f k,
            matrix_at v chanIt nf nt -> ~ ((f < nf)%nat /\ (k < nt)%nat) ->
            at3 v chanIt f k = None).
  { intros A v f k (m & Hm & Hl & Hr) Hn. unfold at3. rewrite Hm.
    destruct (m !! f) as [r|] eqn:Er; [|reflexivity].
    assert (f < nf)%nat by (apply lookup_lt_Some in Er; lia).
    eapply Forall_lookup_1 in Hr; [|exact Er].
    apply lookup_ge_None. lia. }
  unfold trial_taken. repeat (split; [assumption|]). split.
  - intros c f k. rewrite A1.
    destruct (Nat.eqb_spec c chanIt) as [->|]; [|reflexivity]. cbn [andb].
    destruct (decide ((f < nf)%nat /\ (k < nt)%nat)) as [[Hf Hk]|Hn].
    + now rewrite Hd.
    + rewrite (Hout _ _ _ _ HS Hn). now destruct (d f k), (d' f k).
  - intros c f k. rewrite A2.
    destruct (Nat.eqb_spec c chanIt) as [->|]; [|reflexivity]. cbn [andb].
    destruct (decide ((f < nf)%nat /\ (k < nt)%nat)) as [[Hf Hk]|Hn].
    + now rewrite Hd.
    + rewrite (Hout _ _ _ _ HP Hn). now destruct (d f k), (d' f k).
Qed.

Ltac bools :=
  repeat match goal with
         | |- context [(?a <? ?b)%nat] => destruct (Nat.ltb_spec a b)
         | |- context [(?a =? ?b)%nat] => destruct (Nat.eqb_spec a b)
         end; cbn [andb orb]; try reflexivity; try lia.

(** One iteration of the inner loop. *)
Lemma trial_taken_step (conv : nat -> nat -> Complex.t D) (chanIt : nat)
  (d : nat -> nat -> bool) (nf nt i j : nat) (s0 : CumulativeTFR.t D) :
  matrix_at (spectrumBuffer s0) chanIt nf nt ->
  matrix_at (powBuffer s0) chanIt nf nt ->
  (i < nf)%nat -> (j < nt)%nat -> d i j = false ->
  triple (trial_taken conv chanIt d s0)
    (bind (store_spectrum chanIt i j (conv i j))
       (fun _ => add_power chanIt i j (Complex.norm (conv i j))))
    (fun _ => trial_taken conv chanIt
                (fun f k => d f k || ((f =? i)%nat && (k =? j)%nat)) s0).
Proof.
  intros HS HP Hi Hj Hd s Ht.
  pose proof Ht as (E & L1 & L2 & M1 & M2 & A1 & A2).
  destruct (matrix_at_lookup _ _ _ _ i j (M1 _ _ _ HS) Hi Hj) as [x Hx].
  destruct (matrix_at_lookup _ _ _ _ i j (M2 _ _ _ HP) Hi Hj) as [a Ha].
  unfold bind, store_spectrum, add_power, write. rewrite Hx.
  cbn [powBuffer set_spectrumBuffer]. rewrite Ha.
  eexists tt, _. split; [reflexivity|].
  unfold trial_taken.
  cbn [powBuffer set_powBuffer spectrumBuffer set_spectrumBuffer].
  rewrite !length_alter3.
  split; [|split; [exact L1|split; [exact L2|split; [|split; [|split]]]]].
  - unfold set_powBuffer, set_spectrumBuffer in *. destruct s, s0. cbn in *. congruence.
  - intros c nf' nt' Hm. apply matrix_at_alter3. now apply M1.
  - intros c nf' nt' Hm. apply matrix_at_alter3. now apply M2.
  - intros c f k. rewrite at3_alter3, A1. case_decide as Hc.
    + destruct Hc as (<- & <- & <-). rewrite Hd, !Nat.eqb_refl. cbn [andb orb].
      now destruct (at3 (spectrumBuffer s0) chanIt i j).
    + destruct (d f k); cbn [orb]; [reflexivity|].
      destruct (Nat.eqb_spec c chanIt), (Nat.eqb_spec f i), (Nat.eqb_spec k j);
        cbn [andb]; try reflexivity. subst. tauto.
  - intros c f k. rewrite at3_alter3, A2. case_decide as Hc.
    + destruct Hc as (<- & <- & <-). rewrite Hd, !Nat.eqb_refl. cbn [andb orb].
      reflexivity.
    + destruct (d f k); cbn [orb]; [reflexivity|].
      destruct (Nat.eqb_spec c chanIt), (Nat.eqb_spec f i), (Nat.eqb_spec k j);
        cbn [andb]; try reflexivity. subst. tauto.
Qed.

(** [addTrial] returns, having stored the sample and added its power at every
    frequency and time of the channel. *)
Lemma addTrial_effect (conv : nat -> nat -> Complex.t D) (chanIt : nat)
  (st : CumulativeTFR.t D) :
  matrix_at (spectrumBuffer st) chanIt (Z.to_nat (nFreqs st)) (Z.to_nat (nTimes st)) ->
  matrix_at (powBuffer st) chanIt (Z.to_nat (nFreqs st)) (Z.to_nat (nTimes st)) ->
  exists st',
    addTrial conv chanIt st = Some (tt, st')
    /\ trial_taken conv chanIt (fun _ _ => true) st st'.
Proof.
  intros HS HP.
  set (nf := Z.to_nat (nFreqs st)) in *. set (nt := Z.to_nat (nTimes st)) in *.
  pose (Inv := fun (i : nat) (_ : unit) (s : CumulativeTFR.t D) =>
                 trial_taken conv chanIt (fun f _ => (f <? i)%nat) st s).
  assert (Hloop : triple (Inv 0%nat tt)
            (for_loop 0 nf (fun freq _ =>
               for_loop 0 nt (fun k _ =>
                 bind (store_spectrum chanIt freq k (conv freq k))
                   (fun _ => add_power chanIt freq k (Complex.norm (conv freq k)))) tt) tt)
            (Inv (0 + nf)%nat)).
  { apply triple_for_loop. intros i [] Hi.
    pose (Inv' := fun (j : nat) (_ : unit) (s : CumulativeTFR.t D) =>
                    trial_taken conv chanIt
                      (fun f k => (f <? i)%nat || ((f =? i)%nat && (k <? j)%nat)) st s).
    apply (triple_weaken _ (Inv' 0%nat tt) _ _ (Inv' (0 + nt)%nat)).
    - apply triple_for_loop. intros j [] Hj.
      eapply triple_weaken.
      + apply (trial_taken_step conv chanIt
                 (fun f k => (f <? i)%nat || ((f =? i)%nat && (k <? j)%nat))
                 nf nt i j st HS HP); [lia | lia | bools].
      + intros s Hs. exact Hs.
      + intros [] s Hs. unfold Inv'.
        eapply trial_taken_ext; [exact HS | exact HP | | exact Hs].
        intros f k _ _. cbv beta. bools.
    - intros s Hs. unfold Inv, Inv' in *.
      eapply trial_taken_ext; [exact HS | exact HP | | exact Hs].
      intros f k _ _. cbv beta. bools.
    - intros [] s Hs. unfold Inv, Inv' in *.
      eapply trial_taken_ext; [exact HS | exact HP | | exact Hs].
      intros f k _ Hk. cbv beta. bools. }
  destruct (Hloop st) as ([] & st' & E & Hst').
  { unfold Inv. eapply trial_taken_ext; [exact HS | exact HP | | apply trial_taken_start].
    intros f k _ _. reflexivity. }
  exists st'. split.
  - unfold addTrial, bind, read. exact E.
  - unfold Inv in Hst'. eapply trial_taken_ext; [exact HS | exact HP | | exact Hst'].
    intros f k Hf _. cbv beta. bools.
Qed.


(** X10: on a channel whose spectrum and power buffers have [nFreqs] x
    [nTimes] entries, [addTrial] returns; afterwards
    [spectrumBuffer[chanIt][f][t]] is the sample of the trial and
    [powBuffer[chanIt][f][t]] has received its squared magnitude, for every
    frequency and time; the entries of the other channels, the cross-spectrum
    accumulators and every other member are as before. *)
Theorem addTrial_spec (conv : nat -> nat -> Complex.t D) (chanIt : nat)
  (st : CumulativeTFR.t D) :
  let nf := Z.to_nat (nFreqs st) in
  let nt := Z.to_nat (nTimes st) in
  matrix_at (spectrumBuffer st) chanIt nf nt ->
  matrix_at (powBuffer st) chanIt nf nt ->
  exists st',
    addTrial conv chanIt st = Some (tt, st')
    /\ st' = set_powBuffer (powBuffer st') (set_spectrumBuffer (spectrumBuffer st') st)
    /\ (forall f k, (f < nf)%nat -> (k < nt)%nat ->
          at3 (spectrumBuffer st') chanIt f k = Some (conv f k))
    /\ (forall f k acc, at3 (powBuffer st) chanIt f k = Some acc ->
          at3 (powBuffer st') chanIt f k
          = Some (RealWeightedAccum.addValue (Complex.norm (conv f k)) acc))
    /\ (forall c f k, c <> chanIt ->
          at3 (spectrumBuffer st') c f k = at3 (spectrumBuffer st) c f k
          /\ at3 (powBuffer st') c f k = at3 (powBuffer st) c f k).
Proof.
  intros nf nt HS HP.
  destruct (addTrial_effect conv chanIt st HS HP) as (st' & E & Ht).
  destruct Ht as (Ef & _ & _ & _ & _ & A1 & A2).
  exists st'. split; [exact E|]. split; [exact Ef|]. split; [|split].
  - intros f k Hf Hk. rewrite A1, Nat.eqb_refl. cbn [andb].
    destruct (matrix_at_lookup _ _ _ _ f k HS Hf Hk) as [x ->]. reflexivity.
  - intros f k acc Ha. rewrite A2, Nat.eqb_refl, Ha. reflexivity.
  - intros c f k Hc. rewrite A1, A2. apply Nat.eqb_neq in Hc. rewrite Hc. now split.
Qed.

Lemma at3_cube {A : Type} (n1 n2 n3 : Z) (x : A) (c f k : nat) :
  (c < Z.to_nat n1)%nat -> (f < Z.to_nat n2)%nat -> (k < Z.to_nat n3)%nat ->
  at3 (cube n1 n2 n3 x) c f k = Some x.
Proof.
  intros Hc Hf Hk. unfold at3, cube.
  rewrite (lookup_replicate_2 _ _ _ Hc), (lookup_replicate_2 _ _ _ Hf).
  now apply lookup_replicate_2.
Qed.

Lemma shaped_cube {A : Type} (n1 n2 n3 : Z) (x : A) :
  shaped (Z.to_nat n1) (Z.to_nat n2) (Z.to_nat n3) (cube n1 n2 n3 x).
Proof.
  unfold shaped, cube. split; [apply length_replicate|].
  intros c Hc. eexists. split; [now apply lookup_replicate_2|].
  split; [apply length_replicate|].
  apply Forall_replicate. apply length_replicate.
Qed.

Lemma construct_well_formed (ng1 ng2 nf nt : Z) (a : D)
  (wavelets : list (list (Complex.t D))) :
  well_formed ng1 ng2 (construct ng1 ng2 nf nt a wavelets).
Proof.
  unfold well_formed, construct. cbn [nFreqs nTimes spectrumBuffer powBuffer pxys].
  repeat split; try apply shaped_cube.
Qed.

End Trial.

Lemma addTrial_spec_witness :
  exists st',
    CumulativeTFR.addTrial (fun _ _ => Complex.mk 3%Q 4%Q) 0
      (CumulativeTFR.construct 1 1 1 2 0%Q []) = Some (tt, st')
    /\ CumulativeTFR.at3 (CumulativeTFR.spectrumBuffer st') 0 0 1 = Some (Complex.mk 3%Q 4%Q).
Proof.
  destruct (addTrial_spec (fun _ _ => Complex.mk 3%Q 4%Q) 0%nat
              (CumulativeTFR.construct 1 1 1 2 0%Q []))
    as (st' & E & _ & Hs & _).
  - eexists. split; [reflexivity|]. split; [reflexivity | repeat constructor].
  - eexists. split; [reflexivity|]. split; [reflexivity | repeat constructor].
  - exists st'. split; [exact E|]. apply Hs; vm_compute; lia.
Defined.

Section Served.
Import Method CumulativeTFR.
Context {D F : Type} `{DoubleOps D} `{DoubleSqrt D} `{SingleOps D F}.

Lemma addTrial_well_formed (ng1 ng2 : Z) (conv : nat -> nat -> Complex.t D)
  (chanIt : nat) (st : CumulativeTFR.t D) :
  well_formed ng1 ng2 st -> (chanIt < Z.to_nat (ng1 + ng2))%nat ->
  exists st',
    addTrial conv chanIt st = Some (tt, st')
    /\ well_formed ng1 ng2 st'
    /\ nFreqs st' = nFreqs st /\ nTimes st' = nTimes st /\ pxys st' = pxys st.
Proof.
  intros ((LS & HS) & (LP & HP) & (LC & HC)) Hr.
  destruct (addTrial_effect conv chanIt st (HS _ Hr) (HP _ Hr))
    as (st' & E & Ef & L1 & L2 & M1 & M2 & _).
  exists st'. split; [exact E|].
  assert (Hn : nFreqs st' = nFreqs st /\ nTimes st' = nTimes st /\ pxys st' = pxys st).
  { rewrite Ef. now destruct st. }
  destruct Hn as (Hnf & Hnt & Hpx).
  split; [|now repeat split].
  unfold well_formed. rewrite Hnf, Hnt, Hpx.
  split; [|split]; split; try congruence; auto.
Qed.

End Served.

(** ** The read of the times of interest *)

Section Read.
Import Method CumulativeTFR.

Lemma times_within_spec (g : Transformed.timing) (nt : nat) (n : Z) :
  Transformed.times_within g nt n = true ->
  forall t, (t < nt)%nat -> exists i, Transformed.tIndex g t = Some i /\ 0 <= i < n.
Proof.
  unfold Transformed.times_within. rewrite forallb_forall. intros Hall t Ht.
  specialize (Hall t). rewrite in_seq in Hall.
  destruct (Transformed.tIndex g t) as [i|]; [|discriminate Hall; lia].
  exists i. split; [reflexivity|].
  assert (Hi : (0 <=? i) && (i <? n) = true) by (apply Hall; lia).
  apply andb_true_iff in Hi as [H0 Hn]. apply Z.leb_le in H0. apply Z.ltb_lt in Hn. lia.
Qed.

(** While every time of interest is inside the inverse transforms, [addTrial]
    is the method on the samples it reads. *)
Lemma addTrial_reads (g : Transformed.timing) (ifft : nat -> list (Complex.t float))
  (chanIt : nat) (st : CumulativeTFR.t float) :
  Transformed.times_within g (Z.to_nat (nTimes st)) (Transformed.nfft g) = true ->
  (forall freq, (freq < Z.to_nat (nFreqs st))%nat ->
                length (ifft freq) = Z.to_nat (Transformed.nfft g)) ->
  Transformed.addTrial g ifft chanIt st = addTrial (Transformed.sample g ifft) chanIt st.
Proof.
  intros Ht Hlen. unfold Transformed.addTrial, addTrial, bind, read.
  apply for_loop_ext. intros freq [] s Hfreq.
  apply for_loop_ext. intros t [] s' Htime.
  unfold bind, check, read, Transformed.sample.
  destruct (times_within_spec g _ _ Ht t) as (i & Ei & Hi); [lia|].
  rewrite Ei. unfold Transformed.getAsComplex.
  destruct (Z.ltb_spec i 0) as [|_]; [lia|].
  destruct (lookup_lt_is_Some_2 (ifft freq) (Z.to_nat i)) as [z ->];
    [rewrite Hlen by lia; lia|].
  reflexivity.
Qed.

(** X20: the bound on the times of interest is needed.  On an engine with
    at least one frequency, if the index [int((t * stepLen + trimTime) * Fs)]
    of some time of interest [t < nTimes] is not inside the inverse transform
    of [nfft] entries (it is [nfft] or more, or negative, or no [int]), then
    [addTrial] reads [ifftBuffer] out of range, whatever the buffers of the
    engine hold. *)
Theorem addTrial_past_the_end (g : Transformed.timing)
  (ifft : nat -> list (Complex.t float)) (chanIt : nat) (st : CumulativeTFR.t float) :
  1 <= nFreqs st ->
  length (ifft 0%nat) = Z.to_nat (Transformed.nfft g) ->
  Transformed.times_within g (Z.to_nat (nTimes st)) (Transformed.nfft g) = false ->
  Transformed.addTrial g ifft chanIt st = None.
Proof.
  intros Hnf Hlen Ht.
  destruct (Transformed.addTrial g ifft chanIt st) as [r|] eqn:E; [|reflexivity].
  exfalso. unfold Transformed.addTrial, bind, read in E.
  destruct (for_loop_returns _ _ _ _ _ _ E 0%nat) as ([] & s1 & E1); [lia|].
  destruct (for_loop 0 (Z.to_nat (nTimes st)) _ tt s1) as [r1|] eqn:E2; [|now apply E1].
  unfold Transformed.times_within in Ht.
  assert (Hex : exists t, (t < Z.to_nat (nTimes st))%nat
                          /\ match Transformed.tIndex g t with
                             | Some i => (0 <=? i) && (i <? Transformed.nfft g)
                             | None => false
                             end = false).
  { destruct (forallb _ (seq 0 (Z.to_nat (nTimes st)))) eqn:Ef in Ht; [discriminate|].
    clear Ht. apply not_true_iff_false in Ef.
    destruct (List.existsb
                (fun t => negb match Transformed.tIndex g t with
                               | Some i => (0 <=? i) && (i <? Transformed.nfft g)
                               | None => false
                               end) (seq 0 (Z.to_nat (nTimes st)))) eqn:Ee.
    - apply existsb_exists in Ee as (t & Hin & Hneg). apply in_seq in Hin.
      exists t. split; [lia|]. now apply negb_true_iff in Hneg.
    - exfalso. apply Ef. apply forallb_forall. intros t Hin.
      destruct (match Transformed.tIndex g t with
                | Some i => (0 <=? i) && (i <? Transformed.nfft g)
                | None => false
                end) eqn:Eb; [reflexivity|].
      assert (Hc : List.existsb
                (fun t => negb match Transformed.tIndex g t with
                               | Some i => (0 <=? i) && (i <? Transformed.nfft g)
                               | None => false
                               end) (seq 0 (Z.to_nat (nTimes st))) = true).
      { apply existsb_exists. exists t. split; [exact Hin|]. now rewrite Eb. }
      congruence. }
  destruct Hex as (t & Htlt & Hout).
  destruct (for_loop_returns _ _ _ _ _ _ E2 t) as ([] & s2 & E3); [lia|].
  apply E3. unfold bind, check, read.
  destruct (Transformed.tIndex g t) as [i|]; [|reflexivity].
  unfold Transformed.getAsComplex.
  destruct (Z.ltb_spec i 0) as [|Hi0]; [reflexivity|].
  rewrite lookup_ge_None_2; [reflexivity|].
  apply andb_false_iff in Hout as [Hout | Hout].
  - apply Z.leb_gt in Hout. lia.
  - apply Z.ltb_ge in Hout. lia.
Qed.

Lemma serve_well_formed (g : Transformed.timing) (ng1 ng2 : Z) (r : request)
  (st : CumulativeTFR.t float) :
  well_formed ng1 ng2 st -> within g ng1 ng2 (nFreqs st) r ->
  Transformed.times_within g (Z.to_nat (nTimes st)) (Transformed.nfft g) = true ->
  exists st',
    serve g r st = Some (tt, st')
    /\ well_formed ng1 ng2 st'
    /\ nFreqs st' = nFreqs st /\ nTimes st' = nTimes st.
Proof.
  intros ((LS & HS) & (LP & HP) & (LC & HC)) Hr Ht.
  destruct r as [ifft chanIt | itX itY meanDest comb |]; cbn [within serve] in *.
  - destruct Hr as [Hr Hlen]. rewrite (addTrial_reads g ifft chanIt st Ht Hlen).
    destruct (addTrial_well_formed ng1 ng2 (Transformed.sample g ifft) chanIt st)
      as (st' & E & Hw & Hf & Hn & _).
    { repeat split; assumption. }
    { exact Hr. }
    exists st'. repeat (split; [assumption|]). assumption.
  - destruct Hr as (HX & HY & HCo & Hlen).
    pose proof (getMeanCoherence_refines st itX itY comb meanDest
                  (HS _ HX) (HS _ HY) (HP _ HX) (HP _ HY) (HC _ HCo) Hlen) as E.
    cbv zeta in E. unfold bind. rewrite E. eexists. split; [reflexivity|].
    split; [|now split].
    unfold well_formed. cbn [nFreqs nTimes set_pxys spectrumBuffer powBuffer pxys].
    split; [now split|]. split; [now split|].
    unfold Estimator.cross_accumulated. split; [now rewrite length_alter|].
    intros c Hc. apply matrix_at_alter; [|now apply HC].
    intros m [Hl Hrows]. split; [now rewrite length_imap|].
    apply Forall_lookup. intros f r. rewrite list_lookup_imap.
    destruct (m !! f) as [r0|] eqn:Er; [|discriminate]. intros [= <-].
    eapply Forall_lookup_1 in Hrows; [|exact Er]. now rewrite length_imap.
  - destruct Hr as [Hg Hf]. unfold bind.
    rewrite (getPowerForChannels_refines (F := spec_float) st (Z.to_nat (nFreqs st))
               (Z.to_nat (nTimes st))).
    + eexists. split; [reflexivity|]. repeat split; assumption.
    + lia.
    + lia.
    + intros chn Hchn. apply HP. lia.
Qed.

(** X11: the three public methods keep their accesses within the buffers.
    On an engine constructed for [ng1] and [ng2] channels, [nf] frequencies
    and [nt] times (none of them negative), take any sequence of calls of
    [addTrial], [getMeanCoherence] and [getPowerForChannels] whose channel
    and pair indices are within those sizes and whose [meanDest] has [nf]
    entries, the inverse transforms being arrays of [nfft] entries.  If the
    index [int((t * stepLen + trimTime) * Fs)] of every time of interest
    [t < nt], computed in [float], is below [nfft], then every read of
    [ifftBuffer] at a time of interest and every access to [spectrumBuffer],
    [powBuffer], [pxys] and [meanDest] in the sequence is in range: the
    calls return, and leave the buffers with the sizes the constructor gave
    them.  The forward transform, the product with the wavelets and the
    inverse transform are given, not run: their accesses are not part of the
    statement. *)
Theorem requests_within_are_served (g : Transformed.timing) (ng1 ng2 nf nt : Z)
  (a : float) (wavelets : list (list (Complex.t float))) (rs : list request) :
  0 <= ng1 -> 0 <= ng2 -> 0 <= nf -> 0 <= nt ->
  Transformed.times_within g (Z.to_nat nt) (Transformed.nfft g) = true ->
  Forall (within g ng1 ng2 nf) rs ->
  exists st',
    serve_all g rs (construct ng1 ng2 nf nt a wavelets) = Some (tt, st')
    /\ well_formed ng1 ng2 st' /\ nFreqs st' = nf /\ nTimes st' = nt.
Proof.
  intros _ _ _ _ Htimes Hrs.
  assert (Hgen : forall st, well_formed ng1 ng2 st -> nFreqs st = nf -> nTimes st = nt ->
            exists st', serve_all g rs st = Some (tt, st')
                        /\ well_formed ng1 ng2 st' /\ nFreqs st' = nf /\ nTimes st' = nt).
  { induction Hrs as [|r rs Hr Hrs IH]; intros st Hw Hf Ht.
    - exists st. split; [reflexivity|]. split; [assumption|]. split; assumption.
    - cbn [serve_all]. unfold bind.
      destruct (serve_well_formed g ng1 ng2 r st Hw) as (st1 & E & Hw1 & Hf1 & Ht1).
      { now rewrite Hf. }
      { now rewrite Ht. }
      rewrite E. apply IH; congruence. }
  apply Hgen; [apply construct_well_formed | reflexivity | reflexivity].
Qed.

End Read.

(** With the defaults of the constructor (a window of 2 s, a step of 0.1 s,
    transforms of 10 s), here at 10 samples per second: [nfft] is 100, the
    times of interest 0 to 89 are inside the transform, and time 90 has index
    100, one past its end. *)
Lemma default_times_of_interest :
  exists g,
    Transformed.construct 10 (Single.of_int 2) (Single.of_double 0x1.999999999999ap-4%float)
      10%float = Some g
    /\ Transformed.nfft g = 100 /\ Transformed.trimTime g = 1
    /\ Transformed.times_within g 90 (Transformed.nfft g) = true
    /\ Transformed.tIndex g 90 = Some 100
    /\ Transformed.times_within g 91 (Transformed.nfft g) = false.
Proof.
  eexists. split; [vm_compute; reflexivity|]. repeat split; vm_compute; reflexivity.
Qed.

Lemma addTrial_past_the_end_witness :
  let g := Transformed.mkTiming 10 100 (Single.of_int 2)
             (Single.of_double 0x1.999999999999ap-4%float) 1 in
  Transformed.tIndex g 90 = Some 100
  /\ Transformed.addTrial g (fun _ => replicate 100 (Complex.mk 3%float 4%float)) 0
       (CumulativeTFR.construct 1 1 1 91 0%float []) = None.
Proof.
  cbv zeta. split; [vm_compute; reflexivity|].
  apply addTrial_past_the_end.
  - cbn. lia.
  - reflexivity.
  - vm_compute. reflexivity.
Defined.

Lemma requests_within_are_served_witness :
  let g := Transformed.mkTiming 10 100 (Single.of_int 2)
             (Single.of_double 0x1.999999999999ap-4%float) 1 in
  exists st',
    serve_all g
      [AddTrial (fun _ => replicate 100 (Complex.mk 3%float 4%float)) 0;
       AddTrial (fun _ => replicate 100 (Complex.mk 1%float 2%float)) 1;
       GetMeanCoherence 0 1 [0%float] 0;
       GetPowerForChannels]
      (CumulativeTFR.construct 1 1 1 2 0%float []) = Some (tt, st').
Proof.
  cbv zeta.
  destruct (requests_within_are_served
              (Transformed.mkTiming 10 100 (Single.of_int 2)
                 (Single.of_double 0x1.999999999999ap-4%float) 1)
              1 1 1 2 0%float []
              [AddTrial (fun _ => replicate 100 (Complex.mk 3%float 4%float)) 0;
               AddTrial (fun _ => replicate 100 (Complex.mk 1%float 2%float)) 1;
               GetMeanCoherence 0 1 [0%float] 0;
               GetPowerForChannels])
    as (st' & E & _); try lia.
  - vm_compute. reflexivity.
  - repeat constructor; cbn; lia.
  - exists st'. exact E.
Defined.

(** ** The estimator in exact arithmetic *)

Section SingleTrial.
Import Method CumulativeTFR Estimator.
Context `{DoubleSqrt Q}.
Local Open Scope Q_scope.

Lemma first_real_average (a x : Q) :
  RealWeightedAccum.getAverage (RealWeightedAccum.addValue x (RealWeightedAccum.make a))
  == x.
Proof.
  unfold RealWeightedAccum.getAverage, RealWeightedAccum.addValue, RealWeightedAccum.make.
  cbn [RealWeightedAccum.count RealWeightedAccum.sum RealWeightedAccum.alpha].
  assert (Hc : to_size_t (of_int 1 + (of_int 1 - a) * of_int 0)%D = 1%Z).
  { apply Qtrunc_inject. cbn. ring. }
  rewrite Hc. cbn. field.
Qed.

Lemma first_complex_average (a : Q) (z : Complex.t Q) :
  Complex.re (ComplexWeightedAccum.getAverage
                (ComplexWeightedAccum.addValue z (ComplexWeightedAccum.make a)))
  == Complex.re z
  /\ Complex.im (ComplexWeightedAccum.getAverage
                   (ComplexWeightedAccum.addValue z (ComplexWeightedAccum.make a)))
     == Complex.im z.
Proof.
  unfold ComplexWeightedAccum.getAverage, ComplexWeightedAccum.addValue,
    ComplexWeightedAccum.make.
  cbn [ComplexWeightedAccum.count ComplexWeightedAccum.sum ComplexWeightedAccum.alpha].
  assert (Hc : to_size_t (of_int 1 + (of_int 1 - a) * of_int 0)%D = 1%Z).
  { apply Qtrunc_inject. cbn. ring. }
  rewrite Hc. cbn. split; field.
Qed.

Lemma single_coherence_one (px py : Q) (pxy x y : Complex.t Q) :
  px == Complex.norm x -> py == Complex.norm y ->
  Complex.re pxy == Complex.re (Complex.mul x (Complex.conj y)) ->
  Complex.im pxy == Complex.im (Complex.mul x (Complex.conj y)) ->
  ~ Complex.norm x == 0 -> ~ Complex.norm y == 0 ->
  singleCoherence px py pxy == 1.
Proof.
  unfold singleCoherence, Complex.norm, Complex.mul, Complex.conj.
  cbn [Complex.re Complex.im dadd dsub dmul ddiv dopp QDouble].
  intros Hx Hy Hr Hi Nx Ny. rewrite Hx, Hy, Hr, Hi. field. split; assumption.
Qed.

Lemma total_ones (cs : list Q) :
  Forall (fun c => c == 1) cs ->
  forall acc, fold_left Qplus cs acc == acc + inject_Z (Z.of_nat (length cs)).
Proof.
  induction 1 as [|c cs Hc _ IH]; intros acc.
  - cbn. ring.
  - cbn [fold_left length]. rewrite IH, Hc, Nat2Z.inj_succ.
    unfold Z.succ. rewrite inject_Z_plus. ring.
Qed.

Lemma mean_ones (cs : list Q) :
  Forall (fun c => c == 1) cs -> (1 <= length cs)%nat -> mean cs == 1.
Proof.
  intros Hcs Hlen. unfold mean, total.
  destruct (Z.ltb_spec 0 (Z.of_nat (length cs))) as [_|]; [|lia].
  cbn [dadd ddiv of_int QDouble]. rewrite (total_ones cs Hcs).
  field. intros E. unfold Qeq in E. cbn in E. lia.
Qed.


(** X12: in exact arithmetic and for every [alpha], the coherence of two
    different channels after one trial on each is one: on a fresh engine,
    [addTrial] on [itX], [addTrial] on [itY] and [getMeanCoherence] return,
    and every mean coherence is 1, wherever the samples of both channels are
    not zero.  (The first [addValue] of an accumulator leaves the count 1 and
    the sum the value, and |x conj(y)|^2 = |x|^2 |y|^2.) *)
Theorem single_trial_coherence_is_one (ng1 ng2 nf nt : Z) (a : Q)
  (wavelets : list (list (Complex.t Q))) (convX convY : nat -> nat -> Complex.t Q)
  (itX itY comb : nat) (meanDest : list Q) :
  (itX < Z.to_nat (ng1 + ng2))%nat -> (itY < Z.to_nat (ng1 + ng2))%nat -> itX <> itY ->
  (comb < Z.to_nat (ng1 * ng2))%nat ->
  (0 <= nf)%Z -> (Z.to_nat nf <= length meanDest)%nat -> (1 <= nt)%Z ->
  (forall f k, (f < Z.to_nat nf)%nat -> (k < Z.to_nat nt)%nat ->
     ~ Complex.norm (convX f k) == 0 /\ ~ Complex.norm (convY f k) == 0) ->
  exists s1 s2 s3 mean' std',
    addTrial convX itX (construct ng1 ng2 nf nt a wavelets) = Some (tt, s1)
    /\ addTrial convY itY s1 = Some (tt, s2)
    /\ getMeanCoherence itX itY meanDest comb s2 = Some (mean', std', s3)
    /\ forall f, (f < Z.to_nat nf)%nat -> exists m, mean' !! f = Some m /\ m == 1.
Proof.
  intros HX HY Hne HC _ Hlen Hnt Hnz.
  set (s0 := construct ng1 ng2 nf nt a wavelets).
  pose proof (construct_well_formed ng1 ng2 nf nt a wavelets) as Hw0. fold s0 in Hw0.
  destruct Hw0 as ((_ & HS0) & (_ & HP0) & (_ & HC0)).
  change (nFreqs s0) with nf in *. change (nTimes s0) with nt in *.
  destruct (addTrial_effect convX itX s0 (HS0 _ HX) (HP0 _ HX))
    as (s1 & E1 & Ef1 & _ & _ & MS1 & MP1 & AS1 & AP1).
  assert (Hn1 : nFreqs s1 = nf /\ nTimes s1 = nt /\ pxys s1 = pxys s0)
    by (rewrite Ef1; repeat split; reflexivity).
  destruct Hn1 as (Hf1 & Ht1 & Hp1).
  destruct (addTrial_effect convY itY s1) as (s2 & E2 & Ef2 & _ & _ & MS2 & MP2 & AS2 & AP2).
  { rewrite Hf1, Ht1. apply MS1, HS0, HY. }
  { rewrite Hf1, Ht1. apply MP1, HP0, HY. }
  assert (Hn2 : nFreqs s2 = nf /\ nTimes s2 = nt /\ pxys s2 = pxys s0)
    by (rewrite Ef2, <- Hp1, <- Hf1, <- Ht1; repeat split; reflexivity).
  destruct Hn2 as (Hf2 & Ht2 & Hp2).
  pose proof (getMeanCoherence_refines s2 itX itY comb meanDest) as E3.
  cbv zeta in E3. rewrite Hf2, Ht2, Hp2 in E3.
  specialize (E3 (MS2 _ _ _ (MS1 _ _ _ (HS0 _ HX))) (MS2 _ _ _ (MS1 _ _ _ (HS0 _ HY)))
                (MP2 _ _ _ (MP1 _ _ _ (HP0 _ HX))) (MP2 _ _ _ (MP1 _ _ _ (HP0 _ HY)))
                (HC0 _ HC) Hlen).
  eexists s1, s2, _, _, _. split; [exact E1|]. split; [exact E2|]. split; [exact E3|].
  intros f Hf. rewrite list_lookup_imap.
  destruct (lookup_lt_is_Some_2 meanDest f) as [old ->]; [lia|].
  cbn [fmap option_fmap option_map]. apply Nat.ltb_lt in Hf. rewrite Hf.
  apply Nat.ltb_lt in Hf. eexists. split; [reflexivity|].
  apply mean_ones.
  - unfold coherences. cbn [nTimes set_pxys]. rewrite Ht2.
    apply List.Forall_forall. intros c Hin. apply in_map_iff in Hin as (k & <- & Hk).
    apply in_seq in Hk. assert (Hk' : (k < Z.to_nat nt)%nat) by lia.
    destruct (Hnz f k Hf Hk') as [NX NY].
    assert (Ene : (itY =? itX)%nat = false) by (apply Nat.eqb_neq; congruence).
    assert (Ene' : (itX =? itY)%nat = false) by (apply Nat.eqb_neq; congruence).
    assert (SX : at3 (spectrumBuffer s2) itX f k = Some (convX f k)).
    { rewrite AS2, Ene', AS1, Nat.eqb_refl. cbn [andb].
      unfold s0, construct. cbn [spectrumBuffer]. now rewrite at3_cube. }
    assert (SY : at3 (spectrumBuffer s2) itY f k = Some (convY f k)).
    { rewrite AS2, Nat.eqb_refl, AS1, Ene. cbn [andb].
      unfold s0, construct. cbn [spectrumBuffer]. now rewrite at3_cube. }
    assert (PX : at3 (powBuffer s2) itX f k
                 = Some (RealWeightedAccum.addValue (Complex.norm (convX f k))
                           (RealWeightedAccum.make a))).
    { rewrite AP2, Ene', AP1, Nat.eqb_refl. cbn [andb].
      unfold s0, construct. cbn [powBuffer]. now rewrite at3_cube. }
    assert (PY : at3 (powBuffer s2) itY f k
                 = Some (RealWeightedAccum.addValue (Complex.norm (convY f k))
                           (RealWeightedAccum.make a))).
    { rewrite AP2, Nat.eqb_refl, AP1, Ene. cbn [andb].
      unfold s0, construct. cbn [powBuffer]. now rewrite at3_cube. }
    unfold coherence, mean_power, mean_cross.
    cbn [powBuffer set_pxys pxys]. rewrite at3_cross_accumulated, PX, PY, Hp2.
    unfold cross_product. rewrite SX, SY.
    unfold s0 at 1, construct. cbn [pxys]. rewrite at3_cube by lia.
    cbn [fmap option_fmap option_map default from_option id].
    destruct (first_complex_average a (Complex.mul (convX f k) (Complex.conj (convY f k))))
      as [Hre Him].
    apply (single_coherence_one _ _ _ (convX f k) (convY f k));
      auto using first_real_average.
  - unfold coherences. rewrite length_map, length_seq. cbn [nTimes set_pxys]. lia.
Qed.

End SingleTrial.

Lemma single_trial_coherence_is_one_witness :
  exists s1 s2 s3 mean' std',
    CumulativeTFR.addTrial (fun _ _ => Complex.mk 3%Q 4%Q) 0
      (CumulativeTFR.construct 1 1 1 2 (1 # 2)%Q []) = Some (tt, s1)
    /\ CumulativeTFR.addTrial (fun _ _ => Complex.mk 1%Q 2%Q) 1 s1 = Some (tt, s2)
    /\ CumulativeTFR.getMeanCoherence (H0 := Build_DoubleSqrt Q (fun x => x))
         0 1 [0%Q] 0 s2 = Some (mean', std', s3)
    /\ exists m, mean' !! 0%nat = Some m /\ (m == 1)%Q.
Proof.
  destruct (single_trial_coherence_is_one (H := Build_DoubleSqrt Q (fun x => x))
              1 1 1 2 (1 # 2)%Q []
              (fun _ _ => Complex.mk 3%Q 4%Q) (fun _ _ => Complex.mk 1%Q 2%Q)
              0%nat 1%nat 0%nat [0%Q])
    as (s1 & s2 & s3 & m & sd & E1 & E2 & E3 & Hm).
  - cbn. lia.
  - cbn. lia.
  - discriminate.
  - cbn. lia.
  - lia.
  - cbn. lia.
  - lia.
  - intros f k _ _. split; intros E; vm_compute in E; discriminate E.
  - exists s1, s2, s3, m, sd. repeat (split; [assumption|]). apply Hm. cbn. lia.
Defined.

Section Discounted.
Local Open Scope Q_scope.

Lemma Qtrunc_ge_1 (q : Q) : 1 <= q -> (1 <= Qtrunc q)%Z.
Proof.
  destruct q as [n d]. unfold Qle, Qtrunc. cbn. intros Hq.
  apply Z.quot_le_lower_bound; lia.
Qed.

Lemma count_stays_one (a : Q) (c : Z) :
  0 < a -> a <= 1 -> (c = 0 \/ c = 1)%Z ->
  to_size_t (of_int 1 + (of_int 1 - a) * of_int c)%D = 1%Z.
Proof.
  intros Ha Ha1 [-> | ->]; cbn.
  - apply Qtrunc_inject. ring.
  - assert (E : inject_Z 1 + (inject_Z 1 - a) * inject_Z 1 == 2 - a) by ring.
    apply Qtrunc_one; rewrite E; lra.
Qed.

Lemma discounted_cons (a x : Q) (xs : list Q) :
  discounted a (x :: xs) == x * (1 - a) ^ Z.of_nat (length xs) + discounted a xs.
Proof.
  unfold discounted. cbn [imap Qsum fold_right length].
  replace (S (length xs) - 1 - 0)%nat with (length xs) by lia.
  apply Qplus_comp; [reflexivity|].
  erewrite imap_ext; [reflexivity|].
  intros k y _. cbn. now replace (length xs - 0 - S k)%nat with (length xs - 1 - k)%nat by lia.
Qed.

Lemma Qpower_succ (b : Q) (n : nat) : b ^ Z.of_nat (S n) == b * b ^ Z.of_nat n.
Proof.
  rewrite Nat2Z.inj_succ. unfold Z.succ. rewrite Z.add_comm.
  rewrite Qpower_plus' by lia. reflexivity.
Qed.

Lemma real_discounted (a : Q) (xs : list Q) :
  0 < a -> a <= 1 ->
  forall acc : RealWeightedAccum.t Q,
    RealWeightedAccum.alpha acc = a ->
    (RealWeightedAccum.count acc = 0 \/ RealWeightedAccum.count acc = 1)%Z ->
    let acc' := RealWeightedAccum.addValues xs acc in
    RealWeightedAccum.alpha acc' = a
    /\ (xs <> [] -> RealWeightedAccum.count acc' = 1%Z)
    /\ RealWeightedAccum.sum acc'
       == RealWeightedAccum.sum acc * (1 - a) ^ Z.of_nat (length xs) + discounted a xs.
Proof.
  intros Ha Ha1. induction xs as [|x xs IH]; intros acc Hal Hc.
  - cbn zeta. split; [exact Hal|]. split; [congruence|].
    unfold discounted, Qsum. cbn [RealWeightedAccum.addValues fold_left length imap fold_right].
    change ((1 - a) ^ Z.of_nat 0) with 1. ring.
  - cbn zeta. unfold RealWeightedAccum.addValues. cbn [fold_left].
    fold (RealWeightedAccum.addValues xs (RealWeightedAccum.addValue x acc)).
    assert (Hc1 : RealWeightedAccum.count (RealWeightedAccum.addValue x acc) = 1%Z).
    { unfold RealWeightedAccum.addValue. cbn [RealWeightedAccum.count].
      rewrite Hal. now apply count_stays_one. }
    destruct (IH (RealWeightedAccum.addValue x acc)) as (H1 & H2 & H3).
    { unfold RealWeightedAccum.addValue. exact Hal. }
    { right. exact Hc1. }
    split; [exact H1|]. split.
    + intros _. destruct xs as [|y ys]; [exact Hc1 | apply H2; discriminate].
    + rewrite H3, discounted_cons. cbn [length]. rewrite Qpower_succ.
      unfold RealWeightedAccum.addValue. cbn [RealWeightedAccum.sum]. rewrite Hal.
      cbn [dadd dsub dmul of_int QDouble]. change (inject_Z 1) with 1. ring.
Qed.

(** X13: in exact arithmetic and for [0 < alpha <= 1], the count of a real
    accumulator is 1 after every [addValue] (the conversion to [size_t]
    truncates [2 - alpha]), so that [getAverage()] returns the sum itself:
    each value multiplied by [1 - alpha] once for every later value, added up,
    and divided by no total weight. *)
Theorem weighted_average_is_discounted_sum (a : Q) (xs : list Q) :
  0 < a -> a <= 1 -> xs <> [] ->
  RealWeightedAccum.count (RealWeightedAccum.addValues xs (RealWeightedAccum.make a)) = 1%Z
  /\ RealWeightedAccum.getAverage
       (RealWeightedAccum.addValues xs (RealWeightedAccum.make a))
     == discounted a xs.
Proof.
  intros Ha Ha1 Hxs.
  destruct (real_discounted a xs Ha Ha1 (RealWeightedAccum.make a) eq_refl)
    as (_ & Hc & Hs); [now left|].
  specialize (Hc Hxs). split; [exact Hc|].
  unfold RealWeightedAccum.getAverage. rewrite Hc. cbn [Z.ltb Z.compare].
  rewrite Hs. cbn. field.
Qed.

End Discounted.

Lemma weighted_average_is_discounted_sum_witness :
  (RealWeightedAccum.getAverage
     (RealWeightedAccum.addValues [1; 2; 6] (RealWeightedAccum.make (1 # 2)))
   == discounted (1 # 2) [1; 2; 6])%Q.
Proof.
  destruct (weighted_average_is_discounted_sum (1 # 2)%Q [1; 2; 6]%Q) as [_ E];
    [reflexivity | discriminate | discriminate | exact E].
Defined.

Section Bounded.
Local Open Scope Q_scope.

Lemma Qsquare_nonneg (x : Q) : 0 <= x * x.
Proof. nra. Qed.

Lemma Qsquare_le (u v : Q) : 0 <= v -> u * u <= v * v -> u <= v.
Proof.
  intros Hv H. destruct (Qlt_le_dec v u) as [Hlt|]; [|assumption].
  assert (v * v < u * u) by nra. lra.
Qed.

Lemma Qscale_le (b x y : Q) : 0 <= b -> x <= y -> b * x <= b * y.
Proof. intros. nra. Qed.

Lemma Qproduct_nonneg (x y : Q) : 0 <= x -> 0 <= y -> 0 <= x * y.
Proof. intros. nra. Qed.

(** The step of the Cauchy-Schwarz inequality. *)
Lemma cross_bound_step (b p q P Q' al be A B : Q) :
  0 <= b -> 0 <= al -> 0 <= be -> 0 <= A -> 0 <= B ->
  p * p + q * q == al * be -> P * P + Q' * Q' <= A * B ->
  (p + b * P) * (p + b * P) + (q + b * Q') * (q + b * Q')
  <= (al + b * A) * (be + b * B).
Proof.
  intros Hb Hal Hbe HA HB Hpq HPQ.
  assert (Hu : 2 * (p * P + q * Q') <= al * B + be * A).
  { apply Qsquare_le.
    - pose proof (Qproduct_nonneg _ _ Hal HB). pose proof (Qproduct_nonneg _ _ Hbe HA). lra.
    - assert (E1 : (p * P + q * Q') * (p * P + q * Q')
                   + (p * Q' - q * P) * (p * Q' - q * P)
                   == (p * p + q * q) * (P * P + Q' * Q')) by ring.
      assert (E2 : (p * p + q * q) * (P * P + Q' * Q') == (al * be) * (P * P + Q' * Q'))
        by (rewrite Hpq; reflexivity).
      pose proof (Qsquare_nonneg (p * Q' - q * P)) as S1.
      pose proof (Qsquare_nonneg (al * B - be * A)) as S2.
      pose proof (Qscale_le (al * be) _ _ (Qproduct_nonneg _ _ Hal Hbe) HPQ) as M.
      lra. }
  pose proof (Qscale_le (b * b) _ _ (Qproduct_nonneg _ _ Hb Hb) HPQ) as F1.
  pose proof (Qscale_le b _ _ Hb Hu) as F2.
  lra.
Qed.


Lemma in_step_make (a : Q) :
  in_step a (RealWeightedAccum.make a) (RealWeightedAccum.make a)
    (ComplexWeightedAccum.make a).
Proof.
  unfold in_step. cbn. change (inject_Z 0) with 0.
  repeat split; try reflexivity; try lia; lra.
Qed.

Lemma in_step_addValue (a : Q) (x y : Complex.t Q)
  (px py : RealWeightedAccum.t Q) (pxy : ComplexWeightedAccum.t Q) :
  0 <= a -> a <= 1 -> in_step a px py pxy ->
  in_step a (RealWeightedAccum.addValue (Complex.norm x) px)
    (RealWeightedAccum.addValue (Complex.norm y) py)
    (ComplexWeightedAccum.addValue (Complex.mul x (Complex.conj y)) pxy)
  /\ (1 <= RealWeightedAccum.count (RealWeightedAccum.addValue (Complex.norm x) px))%Z.
Proof.
  intros Ha Ha1 (Ax & Ay & Axy & Cy & Cxy & Cx & Sx & Sy & Hb).
  destruct x as [xr xi], y as [yr yi].
  destruct px as [sx cx ax], py as [sy cy ay], pxy as [[Sr Si] cxy axy].
  cbn in Ax, Ay, Axy, Cy, Cxy, Cx, Sx, Sy, Hb. subst ax ay axy cy cxy.
  assert (Hc : (1 <= to_size_t (of_int 1 + (of_int 1 - a) * of_int cx)%D)%Z).
  { apply Qtrunc_ge_1. cbn.
    assert (0 <= inject_Z cx) by (unfold Qle; cbn; lia).
    assert (0 <= (inject_Z 1 - a) * inject_Z cx).
    { apply Qproduct_nonneg; [|assumption]. change (inject_Z 1) with 1. lra. }
    change (inject_Z 1) with 1 in *. lra. }
  split; [|exact Hc].
  unfold in_step, RealWeightedAccum.addValue, ComplexWeightedAccum.addValue.
  cbn [RealWeightedAccum.alpha RealWeightedAccum.count RealWeightedAccum.sum
       ComplexWeightedAccum.alpha ComplexWeightedAccum.count ComplexWeightedAccum.sum].
  repeat (split; [reflexivity|]). split; [lia|].
  unfold Complex.norm, Complex.mul, Complex.conj, Complex.add, Complex.scale,
    Complex.of_real.
  cbn [Complex.re Complex.im dadd dsub dmul dopp of_int QDouble].
  unfold Complex.mul. cbn [Complex.re Complex.im dadd dsub dmul dopp of_int QDouble].
  change (inject_Z 1) with 1. change (inject_Z 0) with 0.
  pose proof (Qsquare_nonneg xr). pose proof (Qsquare_nonneg xi).
  pose proof (Qsquare_nonneg yr). pose proof (Qsquare_nonneg yi).
  assert (Hb1 : 0 <= 1 - a) by lra.
  pose proof (Qproduct_nonneg _ _ Hb1 Sx). pose proof (Qproduct_nonneg _ _ Hb1 Sy).
  split; [lra|]. split; [lra|].
  pose proof (cross_bound_step (1 - a) (xr * yr - xi * - yi) (xr * - yi + xi * yr)
                Sr Si (xr * xr + xi * xi) (yr * yr + yi * yi) sx sy) as Hstep.
  assert (E : (xr * yr - xi * - yi) * (xr * yr - xi * - yi)
              + (xr * - yi + xi * yr) * (xr * - yi + xi * yr)
              == (xr * xr + xi * xi) * (yr * yr + yi * yi)) by ring.
  specialize (Hstep Hb1 ltac:(lra) ltac:(lra) Sx Sy E Hb).
  lra.
Qed.

Lemma in_step_addValues (a : Q) (xys : list (Complex.t Q * Complex.t Q)) :
  0 <= a -> a <= 1 ->
  forall px py pxy, in_step a px py pxy ->
  let px' := RealWeightedAccum.addValues
               (List.map (fun xy => Complex.norm (fst xy)) xys) px in
  let py' := RealWeightedAccum.addValues
               (List.map (fun xy => Complex.norm (snd xy)) xys) py in
  let pxy' := ComplexWeightedAccum.addValues
                (List.map (fun xy => Complex.mul (fst xy) (Complex.conj (snd xy))) xys)
                pxy in
  in_step a px' py' pxy'
  /\ (xys <> [] -> (1 <= RealWeightedAccum.count px')%Z).
Proof.
  intros Ha Ha1. induction xys as [|[x y] l IH]; intros px py pxy Hs.
  - cbn. split; [exact Hs | congruence].
  - cbn zeta. unfold RealWeightedAccum.addValues, ComplexWeightedAccum.addValues.
    cbn [List.map fold_left fst snd].
    destruct (in_step_addValue a x y px py pxy Ha Ha1 Hs) as [Hs1 Hc1].
    destruct (IH _ _ _ Hs1) as [Hs2 Hc2]. split; [exact Hs2|]. intros _.
    destruct l as [|xy l']; [exact Hc1 | apply Hc2; discriminate].
Qed.

(** X14: in exact arithmetic and for [0 <= alpha <= 1], the coherence
    computed from the accumulators of two channels that received the same
    trials lies between 0 and 1, whatever the samples: the power accumulators
    having received [|x|^2] and [|y|^2] as [addTrial] adds them and the
    cross-spectrum accumulator [x conj(y)] as [getMeanCoherence] adds it,
    trial by trial, [singleCoherence] of the three averages is in [0, 1]
    whenever the two average powers are not zero. *)
Theorem coherence_between_zero_and_one (a : Q) (xys : list (Complex.t Q * Complex.t Q)) :
  0 <= a -> a <= 1 ->
  let px := RealWeightedAccum.addValues
              (List.map (fun xy => Complex.norm (fst xy)) xys)
              (RealWeightedAccum.make a) in
  let py := RealWeightedAccum.addValues
              (List.map (fun xy => Complex.norm (snd xy)) xys)
              (RealWeightedAccum.make a) in
  let pxy := ComplexWeightedAccum.addValues
               (List.map (fun xy => Complex.mul (fst xy) (Complex.conj (snd xy))) xys)
               (ComplexWeightedAccum.make a) in
  ~ RealWeightedAccum.getAverage px == 0 ->
  ~ RealWeightedAccum.getAverage py == 0 ->
  0 <= CumulativeTFR.singleCoherence (RealWeightedAccum.getAverage px)
         (RealWeightedAccum.getAverage py) (ComplexWeightedAccum.getAverage pxy)
  /\ CumulativeTFR.singleCoherence (RealWeightedAccum.getAverage px)
       (RealWeightedAccum.getAverage py) (ComplexWeightedAccum.getAverage pxy) <= 1.
Proof.
  intros Ha Ha1 px py pxy.
  destruct (in_step_addValues a xys Ha Ha1 _ _ _ (in_step_make a)) as [Hs Hc].
  fold px py pxy in Hs, Hc.
  destruct Hs as (_ & _ & _ & Cy & Cxy & Cx & Sx & Sy & Hb).
  unfold RealWeightedAccum.getAverage, ComplexWeightedAccum.getAverage.
  rewrite Cy, Cxy.
  destruct (Z.ltb_spec 0 (RealWeightedAccum.count px)) as [Hpos|Hz];
    [|intros Hx; exfalso; apply Hx; reflexivity].
  set (c := inject_Z (RealWeightedAccum.count px)).
  assert (Hcpos : 0 < c) by (unfold c, Qlt; cbn; lia).
  cbn [of_int ddiv QDouble]. fold c.
  intros Nx Ny.
  assert (Hsx : 0 < RealWeightedAccum.sum px).
  { destruct (Qlt_le_dec 0 (RealWeightedAccum.sum px)) as [|Hle]; [assumption|].
    exfalso. apply Nx. assert (E : RealWeightedAccum.sum px == 0) by lra.
    rewrite E. field. lra. }
  assert (Hsy : 0 < RealWeightedAccum.sum py).
  { destruct (Qlt_le_dec 0 (RealWeightedAccum.sum py)) as [|Hle]; [assumption|].
    exfalso. apply Ny. assert (E : RealWeightedAccum.sum py == 0) by lra.
    rewrite E. field. lra. }
  set (sx := RealWeightedAccum.sum px) in *. set (sy := RealWeightedAccum.sum py) in *.
  set (Sr := Complex.re (ComplexWeightedAccum.sum pxy)) in *.
  set (Si := Complex.im (ComplexWeightedAccum.sum pxy)) in *.
  assert (E : CumulativeTFR.singleCoherence (sx / c) (sy / c)
                (Complex.div_real (ComplexWeightedAccum.sum pxy) c)
              == (Sr * Sr + Si * Si) / (sx * sy)).
  { unfold CumulativeTFR.singleCoherence, Complex.norm, Complex.div_real.
    cbn [Complex.re Complex.im dadd dmul ddiv QDouble]. fold Sr Si.
    field. repeat split; lra. }
  rewrite E.
  assert (Hprod : 0 < sx * sy) by nra.
  split.
  - apply Qle_shift_div_l; [exact Hprod|].
    pose proof (Qsquare_nonneg Sr). pose proof (Qsquare_nonneg Si). lra.
  - apply Qle_shift_div_r; [exact Hprod|]. lra.
Qed.

End Bounded.

Lemma coherence_between_zero_and_one_witness :
  let xys := [(Complex.mk 3 4, Complex.mk 1 2); (Complex.mk 1 0, Complex.mk 0 1)]%Q in
  (CumulativeTFR.singleCoherence
     (RealWeightedAccum.getAverage
        (RealWeightedAccum.addValues (List.map (fun xy => Complex.norm (fst xy)) xys)
           (RealWeightedAccum.make (1 # 4))))
     (RealWeightedAccum.getAverage
        (RealWeightedAccum.addValues (List.map (fun xy => Complex.norm (snd xy)) xys)
           (RealWeightedAccum.make (1 # 4))))
     (ComplexWeightedAccum.getAverage
        (ComplexWeightedAccum.addValues
           (List.map (fun xy => Complex.mul (fst xy) (Complex.conj (snd xy))) xys)
           (ComplexWeightedAccum.make (1 # 4))))
   <= 1)%Q.
Proof.
  cbv zeta.
  apply (coherence_between_zero_and_one (1 # 4)%Q
           [(Complex.mk 3 4, Complex.mk 1 2); (Complex.mk 1 0, Complex.mk 0 1)]%Q).
  - discriminate.
  - discriminate.
  - intros E. vm_compute in E. discriminate E.
  - intros E. vm_compute in E. discriminate E.
Defined.

(** ** The channel groups and the analysis thread *)

Section Groups.
Import CoherenceNode.

Lemma contains_In (l : list Z) (x : Z) : contains l x = true <-> In x l.
Proof.
  unfold contains. rewrite existsb_exists. split.
  - intros (y & Hy & E). apply Z.eqb_eq in E. now subst.
  - intros Hx. exists x. split; [exact Hx | apply Z.eqb_refl].
Qed.

Lemma find_spec (l : list Z) (x : Z) :
  0 <= find l x <= Z.of_nat (length l)
  /\ (forall j, (j < Z.to_nat (find l x))%nat -> l !! j <> Some x)
  /\ (In x l -> l !! Z.to_nat (find l x) = Some x)
  /\ (~ In x l -> find l x = Z.of_nat (length l)).
Proof.
  induction l as [|y l (IH1 & IH2 & IH3 & IH4)].
  - cbn. repeat split; try lia; try tauto.
  - cbn [find length]. destruct (Z.eqb_spec y x) as [->|Hne].
    + split; [lia|]. split; [intros j Hj; cbn in Hj; lia|]. split; [reflexivity|].
      intros Hn. exfalso. apply Hn. now left.
    + split; [lia|]. split; [|split].
      * intros [|j] Hj; cbn; [congruence|]. apply IH2. lia.
      * intros [E|Hin]; [congruence|].
        replace (Z.to_nat (1 + find l x)) with (S (Z.to_nat (find l x))) by lia.
        cbn. now apply IH3.
      * intros Hn. rewrite IH4; [lia|]. intros Hin. apply Hn. now right.
Qed.

Lemma groupIt_below (g1 g2 : list Z) (n0 : t) (chan g : Z) :
  groupIt (updateGroup g1 g2 n0) chan = Some g ->
  0 <= g < Z.of_nat (length g1) + Z.of_nat (length g2).
Proof.
  unfold groupIt, getChanGroup, getGroupIt, updateGroup.
  cbn [group1Channels group2Channels nGroup1Chans nGroup2Chans].
  destruct (find_spec g1 chan) as (A1 & _ & A3 & _).
  destruct (find_spec g2 chan) as (B1 & _ & B3 & _).
  destruct (contains g1 chan) eqn:C1.
  - apply contains_In in C1. change (1 =? -1) with false. change (1 =? 1) with true.
    cbn [negb]. intros [= <-]. apply A3, lookup_lt_Some in C1. lia.
  - destruct (contains g2 chan) eqn:C2.
    + apply contains_In in C2. change (2 =? -1) with false. change (2 =? 1) with false.
      change (2 =? 2) with true. cbn [negb]. intros [= <-].
      apply B3, lookup_lt_Some in C2. lia.
    + change (-1 =? -1) with true. cbn [negb]. discriminate.
Qed.

(** X15: once [updateGroup] has set the groups, the slot that [process] and
    [run] compute for a channel ([groupIt]) is the first position of the
    channel in the first group followed by the second: it is below
    [nGroup1Chans + nGroup2Chans], that position holds the channel and no
    earlier one does; a channel of neither group has no slot.  So a channel
    that is in both groups, or twice in one, only ever fills its first
    slot. *)
Theorem groupIt_is_first_position (g1 g2 : list Z) (n0 : t) (chan : Z) :
  let n := updateGroup g1 g2 n0 in
  match groupIt n chan with
  | Some i =>
      0 <= i < nGroup1Chans n + nGroup2Chans n
      /\ (g1 ++ g2) !! Z.to_nat i = Some chan
      /\ forall j, (j < Z.to_nat i)%nat -> (g1 ++ g2) !! j <> Some chan
  | None => ~ In chan (g1 ++ g2)
  end.
Proof.
  cbn zeta. unfold groupIt, getChanGroup, getGroupIt, updateGroup.
  cbn [group1Channels group2Channels nGroup1Chans nGroup2Chans].
  destruct (find_spec g1 chan) as (A1 & A2 & A3 & A4).
  destruct (find_spec g2 chan) as (B1 & B2 & B3 & B4).
  destruct (contains g1 chan) eqn:C1.
  - apply contains_In in C1. change (1 =? -1) with false. change (1 =? 1) with true.
    cbn [negb].
    pose proof (A3 C1) as Hl. pose proof (lookup_lt_Some _ _ _ Hl) as Hlt.
    split; [lia|]. split.
    + rewrite lookup_app_l by exact Hlt. exact Hl.
    + intros j Hj. rewrite lookup_app_l by lia. now apply A2.
  - assert (N1 : ~ In chan g1) by (rewrite <- contains_In; congruence).
    destruct (contains g2 chan) eqn:C2.
    + apply contains_In in C2. change (2 =? -1) with false. change (2 =? 1) with false.
      change (2 =? 2) with true. cbn [negb].
      pose proof (B3 C2) as Hl. pose proof (lookup_lt_Some _ _ _ Hl) as Hlt.
      split; [lia|]. split.
      * rewrite lookup_app_r by lia.
        replace (Z.to_nat (find g2 chan + Z.of_nat (length g1)) - length g1)%nat
          with (Z.to_nat (find g2 chan)) by lia.
        exact Hl.
      * intros j Hj. destruct (Nat.lt_ge_cases j (length g1)) as [Hlt1|Hge].
        -- rewrite lookup_app_l by exact Hlt1. intros E. apply N1.
           apply list_elem_of_In. eapply list_elem_of_lookup_2. exact E.
        -- rewrite lookup_app_r by exact Hge. apply B2. lia.
    + change (-1 =? -1) with true. cbn [negb]. intros Hin. apply in_app_iff in Hin as [Hin|Hin];
        [tauto|]. apply contains_In in Hin. congruence.
Qed.


Lemma fold_add_default (numInputs : Z) (xs : list Z) :
  forall n,
    group1Channels (fold_left (add_default numInputs) xs n)
    = group1Channels n ++ List.filter (fun i => i <? Z.quot numInputs 2) xs
    /\ group2Channels (fold_left (add_default numInputs) xs n)
       = group2Channels n ++ List.filter (fun i => negb (i <? Z.quot numInputs 2)) xs.
Proof.
  induction xs as [|x xs IH]; intros n.
  - cbn. now rewrite !app_nil_r.
  - cbn [fold_left List.filter]. destruct (IH (add_default numInputs n x)) as [-> ->].
    unfold add_default. destruct (x <? Z.quot numInputs 2); cbn [negb group1Channels
      group2Channels]; now rewrite <- ?app_assoc.
Qed.

Lemma filter_below (h : Z) (m : nat) :
  0 <= h ->
  List.filter (fun i => i <? h) (Z.of_nat <$> seq 0 m)
  = Z.of_nat <$> seq 0 (Nat.min m (Z.to_nat h)).
Proof.
  intros Hh. induction m as [|m IH]; [reflexivity|].
  rewrite seq_S, fmap_app, List.filter_app, IH. cbn [fmap list_fmap List.filter plus].
  destruct (Z.ltb_spec (Z.of_nat m) h).
  - replace (Nat.min (S m) (Z.to_nat h)) with (S (Nat.min m (Z.to_nat h))) by lia.
    rewrite seq_S, fmap_app. cbn. repeat f_equal. lia.
  - rewrite app_nil_r. f_equal. f_equal. lia.
Qed.

Lemma filter_above (h : Z) (m : nat) :
  0 <= h ->
  List.filter (fun i => negb (i <? h)) (Z.of_nat <$> seq 0 m)
  = Z.of_nat <$> seq (Z.to_nat h) (m - Z.to_nat h).
Proof.
  intros Hh. induction m as [|m IH]; [reflexivity|].
  rewrite seq_S, fmap_app, List.filter_app, IH. cbn [fmap list_fmap List.filter plus].
  destruct (Z.ltb_spec (Z.of_nat m) h); cbn [negb].
  - rewrite app_nil_r. replace (S m - Z.to_nat h)%nat with 0%nat by lia.
    replace (m - Z.to_nat h)%nat with 0%nat by lia. reflexivity.
  - replace (S m - Z.to_nat h)%nat with (S (m - Z.to_nat h)) by lia.
    rewrite seq_S, fmap_app. cbn. repeat f_equal. lia.
Qed.

Lemma find_seq (x : Z) (m : nat) :
  forall a : nat,
    find (Z.of_nat <$> seq a m) x
    = if (Z.of_nat a <=? x) && (x <? Z.of_nat a + Z.of_nat m) then x - Z.of_nat a
      else Z.of_nat m.
Proof.
  induction m as [|m IH]; intros a; cbn [seq fmap list_fmap find]; rewrite ?IH;
    repeat match goal with
           | |- context [Z.leb ?u ?v] => destruct (Z.leb_spec u v)
           | |- context [Z.ltb ?u ?v] => destruct (Z.ltb_spec u v)
           | |- context [Z.eqb ?u ?v] => destruct (Z.eqb_spec u v)
           end; cbn [andb]; lia.
Qed.

Lemma contains_seq (x : Z) (a m : nat) :
  contains (Z.of_nat <$> seq a m) x = (Z.of_nat a <=? x) && (x <? Z.of_nat a + Z.of_nat m).
Proof.
  apply eq_true_iff_eq. rewrite contains_In, andb_true_iff, Z.leb_le, Z.ltb_lt.
  rewrite <- list_elem_of_In, list_elem_of_fmap. split.
  - intros (k & -> & Hk). apply list_elem_of_In, in_seq in Hk. lia.
  - intros Hx. exists (Z.to_nat x). split; [lia|]. apply list_elem_of_In, in_seq. lia.
Qed.

(** X16: when there are inputs and no groups yet, [updateSettings] puts the
    inputs below [numInputs / 2] into the first group and the others into
    the second, in order; the sizes are those of the two halves,
    [nGroupCombs] their product, and the slot of every input channel is the
    channel number itself. *)
Theorem default_groups_are_the_two_halves (numInputs : Z) (n : t) :
  0 < numInputs -> group1Channels n = [] -> group2Channels n = [] ->
  let h := Z.quot numInputs 2 in
  let n' := updateSettings numInputs n in
  group1Channels n' = Z.of_nat <$> seq 0 (Z.to_nat h)
  /\ group2Channels n' = Z.of_nat <$> seq (Z.to_nat h) (Z.to_nat (numInputs - h))
  /\ nGroup1Chans n' = h /\ nGroup2Chans n' = numInputs - h
  /\ nGroupCombs n' = h * (numInputs - h)
  /\ forall chan, 0 <= chan < numInputs -> groupIt n' chan = Some chan.
Proof.
  intros Hpos H1 H2 h n'.
  assert (Hh : 0 <= h <= numInputs).
  { unfold h. split; [apply Z.quot_pos; lia|]. apply Z.quot_le_upper_bound; lia. }
  assert (G : group1Channels n' = Z.of_nat <$> seq 0 (Z.to_nat h)
              /\ group2Channels n' = Z.of_nat <$> seq (Z.to_nat h) (Z.to_nat (numInputs - h))
              /\ nGroup1Chans n' = h /\ nGroup2Chans n' = numInputs - h
              /\ nGroupCombs n' = h * (numInputs - h)).
  { unfold n', updateSettings. destruct (Z.ltb_spec 0 numInputs); [|lia].
    rewrite H1. change (Z.of_nat (length []) =? 0) with true. cbv iota.
    destruct (fold_add_default numInputs (Z.of_nat <$> seq 0 (Z.to_nat numInputs)) n)
      as [E1 E2].
    fold h in E1, E2. rewrite H1 in E1. rewrite H2 in E2. cbn [app] in E1, E2.
    rewrite filter_below in E1 by lia. rewrite filter_above in E2 by lia.
    replace (Nat.min (Z.to_nat numInputs) (Z.to_nat h)) with (Z.to_nat h) in E1 by lia.
    replace (Z.to_nat numInputs - Z.to_nat h)%nat with (Z.to_nat (numInputs - h)) in E2
      by lia.
    cbn [group1Channels group2Channels nGroup1Chans nGroup2Chans nGroupCombs].
    rewrite E1, E2, !length_fmap, !length_seq, !Z2Nat.id by lia.
    repeat split; reflexivity. }
  destruct G as (G1 & G2 & G3 & G4 & G5).
  repeat (split; [assumption|]).
  intros chan Hc. unfold groupIt, getChanGroup, getGroupIt. rewrite G1, G2, G3.
  rewrite !contains_seq, !find_seq.
  destruct (Z.ltb_spec chan h) as [Hlt|Hge].
  - replace ((Z.of_nat 0 <=? chan) && (chan <? Z.of_nat 0 + Z.of_nat (Z.to_nat h)))
      with true by (symmetry; apply andb_true_iff; split; [apply Z.leb_le | apply Z.ltb_lt]; lia).
    change (1 =? -1) with false. change (1 =? 1) with true. cbn [negb]. f_equal. lia.
  - replace ((Z.of_nat 0 <=? chan) && (chan <? Z.of_nat 0 + Z.of_nat (Z.to_nat h)))
      with false by (symmetry; apply andb_false_iff; right; apply Z.ltb_ge; lia).
    replace ((Z.of_nat (Z.to_nat h) <=? chan)
             && (chan <? Z.of_nat (Z.to_nat h) + Z.of_nat (Z.to_nat (numInputs - h))))
      with true by (symmetry; apply andb_true_iff; split; [apply Z.leb_le | apply Z.ltb_lt]; lia).
    change (2 =? -1) with false. change (2 =? 1) with false. change (2 =? 2) with true.
    cbn [negb]. f_equal. lia.
Qed.

End Groups.

Lemma default_groups_are_the_two_halves_witness :
  CoherenceNode.group1Channels
    (CoherenceNode.updateSettings 5 (CoherenceNode.mk [] [] 0 0 0)) = [0; 1]
  /\ CoherenceNode.group2Channels
       (CoherenceNode.updateSettings 5 (CoherenceNode.mk [] [] 0 0 0)) = [2; 3; 4].
Proof.
  destruct (default_groups_are_the_two_halves 5 (CoherenceNode.mk [] [] 0 0 0))
    as (G1 & G2 & _); [lia | reflexivity | reflexivity |].
  split; [exact G1 | exact G2].
Defined.

Section Settings.
Import CoherenceNode.

Lemma attribute_name_inj (i j : nat) : attribute_name i = attribute_name j -> i = j.
Proof.
  unfold attribute_name. cbn. intros E. injection E as E. now apply pretty_nat_inj in E.
Qed.

Lemma lookup_set_channels (group : list Z) :
  forall (i j : nat) (node : gmap string Z),
    set_channels i group node !! attribute_name j =
    if decide (i <= j < i + length group)%nat then group !! (j - i)%nat
    else node !! attribute_name j.
Proof.
  induction group as [|c g IH]; intros i j node; cbn [set_channels length].
  - case_decide; [lia | reflexivity].
  - rewrite IH. destruct (decide (j = i)) as [->|Hne].
    + rewrite lookup_insert_eq. replace (i - i)%nat with 0%nat by lia.
      repeat case_decide; try lia. reflexivity.
    + rewrite lookup_insert_ne by (intros E; apply attribute_name_inj in E; lia).
      repeat case_decide; try lia; try reflexivity.
      replace (j - i)%nat with (S (j - S i)) by lia. reflexivity.
Qed.

Lemma load_set_channels (g : list Z) :
  Forall (fun c => c <> -1) g ->
  forall (fuel i : nat) (acc : list Z),
    load_channels (set_channels 0 g ∅) i fuel acc = acc ++ take fuel (drop i g).
Proof.
  intros Hg. induction fuel as [|fuel IH]; intros i acc; cbn [load_channels].
  - now rewrite take_0, app_nil_r.
  - rewrite lookup_set_channels, lookup_empty.
    case_decide as Hi.
    + replace (i - 0)%nat with i by lia.
      destruct (lookup_lt_is_Some_2 g i) as [c Hc]; [lia|]. rewrite Hc.
      cbn [default from_option id].
      assert (c <> -1) by (eapply Forall_lookup_1 in Hg; eauto).
      destruct (Z.eqb_spec c (-1)); [congruence|]. cbn [negb].
      rewrite IH, <- app_assoc. f_equal.
      rewrite (drop_S g c i Hc). reflexivity.
    + cbn. rewrite drop_ge by lia. now rewrite take_nil, app_nil_r.
Qed.

(** X17: the groups written by [saveCustomParametersToXml] and read back by
    [loadCustomParametersFromXml] are the groups that were saved, cut to the
    number of active inputs at the time of loading: channel numbers other
    than -1 come back in order, a group longer than [numActiveInputs] loses
    its tail, and [nGroup1Chans], [nGroup2Chans] and [nGroupCombs] are not
    assigned by the loading. *)
Theorem groups_saved_and_loaded (numActiveInputs : nat) (n n0 : t) :
  Forall (fun c => c <> -1) (group1Channels n) ->
  Forall (fun c => c <> -1) (group2Channels n) ->
  let n' := loadCustomParametersFromXml numActiveInputs (saveCustomParametersToXml n) n0 in
  group1Channels n' = take numActiveInputs (group1Channels n)
  /\ group2Channels n' = take numActiveInputs (group2Channels n)
  /\ nGroup1Chans n' = nGroup1Chans n0 /\ nGroup2Chans n' = nGroup2Chans n0
  /\ nGroupCombs n' = nGroupCombs n0
  /\ ((length (group1Channels n) <= numActiveInputs)%nat ->
      (length (group2Channels n) <= numActiveInputs)%nat ->
      group1Channels n' = group1Channels n /\ group2Channels n' = group2Channels n).
Proof.
  intros H1 H2 n'. unfold n', loadCustomParametersFromXml, saveCustomParametersToXml.
  cbn [group1Channels group2Channels nGroup1Chans nGroup2Chans nGroupCombs Group1 Group2].
  rewrite !load_set_channels by assumption. cbn [app]. rewrite !drop_0.
  repeat split; try reflexivity; now apply take_ge.
Qed.

End Settings.

Lemma groups_saved_and_loaded_witness :
  CoherenceNode.group1Channels
    (CoherenceNode.loadCustomParametersFromXml 2
       (CoherenceNode.saveCustomParametersToXml (CoherenceNode.mk [4; 0; 7] [1] 3 1 3))
       (CoherenceNode.mk [] [] 0 0 0))
  = [4; 0].
Proof.
  destruct (groups_saved_and_loaded 2 (CoherenceNode.mk [4; 0; 7] [1] 3 1 3)
              (CoherenceNode.mk [] [] 0 0 0)) as (E & _).
  - repeat constructor; discriminate.
  - repeat constructor; discriminate.
  - exact E.
Defined.

Section Sizes.
Import AtomicSynchronizer AtomicallyShared CoherenceNode.
Context {D : Type} `{DoubleOps D}.

Lemma alter_all {A : Type} (f : A -> A) (m : nat) :
  forall (v : list A),
    fold_left (fun v c => alter f c v) (seq 0 m) v
    = imap (fun i x => if (i <? m)%nat then f x else x) v.
Proof.
  induction m as [|m IH]; intros v.
  - cbn. apply list_eq. intros i. rewrite list_lookup_imap. now destruct (v !! i).
  - rewrite seq_S, fold_left_app, IH. cbn [fold_left plus].
    apply list_eq. intros i. rewrite list_lookup_imap.
    destruct (decide (i = m)) as [->|Hne].
    + rewrite list_lookup_alter_eq, list_lookup_imap. destruct (v !! m); [|reflexivity].
      cbn [fmap option_fmap option_map]. rewrite Nat.ltb_irrefl.
      destruct (Nat.ltb_spec m (S m)); [reflexivity | lia].
    + rewrite list_lookup_alter_ne by congruence. rewrite list_lookup_imap.
      destruct (v !! i); [|reflexivity]. cbn [fmap option_fmap option_map].
      destruct (Nat.ltb_spec i m), (Nat.ltb_spec i (S m)); try reflexivity; lia.
Qed.

Lemma resize_rows (nc nf : nat) (vec : list (list D)) :
  fold_left (fun vec comb => alter (resize nf (of_int 0)) comb vec) (seq 0 nc)
    (resize nc [] vec)
  = resize nf (of_int 0) <$> resize nc [] vec.
Proof.
  rewrite alter_all. apply list_eq. intros i.
  rewrite list_lookup_imap, list_lookup_fmap.
  destruct (resize nc [] vec !! i) eqn:E; [|reflexivity].
  cbn [fmap option_fmap option_map]. apply lookup_lt_Some in E.
  rewrite length_resize in E. destruct (Nat.ltb_spec i nc); [reflexivity | lia].
Qed.

(** X18: [updateMeanCoherenceSize], for sizes that are not negative: when
    neither a reader nor a writer is registered on [meanCoherence], each of
    its three instances is resized to [nGroupCombs] rows (the rows it had
    are kept, new ones are empty) and then every row to [nFreqs] entries
    (the entries it had are kept, new ones are zero), the indices of the
    synchronizer being as before; while a pointer is registered, nothing is
    changed. *)
Theorem updateMeanCoherenceSize_spec (nGroupCombs nFreqs : Z)
  (meanCoherence : shared (list (list D))) :
  0 <= nGroupCombs -> 0 <= nFreqs ->
  updateMeanCoherenceSize nGroupCombs nFreqs meanCoherence =
    if (nReaders (sync meanCoherence) =? 0) && (nWriters (sync meanCoherence) =? 0)
    then mkShared
           ((fun vec => resize (Z.to_nat nFreqs) (of_int 0)
                          <$> resize (Z.to_nat nGroupCombs) [] vec)
              <$> data meanCoherence)
           (sync meanCoherence)
    else meanCoherence.
Proof.
  intros _ _. unfold updateMeanCoherenceSize.
  destruct meanCoherence as [d s]. unfold map. cbn [sync data].
  destruct (lockout_ctor_dtor s) as [Hv Hd].
  destruct (ScopedLockout_ctor s) as [l s1]. cbn [fst snd] in Hv, Hd.
  rewrite Hd, Hv. destruct ((nReaders s =? 0) && (nWriters s =? 0)); cbn [negb snd].
  - f_equal. apply map_ext. intros vec. apply resize_rows.
  - reflexivity.
Qed.

End Sizes.

Lemma updateMeanCoherenceSize_spec_witness :
  AtomicallyShared.data
    (CoherenceNode.updateMeanCoherenceSize 2 1
       (AtomicallyShared.construct [[5%Q; 6%Q]] AtomicSynchronizer.pristine))
  = [[[5%Q]; [0%Q]]; [[5%Q]; [0%Q]]; [[5%Q]; [0%Q]]].
Proof.
  rewrite (updateMeanCoherenceSize_spec 2 1
             (AtomicallyShared.construct [[5%Q; 6%Q]] AtomicSynchronizer.pristine));
    [reflexivity | lia | lia].
Defined.

Section Cycle.
Import Method CumulativeTFR Estimator CoherenceNode.
Context {D : Type} `{DoubleOps D} `{DoubleSqrt D}.

Lemma lookup_imap_upto_ge {A : Type} (g : nat -> A -> A) (l : list A) (j i : nat) :
  (j <= i)%nat -> imap_upto j g l !! i = l !! i.
Proof.
  intros Hi. unfold imap_upto. rewrite list_lookup_imap.
  destruct (l !! i); [|reflexivity]. cbn [fmap option_fmap option_map].
  destruct (Nat.ltb_spec i j); [lia | reflexivity].
Qed.

Lemma lookup_imap_upto_lt {A : Type} (g : nat -> A -> A) (l : list A) (j i : nat) :
  (i < j)%nat -> imap_upto j g l !! i = g i <$> l !! i.
Proof.
  intros Hi. unfold imap_upto. rewrite list_lookup_imap.
  destruct (l !! i); [|reflexivity]. cbn [fmap option_fmap option_map].
  destruct (Nat.ltb_spec i j); [reflexivity | lia].
Qed.

Lemma insert_imap_upto_old {A : Type} (g : nat -> A -> A) (l : list A) (j : nat) (x : A) :
  l !! j = Some x -> <[j := g j x]> (imap_upto j g l) = imap_upto (S j) g l.
Proof.
  intros Hx. rewrite <- imap_upto_S. apply list_eq. intros i.
  destruct (decide (i = j)) as [->|Hne].
  - rewrite list_lookup_alter_eq, list_lookup_insert_eq.
    + rewrite lookup_imap_upto_ge, Hx by lia. reflexivity.
    + rewrite length_imap_upto. now apply lookup_lt_Some in Hx.
  - rewrite list_lookup_alter_ne, list_lookup_insert_ne by congruence. reflexivity.
Qed.

Lemma shaped_pairs (s1 : CumulativeTFR.t D) (n1 n2 j n nf nt : nat) :
  shaped n nf nt (pxys s1) ->
  shaped n nf nt (imap_upto j (pair_cross s1 n1 n2) (pxys s1)).
Proof.
  intros [Hl Hm]. split; [now rewrite length_imap_upto|].
  intros c Hc. destruct (Hm c Hc) as (m & Em & Hlen & Hrows).
  destruct (Nat.lt_ge_cases c j) as [Hlt|Hge].
  - exists (pair_cross s1 n1 n2 c m). rewrite lookup_imap_upto_lt, Em by exact Hlt.
    split; [reflexivity|]. unfold pair_cross. split; [now rewrite length_imap|].
    apply Forall_lookup. intros f r. rewrite list_lookup_imap.
    destruct (m !! f) as [r0|] eqn:Er; [|discriminate]. intros [= <-].
    eapply Forall_lookup_1 in Hrows; [|exact Er]. now rewrite length_imap.
  - exists m. rewrite lookup_imap_upto_ge by exact Hge. auto.
Qed.

Lemma after_pairs_well_formed (ng1 ng2 : Z) (s1 : CumulativeTFR.t D) (n1 n2 j : nat) :
  well_formed ng1 ng2 s1 -> well_formed ng1 ng2 (after_pairs s1 n1 n2 j).
Proof.
  intros (HS & HP & HC). unfold well_formed, after_pairs.
  cbn [nFreqs nTimes set_pxys spectrumBuffer powBuffer pxys].
  split; [exact HS|]. split; [exact HP|]. now apply shaped_pairs.
Qed.

(** One pair: the call of [getMeanCoherence] in the loop of [run()]. *)
Lemma pair_step (s1 : CumulativeTFR.t D) (n1 n2 c : nat) (row : list D) :
  well_formed (Z.of_nat n1) (Z.of_nat n2) s1 -> (c < n1 * n2)%nat ->
  (Z.to_nat (nFreqs s1) <= length row)%nat ->
  exists std,
    getMeanCoherence (c / n2) (c mod n2 + n1) row c (after_pairs s1 n1 n2 c)
    = Some (pair_row s1 n1 n2 c row, std, after_pairs s1 n1 n2 (S c)).
Proof.
  intros Hw Hc Hrow.
  assert (Hn2 : (0 < n2)%nat) by (destruct n2; lia).
  assert (Hx : (c / n2 < Z.to_nat (Z.of_nat n1 + Z.of_nat n2))%nat).
  { assert (c / n2 < n1)%nat by (apply Nat.Div0.div_lt_upper_bound; lia). lia. }
  assert (Hy : (c mod n2 + n1 < Z.to_nat (Z.of_nat n1 + Z.of_nat n2))%nat).
  { pose proof (Nat.mod_upper_bound c n2). lia. }
  assert (Hc' : (c < Z.to_nat (Z.of_nat n1 * Z.of_nat n2))%nat) by lia.
  destruct (after_pairs_well_formed _ _ s1 n1 n2 c Hw) as ((_ & HS) & (_ & HP) & (_ & HC)).
  pose proof (getMeanCoherence_refines (after_pairs s1 n1 n2 c) (c / n2) (c mod n2 + n1) c
                row (HS _ Hx) (HS _ Hy) (HP _ Hx) (HP _ Hy) (HC _ Hc') Hrow) as E.
  cbv zeta in E.
  assert (Est : set_pxys (cross_accumulated (after_pairs s1 n1 n2 c) (c / n2) (c mod n2 + n1) c)
                  (after_pairs s1 n1 n2 c) = after_pairs s1 n1 n2 (S c)).
  { unfold after_pairs at 3. unfold cross_accumulated.
    rewrite <- imap_upto_S. reflexivity. }
  rewrite Est in E. eexists. exact E.
Qed.


(** The loop over the pairs. *)
Lemma calcCoherence_effect (g1 g2 : list Z) (n0 : CoherenceNode.t) (w0 : list (list D))
  (s1 : CumulativeTFR.t D) :
  let n1 := length g1 in
  let n2 := length g2 in
  well_formed (Z.of_nat n1) (Z.of_nat n2) s1 ->
  length w0 = (n1 * n2)%nat ->
  Forall (fun row => (Z.to_nat (nFreqs s1) <= length row)%nat) w0 ->
  calcCoherence (updateGroup g1 g2 n0) w0 s1
  = Some (imap_upto (n1 * n2) (pair_row s1 n1 n2) w0, after_pairs s1 n1 n2 (n1 * n2)).
Proof.
  intros n1 n2 Hw Hlen Hrows.
  unfold calcCoherence, updateGroup. cbn [nGroup1Chans nGroup2Chans].
  rewrite !Nat2Z.id. fold n1 n2.
  pose (W := fun c => imap_upto c (pair_row s1 n1 n2) w0).
  pose (Inv := fun (i : nat) (wc : list (list D) * nat) (s : CumulativeTFR.t D) =>
                 wc = (W (i * n2)%nat, (i * n2)%nat) /\ s = after_pairs s1 n1 n2 (i * n2)).
  assert (Hloop : triple (Inv 0%nat (w0, 0%nat))
            (for_loop 0 n1 (fun itX wc =>
               for_loop 0 n2 (fun itY wc =>
                 bind (check (wc.1 !! wc.2)) (fun row =>
                   bind (getMeanCoherence itX (itY + n1) row wc.2) (fun r =>
                     ret (<[wc.2 := r.1]> wc.1, S wc.2)))) wc) (w0, 0%nat))
            (Inv (0 + n1)%nat)).
  { apply triple_for_loop. intros i wc Hi.
    pose (Inv' := fun (j : nat) (wc : list (list D) * nat) (s : CumulativeTFR.t D) =>
                    wc = (W (i * n2 + j)%nat, (i * n2 + j)%nat)
                    /\ s = after_pairs s1 n1 n2 (i * n2 + j)).
    apply (triple_weaken _ (Inv' 0%nat wc) _ _ (Inv' (0 + n2)%nat)).
    - apply triple_for_loop. intros j wc' Hj s [-> ->]. cbn [fst snd].
      set (c := (i * n2 + j)%nat).
      assert (Hc : (c < n1 * n2)%nat) by (unfold c; nia).
      assert (Hi' : (c / n2)%nat = i)
        by (symmetry; apply (Nat.div_unique c n2 i j); unfold c; lia).
      assert (Hj' : (c mod n2)%nat = j)
        by (symmetry; apply (Nat.mod_unique c n2 i j); unfold c; lia).
      destruct (lookup_lt_is_Some_2 w0 c) as [row Hrow]; [lia|].
      assert (Hlr : (Z.to_nat (nFreqs s1) <= length row)%nat)
        by (eapply Forall_lookup_1 in Hrows; [exact Hrows | exact Hrow]).
      destruct (pair_step s1 n1 n2 c row Hw Hc Hlr) as [std E].
      rewrite Hi', Hj' in E.
      unfold bind, check, read, ret. unfold W at 1.
      rewrite lookup_imap_upto_ge, Hrow by lia. rewrite E. cbn [fst snd].
      eexists _, _. split; [reflexivity|]. unfold Inv', W.
      replace (i * n2 + S j)%nat with (S c) by (unfold c; lia).
      split; [|reflexivity]. f_equal.
      apply (insert_imap_upto_old (pair_row s1 n1 n2)). exact Hrow.
    - intros s [-> ->]. unfold Inv'. now rewrite Nat.add_0_r.
    - intros wc' s [-> ->]. unfold Inv.
      replace (S i * n2)%nat with (i * n2 + (0 + n2))%nat by lia. now split. }
  destruct (Hloop s1) as (wc & s' & E & -> & ->).
  { unfold Inv, W, after_pairs. cbn [Nat.mul]. rewrite imap_upto_0. split; [reflexivity|].
    rewrite imap_upto_0. now destruct s1. }
  unfold bind at 1. rewrite E. reflexivity.
Qed.


Lemma coherences_after_pairs (s1 : CumulativeTFR.t D) (n1 n2 j j' x y c f : nat) :
  (c < j)%nat -> (c < j')%nat ->
  coherences (after_pairs s1 n1 n2 j) x y c f = coherences (after_pairs s1 n1 n2 j') x y c f.
Proof.
  intros Hj Hj'. unfold coherences, after_pairs. cbn [nTimes set_pxys].
  apply List.map_ext. intros k. unfold coherence, mean_power, mean_cross.
  cbn [powBuffer pxys set_pxys]. unfold at3 at 1 4.
  now rewrite !lookup_imap_upto_lt by assumption.
Qed.

End Cycle.

Section Thread.
Import Method CumulativeTFR CoherenceNode Estimator.

(** The loop over the active inputs. *)
Lemma addTrials_effect {B : Type} (g1 g2 : list Z) (n0 : CoherenceNode.t)
  (g : Transformed.timing) (activeInputs : list Z) (dataReader : list B)
  (ifft : nat -> nat -> list (Complex.t float)) (st : CumulativeTFR.t float) :
  let ng1 := Z.of_nat (length g1) in
  let ng2 := Z.of_nat (length g2) in
  well_formed ng1 ng2 st ->
  length dataReader = (length g1 + length g2)%nat ->
  Transformed.times_within g (Z.to_nat (nTimes st)) (Transformed.nfft g) = true ->
  (forall activeChan freq, (freq < Z.to_nat (nFreqs st))%nat ->
     length (ifft activeChan freq) = Z.to_nat (Transformed.nfft g)) ->
  exists s1,
    addTrials (updateGroup g1 g2 n0) g activeInputs dataReader ifft st = Some (tt, s1)
    /\ well_formed ng1 ng2 s1
    /\ nFreqs s1 = nFreqs st /\ nTimes s1 = nTimes st /\ pxys s1 = pxys st.
Proof.
  intros ng1 ng2 Hw Hdata Htimes Hifft.
  pose (Inv := fun (_ : nat) (_ : unit) (s : CumulativeTFR.t float) =>
                 well_formed ng1 ng2 s
                 /\ nFreqs s = nFreqs st /\ nTimes s = nTimes st /\ pxys s = pxys st).
  assert (Hloop : triple (Inv 0%nat tt)
            (addTrials (updateGroup g1 g2 n0) g activeInputs dataReader ifft)
            (Inv (0 + length activeInputs)%nat)).
  { apply triple_for_loop. intros i [] Hi s (Hs & Hf & Ht & Hp).
    destruct (lookup_lt_is_Some_2 activeInputs i) as [chan Hchan]; [lia|].
    unfold bind, check, read. rewrite Hchan.
    destruct (groupIt (updateGroup g1 g2 n0) chan) as [gi|] eqn:Eg.
    - pose proof (groupIt_below g1 g2 n0 chan gi Eg) as Hg.
      destruct (Z.ltb_spec gi 0) as [|_]; [lia|].
      destruct (lookup_lt_is_Some_2 dataReader (Z.to_nat gi)) as [segment ->]; [lia|].
      rewrite (addTrial_reads g (ifft i) (Z.to_nat gi) s)
        by (rewrite ?Hf, ?Ht; auto).
      destruct (addTrial_well_formed ng1 ng2 (Transformed.sample g (ifft i))
                  (Z.to_nat gi) s Hs)
        as (s' & E & Hs' & Hf' & Ht' & Hp'); [unfold ng1, ng2; lia|].
      rewrite E. exists tt, s'. split; [reflexivity|]. unfold Inv.
      split; [exact Hs'|]. split; [congruence|]. split; congruence.
    - exists tt, s. split; [reflexivity|]. unfold Inv.
      split; [exact Hs|]. split; [exact Hf|]. split; assumption. }
  destruct (Hloop st) as ([] & s1 & E & Hs1).
  { unfold Inv. split; [exact Hw|]. split; [reflexivity|]. split; reflexivity. }
  exists s1. split; [exact E | exact Hs1].
Qed.

(** X19: one cycle of the analysis thread, from the inverse transforms on.
    The groups are those set by [updateGroup]; the engine has buffers of the
    sizes of the two groups; the reader's instance of [dataBuffer] has one
    segment per channel of the groups; every inverse transform has [nfft]
    entries, and the index of every time of interest is below [nfft]; the
    writer's instance of [meanCoherence] has one row per combination, each
    of at least [nFreqs] entries.  Then in the loop over the active inputs
    and in the loop over the combinations every [getReference(groupIt)],
    every read of [ifftBuffer] at a time of interest, every access to the
    buffers of the engine and every [at(comb)] is in range, and both loops
    return.  The combinations are visited with
    [comb = itX * nGroup2Chans + itY] for channel [itX] of the first group
    and channel [itY] of the second, which is channel [itY + nGroup1Chans] of
    the engine; afterwards row [comb] holds, at every frequency, the mean
    coherence of that pair as the final state of the engine gives it, the
    spectra and powers are those the trials left, and the buffers have kept
    their sizes.  The forward transform, the product with the wavelets and
    the inverse transform are given, not run: their accesses are not part of
    the statement. *)
Theorem run_cycle {B : Type} (g1 g2 : list Z) (n0 : CoherenceNode.t)
  (g : Transformed.timing) (activeInputs : list Z) (dataReader : list B)
  (ifft : nat -> nat -> list (Complex.t float)) (coherenceWriter : list (list float))
  (st : CumulativeTFR.t float) :
  let n := updateGroup g1 g2 n0 in
  let n1 := length g1 in
  let n2 := length g2 in
  let nf := Z.to_nat (nFreqs st) in
  well_formed (Z.of_nat n1) (Z.of_nat n2) st ->
  length dataReader = (n1 + n2)%nat ->
  Transformed.times_within g (Z.to_nat (nTimes st)) (Transformed.nfft g) = true ->
  (forall activeChan freq, (freq < nf)%nat ->
     length (ifft activeChan freq) = Z.to_nat (Transformed.nfft g)) ->
  length coherenceWriter = (n1 * n2)%nat ->
  Forall (fun row => (nf <= length row)%nat) coherenceWriter ->
  exists s1 w' st',
    addTrials n g activeInputs dataReader ifft st = Some (tt, s1)
    /\ calcCoherence n coherenceWriter s1 = Some (w', st')
    /\ well_formed (Z.of_nat n1) (Z.of_nat n2) st'
    /\ spectrumBuffer st' = spectrumBuffer s1 /\ powBuffer st' = powBuffer s1
    /\ length w' = length coherenceWriter
    /\ forall itX itY f, (itX < n1)%nat -> (itY < n2)%nat -> (f < nf)%nat ->
         exists row,
           w' !! (itX * n2 + itY)%nat = Some row
           /\ row !! f
              = Some (mean (coherences st' itX (itY + n1) (itX * n2 + itY) f)).
Proof.
  intros n n1 n2 nf Hw Hdata Htimes Hifft Hlen Hrows.
  destruct (addTrials_effect g1 g2 n0 g activeInputs dataReader ifft st
              Hw Hdata Htimes Hifft)
    as (s1 & E1 & Hw1 & Hf1 & Ht1 & Hp1).
  assert (Hrows1 : Forall (fun row => (Z.to_nat (nFreqs s1) <= length row)%nat)
                     coherenceWriter) by now rewrite Hf1.
  pose proof (calcCoherence_effect g1 g2 n0 coherenceWriter s1 Hw1 Hlen Hrows1) as E2.
  cbv zeta in E2. fold n n1 n2 in E2.
  eexists s1, _, _. split; [exact E1|]. split; [exact E2|].
  split; [now apply after_pairs_well_formed|].
  split; [reflexivity|]. split; [reflexivity|].
  split; [apply length_imap_upto|].
  intros itX itY f HX HY Hf.
  set (c := (itX * n2 + itY)%nat).
  assert (Hc : (c < n1 * n2)%nat) by (unfold c; nia).
  assert (HX' : (c / n2)%nat = itX)
    by (symmetry; apply (Nat.div_unique c n2 itX itY); unfold c; lia).
  assert (HY' : (c mod n2)%nat = itY)
    by (symmetry; apply (Nat.mod_unique c n2 itX itY); unfold c; lia).
  destruct (lookup_lt_is_Some_2 coherenceWriter c) as [row Hrow]; [lia|].
  assert (Hlr : (nf <= length row)%nat)
    by (eapply Forall_lookup_1 in Hrows; [exact Hrows | exact Hrow]).
  exists (pair_row s1 n1 n2 c row).
  rewrite lookup_imap_upto_lt, Hrow by exact Hc. split; [reflexivity|].
  unfold pair_row. rewrite list_lookup_imap.
  destruct (lookup_lt_is_Some_2 row f) as [old ->]; [lia|].
  cbn [fmap option_fmap option_map]. rewrite Hf1.
  destruct (Nat.ltb_spec f (Z.to_nat (nFreqs st))) as [_|]; [|unfold nf in Hf; lia].
  rewrite HX', HY'. f_equal. f_equal.
  apply coherences_after_pairs; lia.
Qed.

End Thread.

Lemma run_cycle_witness :
  let g := Transformed.mkTiming 10 100 (Single.of_int 2)
             (Single.of_double 0x1.999999999999ap-4%float) 1 in
  let n := CoherenceNode.updateGroup [0] [1] (CoherenceNode.mk [] [] 0 0 0) in
  let ifft := fun (activeChan _ : nat) =>
                replicate 100 (Complex.mk (float_of_int (Z.of_nat activeChan + 1)) 1%float) in
  exists s1 w' st',
    CoherenceNode.addTrials n g [0; 1] [tt; tt] ifft
      (CumulativeTFR.construct 1 1 1 2 0%float []) = Some (tt, s1)
    /\ CoherenceNode.calcCoherence n [[0%float]] s1 = Some (w', st').
Proof.
  cbv zeta.
  destruct (run_cycle [0] [1] (CoherenceNode.mk [] [] 0 0 0)
              (Transformed.mkTiming 10 100 (Single.of_int 2)
                 (Single.of_double 0x1.999999999999ap-4%float) 1)
              [0; 1] [tt; tt]
              (fun (activeChan _ : nat) =>
                 replicate 100 (Complex.mk (float_of_int (Z.of_nat activeChan + 1)) 1%float))
              [[0%float]] (CumulativeTFR.construct 1 1 1 2 0%float []))
    as (s1 & w' & st' & E1 & E2 & _).
  - apply construct_well_formed.
  - reflexivity.
  - vm_compute. reflexivity.
  - intros activeChan freq _. reflexivity.
  - reflexivity.
  - repeat constructor.
  - exists s1, w', st'. split; [exact E1 | exact E2].
Defined.
